(** * University_Assistant: the speech normaliser, the query router, the
      transcription handler, the retrieval engine and the aiohttp patch,
      embedded from [agent_patched.py], [rag_engine.py] and
      [livekit_patch.py].

    Python [str] values are sequences of Unicode code points; the regular
    expressions of the source are kept as data and run by a backtracking
    matcher that follows the semantics of Python's [re] module on the
    fragment the source uses. *)

From Stdlib Require Import String Ascii.
From Stdlib Require Import List NArith Bool Arith Lia.
Import ListNotations.

Set Implicit Arguments.
Open Scope string_scope.
Open Scope list_scope.
Open Scope N_scope.

(** ** Text *)

(** A code point, and a Python [str]. *)
Definition cp := N.
Definition text := list cp.

Definition ch (a : ascii) : cp := N_of_ascii a.

(** An ASCII literal of the source as a [text]. *)
Fixpoint s2t (s : string) : text :=
  match s with
  | EmptyString => []
  | String a s' => ch a :: s2t s'
  end.

Definition cp_in (l : list cp) (c : cp) : bool := existsb (N.eqb c) l.

Definition in_range (lo hi c : cp) : bool := (N.leb lo c && N.leb c hi)%bool.

(** ** Character classes *)

(** Unicode white space, the set behind both [\s] of [re] and [str.strip()]
    ([Py_UNICODE_ISSPACE]). *)
Definition is_space (c : cp) : bool :=
  (in_range 9 13 c || in_range 28 32 c || N.eqb c 133 || N.eqb c 160
   || N.eqb c 5760 || in_range 8192 8202 c || N.eqb c 8232 || N.eqb c 8233
   || N.eqb c 8239 || N.eqb c 8287 || N.eqb c 12288)%bool.

Definition is_ascii (c : cp) : bool := N.ltb c 128.

Definition ascii_digit (c : cp) : bool := in_range 48 57 c.
Definition ascii_upper (c : cp) : bool := in_range 65 90 c.
Definition ascii_lower (c : cp) : bool := in_range 97 122 c.
Definition ascii_alnum (c : cp) : bool :=
  (ascii_digit c || ascii_upper c || ascii_lower c)%bool.

(** The parts of the Unicode character database the program consults through
    [re] and [str.lower()] outside ASCII.  Inside ASCII every class is fixed
    by the definitions below, so the tables are only ever asked about code
    points from U+0080 on. *)
Class UnicodeData : Type := {
  (** decimal digits (category Nd), the non-ASCII part of [\d] *)
  uni_decimal : cp -> bool;
  (** [str.isalnum], the non-ASCII part of [\w] *)
  uni_alnum : cp -> bool;
  (** [str.lower()] on a text that is not pure ASCII *)
  uni_lower : text -> text;
  uni_decimal_alnum : forall c, uni_decimal c = true -> uni_alnum c = true;
  uni_alnum_not_space : forall c, uni_alnum c = true -> is_space c = false
}.

(** The tables that know no character beyond ASCII.  Texts of ASCII
    characters are treated the same under every table. *)
#[export] Instance ascii_tables : UnicodeData.
Proof.
  refine {| uni_decimal := fun _ => false;
            uni_alnum := fun _ => false;
            uni_lower := fun t => t |}; discriminate.
Defined.

Section Classes.
Context {U : UnicodeData}.

(** [\d] *)
Definition is_digit (c : cp) : bool :=
  if is_ascii c then ascii_digit c else uni_decimal c.

(** [\w] *)
Definition is_word (c : cp) : bool :=
  if is_ascii c then (ascii_alnum c || N.eqb c 95)%bool else uni_alnum c.

(** [.] without DOTALL: anything but a line feed. *)
Definition is_dot (c : cp) : bool := negb (N.eqb c 10).

(** A cased literal under IGNORECASE.  [lo] is the lower-case ASCII letter of
    the pattern.  Three ASCII letters have partners outside ASCII: [i]
    (U+0130 and U+0131), [k] (U+212A) and [s] (U+017F). *)
Definition ci_letter (lo : cp) (c : cp) : bool :=
  (N.eqb c lo || N.eqb (c + 32) lo
   || (N.eqb lo 105 && (N.eqb c 304 || N.eqb c 305))
   || (N.eqb lo 107 && N.eqb c 8490)
   || (N.eqb lo 115 && N.eqb c 383))%bool.

(** [str.lower()] *)
Definition to_lower_ascii (c : cp) : cp := if ascii_upper c then c + 32 else c.

Definition lower (t : text) : text :=
  if forallb is_ascii t then map to_lower_ascii t else uni_lower t.

(** [str.strip()] *)
Fixpoint lstrip (t : text) : text :=
  match t with
  | c :: t' => if is_space c then lstrip t' else t
  | [] => []
  end.

Definition rstrip (t : text) : text := rev (lstrip (rev t)).

Definition strip (t : text) : text := rstrip (lstrip t).

(** [needle in hay] *)
Fixpoint starts_with (p t : text) : bool :=
  match p, t with
  | [], _ => true
  | a :: p', b :: t' => (N.eqb a b && starts_with p' t')%bool
  | _ :: _, [] => false
  end.

Fixpoint contains (needle hay : text) : bool :=
  (starts_with needle hay
   || match hay with
      | [] => false
      | _ :: hay' => contains needle hay'
      end)%bool.

(** ** Regular expressions *)

(** The fragment of [re] syntax the source uses.  Repetition is only ever
    applied to a single-character class. *)
Inductive regex : Type :=
| Eps
| Chr (c : cp)                       (* a literal character *)
| Cls (p : cp -> bool)               (* [...], \d, \s, . *)
| Bol (multiline : bool)             (* ^ *)
| Wb                                 (* \b *)
| Cat (r1 r2 : regex)
| Alt (r1 r2 : regex)                (* r1|r2 *)
| Grp (n : nat) (r : regex)          (* capturing group number n *)
| Rep (greedy : bool) (plus : bool) (p : cp -> bool).
                                     (* p* p+ p*? p+? *)

Definition groups := list (nat * text).

Fixpoint group (n : nat) (g : groups) : text :=
  match g with
  | [] => []
  | (m, t) :: g' => if Nat.eqb m n then t else group n g'
  end.

(** The state of a match in progress: the character before the current
    position ([None] at the start of the string) and the text still to read. *)
Section Matcher.
Variable R : Type.

Definition kont := option cp -> text -> option R.

Fixpoint rep_greedy (p : cp -> bool) (k : kont) (prev : option cp) (s : text)
  : option R :=
  match s with
  | c :: s' =>
      if p c then
        match rep_greedy p k (Some c) s' with
        | Some r => Some r
        | None => k prev s
        end
      else k prev s
  | [] => k prev s
  end.

Fixpoint rep_lazy (p : cp -> bool) (k : kont) (prev : option cp) (s : text)
  : option R :=
  match k prev s with
  | Some r => Some r
  | None =>
      match s with
      | c :: s' => if p c then rep_lazy p k (Some c) s' else None
      | [] => None
      end
  end.

Definition word_before (prev : option cp) : bool :=
  match prev with Some c => is_word c | None => false end.

Definition word_at (s : text) : bool :=
  match s with c :: _ => is_word c | [] => false end.

Definition at_line_start (multiline : bool) (prev : option cp) : bool :=
  match prev with
  | None => true
  | Some c => (multiline && N.eqb c 10)%bool
  end.

(** Backtracking match of [r] at the current position, in continuation
    passing style: [k] is what remains of the pattern. *)
Fixpoint rmatch (r : regex) (prev : option cp) (s : text) (g : groups)
  (k : option cp -> text -> groups -> option R) : option R :=
  match r with
  | Eps => k prev s g
  | Chr c =>
      match s with
      | x :: s' => if N.eqb x c then k (Some x) s' g else None
      | [] => None
      end
  | Cls p =>
      match s with
      | x :: s' => if p x then k (Some x) s' g else None
      | [] => None
      end
  | Bol ml => if at_line_start ml prev then k prev s g else None
  | Wb => if xorb (word_before prev) (word_at s) then k prev s g else None
  | Cat r1 r2 =>
      rmatch r1 prev s g (fun prev' s' g' => rmatch r2 prev' s' g' k)
  | Alt r1 r2 =>
      match rmatch r1 prev s g k with
      | Some x => Some x
      | None => rmatch r2 prev s g k
      end
  | Grp n r1 =>
      rmatch r1 prev s g
        (fun prev' s' g' =>
           k prev' s' ((n, firstn (length s - length s')%nat s) :: g'))
  | Rep greedy plus p =>
      let star := if greedy then rep_greedy else rep_lazy in
      if plus then
        match s with
        | x :: s' =>
            if p x then star p (fun pv sv => k pv sv g) (Some x) s' else None
        | [] => None
        end
      else star p (fun pv sv => k pv sv g) prev s
  end.

End Matcher.

(** A match at the current position: the groups and the text after it. *)
Definition match_here (r : regex) (prev : option cp) (s : text)
  : option (groups * text) :=
  rmatch r prev s [] (fun _ s' g => Some (g, s')).

(** [re.search(r, t)] as a truth value. *)
Fixpoint search_from (r : regex) (prev : option cp) (t : text) : bool :=
  match match_here r prev t with
  | Some _ => true
  | None =>
      match t with
      | c :: t' => search_from r (Some c) t'
      | [] => false
      end
  end.

Definition re_search (r : regex) (t : text) : bool := search_from r None t.

(** A replacement template: literal text and back-references. *)
Inductive titem : Type :=
| TLit (t : text)
| TRef (n : nat).

Fixpoint expand (tpl : list titem) (g : groups) : text :=
  match tpl with
  | [] => []
  | TLit t :: tpl' => t ++ expand tpl' g
  | TRef n :: tpl' => group n g ++ expand tpl' g
  end.

(** [re.sub(r, tpl, t)]: the leftmost match is replaced and the scan goes on
    after it.  [skip] counts the characters of the current match still to be
    passed over.  No pattern of the source matches the empty string
    (see [pattern_nonempty] below), so an empty match is read as no match. *)
Fixpoint sub_scan (r : regex) (tpl : list titem) (prev : option cp)
  (skip : nat) (t : text) : text :=
  match t with
  | [] => []
  | c :: t' =>
      match skip with
      | S n => sub_scan r tpl (Some c) n t'
      | O =>
          match match_here r prev t with
          | Some (g, rest) =>
              match (length t - length rest)%nat with
              | S n => expand tpl g ++ sub_scan r tpl (Some c) n t'
              | O => c :: sub_scan r tpl (Some c) 0 t'
              end
          | None => c :: sub_scan r tpl (Some c) 0 t'
          end
      end
  end.

Definition re_sub (r : regex) (tpl : list titem) (t : text) : text :=
  sub_scan r tpl None 0 t.

End Classes.

(** ** The speech normaliser ([agent_patched.py], [clean_response_for_speech]) *)

Section Normaliser.
Context {U : UnicodeData}.

Definition re_seq (rs : list regex) : regex := fold_right Cat Eps rs.

(** A literal word of a pattern. *)
Definition lit (s : string) : regex := re_seq (map Chr (s2t s)).

(** A literal word under IGNORECASE; [s] is given in lower case. *)
Definition lit_i (s : string) : regex :=
  re_seq (map (fun c => if ascii_lower c then Cls (ci_letter c) else Chr c)
         (s2t s)).

(** [r?] *)
Definition opt (r : regex) : regex := Alt r Eps.

Definition alts (r : regex) (rs : list regex) : regex :=
  fold_left Alt rs r.

Definition any_lazy : regex := Rep false false is_dot.      (* .*? *)
Definition digits : regex := Rep true true is_digit.         (* \d+ *)
Definition spaces : regex := Rep true false is_space.        (* \s* *)

(** [[-•*+]] *)
Definition is_bullet : cp -> bool := cp_in [45; 8226; 42; 43].

(** The first stripped class: # $ % & @ ^ ` ~ | \ [ ] { } ( ) < > and the
    double and single quote characters (34 and 39). *)
Definition is_symbol : cp -> bool :=
  cp_in [35; 36; 37; 38; 64; 94; 96; 126; 124; 92; 91; 93; 123; 125; 40; 41;
         60; 62; 34; 39].

(** [[+=!?.,;:]] *)
Definition is_punct : cp -> bool := cp_in [43; 61; 33; 63; 46; 44; 59; 58].

(** [\*\*(.*?)\*\*] *)
Definition re_bold : regex := re_seq [lit "**"; Grp 1 any_lazy; lit "**"].
(** [\*(.*?)\*] *)
Definition re_italic : regex := re_seq [lit "*"; Grp 1 any_lazy; lit "*"].
(** [_(.*?)_] *)
Definition re_underline : regex := re_seq [lit "_"; Grp 1 any_lazy; lit "_"].
(** [`(.*?)`] *)
Definition re_code : regex := re_seq [lit "`"; Grp 1 any_lazy; lit "`"].
(** [\n(\d+)\. ] *)
Definition re_next_item : regex := re_seq [Chr 10; Grp 1 digits; lit ". "].
(** [^(\d+)\. ] *)
Definition re_first_item : regex := re_seq [Bol false; Grp 1 digits; lit ". "].
(** [^[\s]*[-•*+]\s*] with MULTILINE *)
Definition re_bullet_line : regex :=
  re_seq [Bol true; spaces; Cls is_bullet; spaces].
(** [\n[\s]*[-•*+]\s*] *)
Definition re_bullet_next : regex :=
  re_seq [Chr 10; spaces; Cls is_bullet; spaces].
(** [\bNote:\s*], [\bImportant:\s*], [\bRemember:\s*] with IGNORECASE *)
Definition re_label (word : string) : regex :=
  re_seq [Wb; lit_i word; Chr 58; spaces].
(** [\s*/\s*] *)
Definition re_slash_spaced : regex := re_seq [spaces; Chr 47; spaces].
(** [/] *)
Definition re_slash : regex := Chr 47.
(** [\s*-\s*] *)
Definition re_hyphen : regex := re_seq [spaces; Chr 45; spaces].
(** [hours?|days?|weeks?|months?|years?] *)
Definition re_unit_word : regex :=
  alts (re_seq [lit "hour"; opt (Chr 115)])
    [re_seq [lit "day"; opt (Chr 115)];
     re_seq [lit "week"; opt (Chr 115)];
     re_seq [lit "month"; opt (Chr 115)];
     re_seq [lit "year"; opt (Chr 115)]].
(** [\b(\d+)\s*(hours?|days?|weeks?|months?|years?)\b] *)
Definition re_units : regex :=
  re_seq [Wb; Grp 1 digits; spaces; Grp 2 re_unit_word; Wb].
(** [\b(\d+)\s*%] *)
Definition re_percent : regex := re_seq [Wb; Grp 1 digits; spaces; Chr 37].
(** [\n+] *)
Definition re_newlines : regex := Rep true true (N.eqb 10).
(** [\s+] *)
Definition re_whitespace : regex := Rep true true is_space.

Definition clean_response_for_speech (text0 : text) : text :=
  (* Remove ALL markdown formatting completely *)
  let t := re_sub re_bold [TRef 1] text0 in
  let t := re_sub re_italic [TRef 1] t in
  let t := re_sub re_underline [TRef 1] t in
  let t := re_sub re_code [TRef 1] t in
  (* Convert numbered lists to natural speech with connectors *)
  let t := re_sub re_next_item [TLit (s2t ". Next, ")] t in
  let t := re_sub re_first_item [TLit (s2t "First, ")] t in
  (* Remove ALL bullet points, dashes, and list markers *)
  let t := re_sub re_bullet_line [] t in
  let t := re_sub re_bullet_next [TLit (s2t ". Also, ")] t in
  (* Convert common structured patterns to speech *)
  let t := re_sub (re_label "note") [TLit (s2t "Please note that ")] t in
  let t := re_sub (re_label "important") [TLit (s2t "This is important: ")] t in
  let t := re_sub (re_label "remember") [TLit (s2t "Remember that ")] t in
  (* Remove ALL special characters and symbols that TTS reads aloud *)
  let t := re_sub (Cls is_symbol) [] t in
  let t := re_sub (Cls is_punct) [] t in
  (* Replace slashes and other separators *)
  let t := re_sub re_slash_spaced [TLit (s2t " or ")] t in
  let t := re_sub re_slash [TLit (s2t " or ")] t in
  let t := re_sub re_hyphen [TLit (s2t " ")] t in
  (* Convert remaining numbered patterns to natural speech *)
  let t := re_sub re_units [TRef 1; TLit (s2t " "); TRef 2] t in
  let t := re_sub re_percent [TRef 1; TLit (s2t " percent")] t in
  (* Clean up extra whitespace and newlines *)
  let t := re_sub re_newlines [TLit (s2t " ")] t in
  let t := re_sub re_whitespace [TLit (s2t " ")] t in
  strip t.

End Normaliser.

(** ** Python exceptions and outcomes *)

Inductive pyclass : Type :=
| ValueError
| RuntimeError
| OSError
| KeyboardInterrupt
| SystemExit
| CancelledError.

(** Whether a class derives from [Exception]; the others derive from
    [BaseException] only and pass through [except Exception]. *)
Definition is_Exception (c : pyclass) : bool :=
  match c with
  | ValueError | RuntimeError | OSError => true
  | KeyboardInterrupt | SystemExit | CancelledError => false
  end.

Record exn : Type := { exn_class : pyclass; exn_msg : text }.

Inductive outcome (A : Type) : Type :=
| Ret (a : A)
| Raise (e : exn).
Arguments Ret {A} a.
Arguments Raise {A} e.

(** ** The query router ([agent_patched.py], [answer_with_rag]) *)

Section Router.
Context {U : UnicodeData}.

(** A pattern of the shape [\b(w1|w2|...)\b]. *)
Definition re_words (w : string) (ws : list string) : regex :=
  re_seq [Wb; Grp 1 (alts (lit w) (map lit ws)); Wb].

Definition re_greeting : regex :=
  re_words "hi" ["hello"; "hey"; "good morning"; "good afternoon";
                 "good evening"].
Definition re_status : regex :=
  re_words "how are you" ["what's up"; "how's it going"].
Definition re_thanks_bye : regex :=
  re_words "thank you" ["thanks"; "bye"; "goodbye"].
Definition re_capability : regex :=
  re_words "what can you do" ["help me"; "what do you know"].
Definition re_thanks : regex := re_words "thank you" ["thanks"].
Definition re_bye : regex := re_words "bye" ["goodbye"].

Definition casual_patterns : list regex :=
  [re_greeting; re_status; re_thanks_bye; re_capability].

Definition is_casual (user_query : text) : bool :=
  existsb (fun pattern => re_search pattern (lower user_query))
    casual_patterns.

(** The five branches of the casual reply. *)
Inductive casual : Type :=
| Greeting
| StatusCheck
| Gratitude
| Farewell
| Capability.

Definition casual_branch (user_query : text) : casual :=
  if re_search re_greeting (lower user_query) then Greeting
  else if re_search re_status (lower user_query) then StatusCheck
  else if re_search re_thanks (lower user_query) then Gratitude
  else if re_search re_bye (lower user_query) then Farewell
  else Capability.

Definition casual_prompt (c : casual) : text :=
  match c with
  | Greeting =>
      s2t "Say exactly: Hey there! I'm Nexi your SRM buddy. What do you wanna know about campus?"
  | StatusCheck =>
      s2t "Say exactly: I'm awesome thanks! Ready to help you with anything about SRM. What's on your mind?"
  | Gratitude =>
      s2t "Say exactly: No problem! Always happy to help a fellow student. Ask me anything else!"
  | Farewell =>
      s2t "Say exactly: See ya later! Come back anytime you need help with university stuff!"
  | Capability =>
      s2t "Say exactly: I know tons about SRM like hostels fees classes library and campus life. What interests you most?"
  end.

(** The lines of a triple-quoted literal, each ended by a line feed. *)
Definition line (t : text) : text := t ++ [10].

Definition quoted (t : text) : text := [34] ++ t ++ [34].

(** The prompt sent when the retrieved answer is not trusted. *)
Definition redirect_prompt (user_query : text) : text :=
  line []
  ++ line (s2t "You are Nexi, a friendly university assistant. A student asked: "
           ++ quoted user_query)
  ++ line []
  ++ line (s2t "I don't have specific details about this in my university database.")
  ++ line []
  ++ line (s2t "Respond in 15 words or less with a helpful, conversational tone:")
  ++ line (s2t "- Briefly acknowledge you don't have that info")
  ++ line (s2t "- Suggest contacting the university office or checking the official website")
  ++ line (s2t "- Sound natural and caring, not robotic").

(** The prompt that presents the retrieved answer. *)
Definition direct_prompt (user_query clean_answer : text) : text :=
  line []
  ++ line (s2t "You are Nexi, a super casual and friendly student buddy at SRM University.")
  ++ line []
  ++ line (s2t "Student asked: " ++ quoted user_query)
  ++ line (s2t "Info: " ++ clean_answer)
  ++ line []
  ++ line (s2t "Respond in 15 words or less like you're texting a friend:")
  ++ line (s2t "- Use simple everyday words")
  ++ line (s2t "- Be super casual and warm")
  ++ line (s2t "- Skip formal language completely")
  ++ line (s2t "- Sound like a helpful student not a robot")
  ++ line (s2t "- Start with words like Yeah, So, Basically, etc").

(** The test of line 165: the retrieved answer is not presented. *)
Definition rag_found_nothing (rag_answer : text) : bool :=
  let clean_answer := clean_response_for_speech rag_answer in
  (contains (s2t "don't know") (lower rag_answer)
   || contains (s2t "cannot") (lower rag_answer)
   || Nat.ltb (length (strip clean_answer)) 15)%bool.

Definition knowledge_prompt (user_query rag_answer : text) : text :=
  let clean_answer := clean_response_for_speech rag_answer in
  if rag_found_nothing rag_answer
  then redirect_prompt user_query
  else direct_prompt user_query clean_answer.

(** What the agent does for one query: calls to the retrieval engine and
    replies handed to the session. *)
Inductive agent_event : Type :=
| AskedRag (query : text)
| Replied (instructions : text).

(** The collaborators of [answer_with_rag]: [get_rag_answer_async] and
    [session.generate_reply], either of which may raise. *)
Record agent_world : Type := {
  rag_async : text -> outcome text;
  generate_reply : text -> option exn
}.

Definition fallback_instructions : text :=
  s2t "Sorry, I'm having trouble right now. Could you please ask your question again?".

Definition reply (w : agent_world) (instructions : text)
  : list agent_event * outcome unit :=
  ([Replied instructions],
   match generate_reply w instructions with
   | None => Ret tt
   | Some e => Raise e
   end).

(** The body of the [try] block. *)
Definition answer_body (w : agent_world) (user_query : text)
  : list agent_event * outcome unit :=
  if is_casual user_query then
    reply w (casual_prompt (casual_branch user_query))
  else
    match rag_async w user_query with
    | Ret rag_answer =>
        let (tr, r) := reply w (knowledge_prompt user_query rag_answer) in
        (AskedRag user_query :: tr, r)
    | Raise e => ([AskedRag user_query], Raise e)
    end.

Definition answer_with_rag (w : agent_world) (user_query : text)
  : list agent_event * outcome unit :=
  match answer_body w user_query with
  | (tr, Ret tt) => (tr, Ret tt)
  | (tr, Raise e) =>
      if is_Exception (exn_class e) then
        let (tr', r) := reply w fallback_instructions in (tr ++ tr', r)
      else (tr, Raise e)
  end.

End Router.

(** ** The transcription handler ([agent_patched.py], [on_transcription]) *)

Section Transcription.
Context {U : UnicodeData}.

(** What the handler and the callback of the task it starts do besides
    running [answer_with_rag]. *)
Inductive handler_event : Type :=
| PrintedUserSaid (user_text : text)
| CreatedTask (user_text : text)      (* create_task, add_done_callback *)
| PrintedHandlerError (e : exn)
| PrintedTaskError (e : exn).

(** [on_transcription].  [event_text] is [event.text], [None] for Python's
    [None]; [create_task] tells whether [asyncio.create_task] raises.  The
    result is the query of the task that was started, if one was. *)
Definition on_transcription (create_task : text -> option exn)
  (event_text : option text) : list handler_event * outcome (option text) :=
  match event_text with
  | None => ([], Ret None)
  | Some t =>
      match strip t with
      | [] => ([], Ret None)
      | c :: s =>
          let user_text := c :: s in
          match create_task user_text with
          | None =>
              ([PrintedUserSaid user_text; CreatedTask user_text],
               Ret (Some user_text))
          | Some e =>
              if is_Exception (exn_class e)
              then ([PrintedUserSaid user_text; PrintedHandlerError e],
                    Ret None)
              else ([PrintedUserSaid user_text], Raise e)
          end
      end
  end.

(** [handle_task_result]: [task.result()] returns or raises what the task
    ended with. *)
Definition handle_task_result (task_result : outcome unit)
  : list handler_event * outcome unit :=
  match task_result with
  | Ret _ => ([], Ret tt)
  | Raise e =>
      if is_Exception (exn_class e)
      then ([PrintedTaskError e], Ret tt)
      else ([], Raise e)
  end.

(** One transcription event from the handler to the callback of its task:
    what was printed, what the task did, and what is raised to the event
    loop. *)
Definition transcription_turn (w : agent_world)
  (create_task : text -> option exn) (event_text : option text)
  : list handler_event * list agent_event * outcome unit :=
  match on_transcription create_task event_text with
  | (printed, Ret (Some user_text)) =>
      let (tr, r) := answer_with_rag w user_text in
      let (printed', r') := handle_task_result r in
      (printed ++ printed', tr, r')
  | (printed, Ret None) => (printed, [], Ret tt)
  | (printed, Raise e) => (printed, [], Raise e)
  end.

End Transcription.

(** ** The retrieval engine ([rag_engine.py]) *)

Section Engine.

(** Documents and the nodes stored for them are opaque to the program. *)
Variables document chunk : Type.

(** The collaborators of the engine.  [index_nodes] is what
    [VectorStoreIndex.from_documents] writes to the collection for a list
    of documents when it goes through (sentence splitting with chunk size
    512 and overlap 50, then embedding); [run_query] is
    [query_engine.query], which reads the collection (5 nearest nodes,
    compact synthesis) and may raise. *)
Variable index_nodes : list document -> list chunk.
Variable run_query : list chunk -> text -> outcome text.

(** What lives outside the process. *)
Record world : Type := {
  (** the Chroma collection [university_data] under [PERSIST_DIR] *)
  collection : list chunk;
  (** [DATA_DIR]: [None] when the folder does not exist, otherwise what
      [SimpleDirectoryReader(...).load_data()] gives for it *)
  data_dir : option (outcome (list document));
  (** what constructing [HuggingFaceEmbedding] gives *)
  embedding : outcome unit;
  (** how [VectorStoreIndex.from_documents] ends: [None] when every node is
      stored, [Some (n, e)] when it raises [e] with the first [n] nodes
      already in the collection *)
  indexing : option (nat * exn);
  (** what [storage_context.persist()] gives *)
  persisting : option exn
}.

Inductive level : Type := INFO | WARNING | ERROR.

(** The messages of the logger named RAG. *)
Inductive message : Type :=
| MsgInitializing
| MsgNoExistingData
| MsgLoadedExisting (items : nat)
| MsgDataFolderNotFound
| MsgLoadedDocuments (n : nat)
| MsgProcessing
| MsgIngested (n : nat)
| MsgReady
| MsgQuerying (query : text)
| MsgQueryFailed (e : exn).

Inductive event : Type :=
| Logged (l : level) (m : message)
| ReadDataDir                         (* SimpleDirectoryReader.load_data *)
| WroteNodes (n : nat)                (* VectorStoreIndex.from_documents *)
| Persisted                           (* storage_context.persist() *)
| Queried (query : text).             (* query_engine.query *)

(** How [self.index] was built. *)
Inductive index : Type :=
| EmptyIndex                          (* VectorStoreIndex([], ...) *)
| IndexFromDocuments
| IndexFromVectorStore.

Record engine : Type := {
  engine_id : nat;                    (* the identity of the object *)
  engine_index : index
}.

(** The state a call runs in: the world, the log, the module global
    [_rag_engine] and the number of engines constructed so far. *)
Record process : Type := {
  disk : world;
  trace : list event;
  rag_engine_global : option engine;
  created : nat
}.

Definition M (A : Type) : Type := process -> outcome A * process.

Definition ret {A} (a : A) : M A := fun p => (Ret a, p).

Definition bind {A B} (m : M A) (k : A -> M B) : M B :=
  fun p =>
    match m p with
    | (Ret a, p') => k a p'
    | (Raise e, p') => (Raise e, p')
    end.

Definition raise {A} (e : exn) : M A := fun p => (Raise e, p).

(** [try: m  except Exception as e: h e] *)
Definition try_except {A} (m : M A) (h : exn -> M A) : M A :=
  fun p =>
    match m p with
    | (Ret a, p') => (Ret a, p')
    | (Raise e, p') =>
        if is_Exception (exn_class e) then h e p' else (Raise e, p')
    end.

Notation "x <- m ;; k" := (bind m (fun x => k))
  (at level 61, m at next level, right associativity).
Notation "m ;;; k" := (bind m (fun _ => k))
  (at level 61, right associativity).

Definition emit (e : event) : M unit :=
  fun p => (Ret tt, {| disk := disk p; trace := trace p ++ [e];
                       rag_engine_global := rag_engine_global p;
                       created := created p |}).

Definition logger (l : level) (m : message) : M unit := emit (Logged l m).

Definition read_disk : M world := fun p => (Ret (disk p), p).

Definition write_collection (c : list chunk) : M unit :=
  fun p => (Ret tt, {| disk := {| collection := c;
                                  data_dir := data_dir (disk p);
                                  embedding := embedding (disk p);
                                  indexing := indexing (disk p);
                                  persisting := persisting (disk p) |};
                       trace := trace p;
                       rag_engine_global := rag_engine_global p;
                       created := created p |}).

Definition lift {A} (o : outcome A) : M A := fun p => (o, p).

(** A finished engine object: its identity is the number of engines
    constructed before it. *)
Definition new_object : M nat :=
  fun p => (Ret (created p),
            {| disk := disk p; trace := trace p;
               rag_engine_global := rag_engine_global p;
               created := S (created p) |}).

(** [UniversityRAGEngine._ingest_documents] *)
Definition _ingest_documents : M index :=
  w <- read_disk ;;
  match data_dir w with
  | None =>
      logger WARNING MsgDataFolderNotFound ;;;
      ret EmptyIndex
  | Some loaded =>
      emit ReadDataDir ;;;
      documents <- lift loaded ;;
      logger INFO (MsgLoadedDocuments (length documents)) ;;;
      logger INFO MsgProcessing ;;;
      match indexing w with
      | Some (n, e) =>
          let stored := firstn n (index_nodes documents) in
          emit (WroteNodes (length stored)) ;;;
          write_collection (collection w ++ stored) ;;;
          raise e
      | None =>
          emit (WroteNodes (length (index_nodes documents))) ;;;
          write_collection (collection w ++ index_nodes documents) ;;;
          match persisting w with
          | Some e => raise e
          | None =>
              emit Persisted ;;;
              logger INFO (MsgIngested (length documents)) ;;;
              ret IndexFromDocuments
          end
      end
  end.

(** [UniversityRAGEngine.__init__].  The steps that can fail for reasons
    outside the process are the loading of the embedding model, the reading
    of the folder, the indexing and [persist]; the steps that only build
    objects in memory (the handles on the Chroma collection, the storage
    context, [from_vector_store] and [as_query_engine]) are taken to
    return. *)
Definition UniversityRAGEngine : M engine :=
  logger INFO MsgInitializing ;;;
  w <- read_disk ;;
  lift (embedding w) ;;;
  idx <- (if Nat.eqb (length (collection w)) 0 then
            logger INFO MsgNoExistingData ;;;
            _ingest_documents
          else
            logger INFO (MsgLoadedExisting (length (collection w))) ;;;
            ret IndexFromVectorStore) ;;
  logger INFO MsgReady ;;;
  id <- new_object ;;
  ret {| engine_id := id; engine_index := idx |}.

Definition invalid_question : text := s2t "Please ask a valid question.".
Definition could_not_retrieve : text :=
  s2t "Sorry, I could not retrieve the answer right now.".

(** [UniversityRAGEngine.get_rag_answer] *)
Definition get_rag_answer_method (self : engine) (query : text) : M text :=
  match strip query with
  | [] => ret invalid_question
  | _ :: _ =>
      try_except
        (logger INFO (MsgQuerying query) ;;;
         emit (Queried query) ;;;
         w <- read_disk ;;
         response <- lift (run_query (collection w) query) ;;
         ret response)
        (fun e =>
           logger ERROR (MsgQueryFailed e) ;;;
           ret could_not_retrieve)
  end.

Definition read_global : M (option engine) :=
  fun p => (Ret (rag_engine_global p), p).

Definition write_global (e : engine) : M unit :=
  fun p => (Ret tt, {| disk := disk p; trace := trace p;
                       rag_engine_global := Some e;
                       created := created p |}).

(** [initialize_rag_engine] *)
Definition initialize_rag_engine : M engine :=
  g <- read_global ;;
  match g with
  | Some e => ret e
  | None =>
      e <- UniversityRAGEngine ;;
      write_global e ;;;
      ret e
  end.

(** The module function [get_rag_answer]; [get_rag_answer_async] runs the
    same steps, the method call on an executor thread. *)
Definition get_rag_answer (query : text) : M text :=
  g <- read_global ;;
  match g with
  | Some e => get_rag_answer_method e query
  | None =>
      e <- initialize_rag_engine ;;
      get_rag_answer_method e query
  end.

(** [await loop.run_in_executor(None, f, ...)]: the call runs on a worker
    thread and [await] gives its result or raises its exception. *)
Definition run_in_executor {A : Type} (call : M A) : M A := call.

(** [UniversityRAGEngine.get_rag_answer_async] *)
Definition get_rag_answer_async_method (self : engine) (query : text)
  : M text :=
  run_in_executor (get_rag_answer_method self query).

(** The module function [get_rag_answer_async]. *)
Definition get_rag_answer_async (query : text) : M text :=
  g <- read_global ;;
  match g with
  | Some e => get_rag_answer_async_method e query
  | None =>
      e <- initialize_rag_engine ;;
      get_rag_answer_async_method e query
  end.

(** The record of a process with a longer log. *)
Definition logged (p : process) (evs : list event)
  : process :=
  {| disk := disk p; trace := trace p ++ evs;
     rag_engine_global := rag_engine_global p; created := created p |}.

(** The events that belong to ingestion. *)
Definition is_ingestion_event (e : event) : bool :=
  match e with
  | ReadDataDir | WroteNodes _ | Persisted => true
  | Logged _ MsgNoExistingData | Logged _ MsgDataFolderNotFound
  | Logged _ (MsgLoadedDocuments _) | Logged _ MsgProcessing
  | Logged _ (MsgIngested _) => true
  | _ => false
  end.

(** *** Calls one after another *)

Inductive call : Type :=
| CallInitialize
| CallGetAnswer (query : text).




(** *** The test at the end of the module *)





(** *** Calls that overlap *)

(** Where a thread stands inside [initialize_rag_engine]. *)
Inductive pc : Type :=
| AtTest                              (* if _rag_engine is None *)
| AtConstruct                         (* UniversityRAGEngine() *)
| AtAssign (e : engine)               (* _rag_engine = ... *)
| AtReturn                            (* return _rag_engine *)
| Returned (e : option engine)
| Failed (x : exn).

Definition thread_step (t : pc) (p : process) : pc * process :=
  match t with
  | AtTest =>
      match rag_engine_global p with
      | None => (AtConstruct, p)
      | Some _ => (AtReturn, p)
      end
  | AtConstruct =>
      match UniversityRAGEngine p with
      | (Ret e, p') => (AtAssign e, p')
      | (Raise x, p') => (Failed x, p')
      end
  | AtAssign e => (AtReturn, snd (write_global e p))
  | AtReturn => (Returned (rag_engine_global p), p)
  | Returned e => (Returned e, p)
  | Failed x => (Failed x, p)
  end.

Fixpoint set_nth {A} (n : nat) (a : A) (l : list A) : list A :=
  match l, n with
  | [], _ => []
  | _ :: l', O => a :: l'
  | b :: l', S n' => b :: set_nth n' a l'
  end.

(** One step of the thread the scheduler picks. *)
Definition pool_step (i : nat) (st : list pc * process) : list pc * process :=
  match nth_error (fst st) i with
  | Some t =>
      let (t', p') := thread_step t (snd st) in (set_nth i t' (fst st), p')
  | None => st
  end.

Definition run_schedule (sched : list nat) (st : list pc * process)
  : list pc * process :=
  fold_left (fun st i => pool_step i st) sched st.

End Engine.

(** ** The configuration of the module ([rag_engine.py], lines 25 to 40) *)




(** ** Start of the agent ([agent_patched.py], [entrypoint]) *)

Section Entrypoint.

(** What the start of a session depends on: the environment and the
    plugins, each of which may raise when it is constructed or called. *)
Record startup : Type := {
  getenv : text -> option text;
  rag_engine_ready : option exn;      (* initialize_rag_engine() *)
  stt_ready : option exn;             (* deepgram.STT *)
  llm_ready : text -> option exn;     (* groq.LLM(api_key=...) *)
  tts_ready : text -> option exn;     (* cartesia.TTS(api_key=...) *)
  vad_ready : option exn;             (* silero.VAD.load() *)
  session_ready : option exn;         (* session.start *)
  greeting_ready : option exn         (* session.generate_reply *)
}.

Inductive startup_event : Type :=
| InitializedRag
| CreatedSTT
| CreatedLLM (api_key : text)
| CreatedTTS (api_key : text)
| LoadedVAD
| StartedSession
| SentGreeting (instructions : text)
| RegisteredHandler                   (* session.on transcription *)
| LoggedStartupError (e : exn).

Definition Start (A : Type) : Type :=
  list startup_event -> outcome A * list startup_event.

Definition s_ret {A} (a : A) : Start A := fun tr => (Ret a, tr).
Definition s_bind {A B} (m : Start A) (k : A -> Start B) : Start B :=
  fun tr =>
    match m tr with
    | (Ret a, tr') => k a tr'
    | (Raise e, tr') => (Raise e, tr')
    end.
Definition s_raise {A} (e : exn) : Start A := fun tr => (Raise e, tr).

(** A call to a plugin: recorded, then it returns or raises. *)
Definition plugin (ev : startup_event) (o : option exn) : Start unit :=
  fun tr =>
    (match o with None => Ret tt | Some e => Raise e end, tr ++ [ev]).

Notation "x <~ m ;; k" := (s_bind m (fun x => k))
  (at level 61, m at next level, right associativity).
Notation "m ;;~ k" := (s_bind m (fun _ => k))
  (at level 61, right associativity).

(** [os.getenv(name)] followed by [if not value: raise ValueError(...)]. *)
Definition required_key (w : startup) (name : string) : Start text :=
  match getenv w (s2t name) with
  | Some (c :: k) => s_ret (c :: k)
  | Some [] | None =>
      s_raise {| exn_class := ValueError;
                 exn_msg := s2t name
                            ++ s2t " not found in environment variables" |}
  end.

Definition initial_greeting : text :=
  s2t "Say exactly: Hey! I'm Nexi your SRM buddy! Ask me anything about campus life hostels fees or whatever you need to know!".

(** The body of the [try] block of [entrypoint]. *)
Definition entrypoint_body (w : startup) : Start unit :=
  plugin InitializedRag (rag_engine_ready w) ;;~
  plugin CreatedSTT (stt_ready w) ;;~
  groq_api_key <~ required_key w "GROQ_API_KEY" ;;
  plugin (CreatedLLM groq_api_key) (llm_ready w groq_api_key) ;;~
  cartesia_api_key <~ required_key w "CARTESIA_API_KEY" ;;
  plugin (CreatedTTS cartesia_api_key) (tts_ready w cartesia_api_key) ;;~
  plugin LoadedVAD (vad_ready w) ;;~
  plugin StartedSession (session_ready w) ;;~
  plugin (SentGreeting initial_greeting) (greeting_ready w) ;;~
  plugin RegisteredHandler None.

(** [entrypoint]: an [Exception] is logged and raised again. *)
Definition entrypoint (w : startup) : outcome unit * list startup_event :=
  match entrypoint_body w [] with
  | (Ret tt, tr) => (Ret tt, tr)
  | (Raise e, tr) =>
      if is_Exception (exn_class e)
      then (Raise e, tr ++ [LoggedStartupError e])
      else (Raise e, tr)
  end.



End Entrypoint.

(** ** The aiohttp patch ([livekit_patch.py]) *)

Section Patch.

(** The Python values that reach [ClientSession.__init__]. *)
Inductive pyvalue : Type :=
| PyNone
| PyBool (b : bool)
| PyStr (s : text)
| PyObject (id : nat).

(** Keyword arguments: a [dict] with [str] keys, in insertion order. *)
Definition kwargs := list (text * pyvalue).

Fixpoint text_eqb (a b : text) : bool :=
  match a, b with
  | [], [] => true
  | x :: a', y :: b' => (N.eqb x y && text_eqb a' b')%bool
  | _, _ => false
  end.

(** [d.get(k)] *)
Fixpoint dict_get (k : text) (d : kwargs) : option pyvalue :=
  match d with
  | [] => None
  | (k', v) :: d' => if text_eqb k' k then Some v else dict_get k d'
  end.

(** [d.pop(k, None)]: the value popped, if the key was there, and the
    dictionary after it. *)
Fixpoint dict_pop (k : text) (d : kwargs) : option pyvalue * kwargs :=
  match d with
  | [] => (None, [])
  | (k', v) :: d' =>
      if text_eqb k' k then (Some v, d')
      else let (r, d'') := dict_pop k d' in (r, (k', v) :: d'')
  end.

(** [d[k] = v]: an existing key keeps its place. *)
Fixpoint dict_set (k : text) (v : pyvalue) (d : kwargs) : kwargs :=
  match d with
  | [] => [(k, v)]
  | (k', v') :: d' =>
      if text_eqb k' k then (k, v) :: d' else (k', v') :: dict_set k v d'
  end.

(** The keyword arguments [patched_client_session_init] hands on. *)
Definition patched_kwargs (kw : kwargs) : kwargs :=
  let (popped, kw') := dict_pop (s2t "proxy") kw in
  let proxy := match popped with Some v => v | None => PyNone end in
  match proxy with
  | PyNone => kw'
  | _ => dict_set (s2t "trust_env") (PyBool true) kw'
  end.

(** What [aiohttp.ClientSession.__init__] was when the module was
    imported: it takes the object, the positional and the keyword
    arguments, and returns or raises. *)
Variable _original_client_session_init :
  nat -> list pyvalue -> kwargs -> outcome unit.

(** [patched_client_session_init] *)
Definition patched_client_session_init (self : nat) (args : list pyvalue)
  (kw : kwargs) : outcome unit :=
  _original_client_session_init self args (patched_kwargs kw).

(** The attribute [aiohttp.ClientSession.__init__]. *)
Inductive session_init : Type :=
| OriginalInit
| PatchedInit.

Inductive patch_print : Type :=
| PrintedApplying
| PrintedApplied
| PrintedRemoving
| PrintedRestored.

(** [apply_livekit_patch] *)
Definition apply_livekit_patch (current : session_init)
  : session_init * list patch_print :=
  (PatchedInit, [PrintedApplying; PrintedApplied]).

(** [remove_livekit_patch] *)
Definition remove_livekit_patch (current : session_init)
  : session_init * list patch_print :=
  (OriginalInit, [PrintedRemoving; PrintedRestored]).

(** A call of [aiohttp.ClientSession] under the current attribute. *)
Definition new_client_session (current : session_init) (self : nat)
  (args : list pyvalue) (kw : kwargs) : outcome unit :=
  match current with
  | OriginalInit => _original_client_session_init self args kw
  | PatchedInit => patched_client_session_init self args kw
  end.

End Patch.

(** * Notions for the statements and their proofs *)

Unset Implicit Arguments.

Section Notions.
Context {U : UnicodeData}.

(** [needle] is a substring of [hay]. *)
Definition occurs (needle hay : text) : Prop :=
  exists pre post, hay = pre ++ needle ++ post.

(** The Python test [is not None]. *)
Definition is_some {A : Type} (o : option A) : bool :=
  match o with Some _ => true | None => false end.

(** The character before the position reached after reading [pre]. *)
Fixpoint adv (prev : option cp) (pre : text) : option cp :=
  match pre with
  | [] => prev
  | c :: pre' => adv (Some c) pre'
  end.

(** Every match of [r] reads a character of the class [Q]. *)
Fixpoint needs (Q : cp -> bool) (r : regex) : Prop :=
  match r with
  | Eps | Bol _ | Wb => False
  | Chr c => Q c = true
  | Cls p => forall x, p x = true -> Q x = true
  | Cat r1 r2 => needs Q r1 \/ needs Q r2
  | Alt r1 r2 => needs Q r1 /\ needs Q r2
  | Grp _ r1 => needs Q r1
  | Rep _ plus p => plus = true /\ forall x, p x = true -> Q x = true
  end.

(** Every captured group is made of characters with [P]. *)
Definition groups_ok (P : cp -> Prop) (g : groups) : Prop :=
  Forall (fun nt => Forall P (snd nt)) g.

(** The literal parts of a template are made of characters with [P]. *)
Definition tpl_ok (P : cp -> Prop) (tpl : list titem) : Prop :=
  Forall (fun i => match i with TLit t => Forall P t | TRef _ => True end) tpl.

(** The class of the one character [c]. *)
Definition is_char (c : cp) : cp -> bool := N.eqb c.

(** The longest prefix of [t] in the class [q], and what is left of [t]
    after it. *)
Fixpoint take_while (q : cp -> bool) (t : text) : text :=
  match t with
  | c :: t' => if q c then c :: take_while q t' else []
  | [] => []
  end.

Fixpoint drop_while (q : cp -> bool) (t : text) : text :=
  match t with
  | c :: t' => if q c then drop_while q t' else t
  | [] => []
  end.

(** The text starts with white space. *)
Definition head_space (t : text) : bool :=
  match t with c :: _ => is_space c | [] => false end.

(** Every white space character is a space that is not followed by white
    space. *)
Fixpoint loose_spaced (t : text) : bool :=
  match t with
  | [] => true
  | c :: t' =>
      ((if is_space c then N.eqb c 32 && negb (head_space t') else true)
       && loose_spaced t')%bool
  end.

(** Single spaces between words and none at either end. *)
Definition tidy (t : text) : Prop :=
  loose_spaced t = true /\ head_space t = false /\ head_space (rev t) = false.

(** The rule that writes one space for every run of the class [q]. *)
Definition squeeze (q : cp -> bool) : option cp -> text -> text :=
  fun prev t => sub_scan (Rep true true q) [TLit [32]] prev 0 t.

(** The unit words in the order the pattern tries them. *)
Definition unit_names : list text :=
  map s2t ["hours"; "hour"; "days"; "day"; "weeks"; "week"; "months";
           "month"; "years"; "year"].

(** [w] stands at the head of [s] and ends at a word boundary. *)
Definition unit_test (s : text) (w : text) : bool :=
  (starts_with w s && negb (word_at (skipn (length w) s)))%bool.

(** The unit word the pattern finds at the head of [s]. *)
Definition unit_at (s : text) : option text := find (unit_test s) unit_names.

(** The match of the units pattern at a position: the digits, the unit word
    and the text after it. *)
Definition units_match (prev : option cp) (s : text)
  : option (text * text * text) :=
  if word_before prev then None
  else
    match take_while is_digit s with
    | [] => None
    | D =>
        let r := lstrip (drop_while is_digit s) in
        match unit_at r with
        | Some w => Some (D, w, skipn (length w) r)
        | None => None
        end
    end.

(** The candidates of an alternation of words, tried in order. *)
Fixpoint try_words (R : Type) (ws : list text) (prev : option cp) (s : text)
  (g : groups) (k : option cp -> text -> groups -> option R) : option R :=
  match ws with
  | [] => None
  | w :: ws' =>
      match (if starts_with w s
             then k (adv prev w) (skipn (length w) s) g else None) with
      | Some r => Some r
      | None => try_words R ws' prev s g k
      end
  end.

(** The letters a unit word can start with. *)
Definition is_unit_initial : cp -> bool := cp_in [104; 100; 119; 109; 121].

(** The continuation at the end of a pattern. *)
Definition accept : option cp -> text -> groups -> option (groups * text) :=
  fun _ s' g => Some (g, s').

(** A number that starts at a word boundary is followed at once by a unit
    word that ends at a word boundary. *)
Definition tight_at (prev : option cp) (s : text) : bool :=
  (negb (word_before prev)
   && match take_while is_digit s with
      | [] => false
      | _ => is_some (unit_at (drop_while is_digit s))
      end)%bool.

(** No position of the text is such a place. *)
Fixpoint tight_free (prev : option cp) (u : text) : bool :=
  match u with
  | [] => true
  | c :: u' => (negb (tight_at prev u) && tight_free (Some c) u')%bool
  end.

(** The units rule, scanning from the middle of a text. *)
Definition units_step (prev : option cp) (t : text) : text :=
  sub_scan re_units [TRef 1; TLit [32]; TRef 2] prev 0 t.

(** The text up to its first white space. *)
Definition cut (s : text) : text := take_while (fun c => negb (is_space c)) s.

(** Positions that cannot start a number at a word boundary. *)
Fixpoint plain (prev : option cp) (a : text) : Prop :=
  match a with
  | [] => True
  | c :: a' =>
      (word_before prev = true \/ is_digit c = false) /\ plain (Some c) a'
  end.

(** The three characters a pass can leave behind although its rules act
    on them: the asterisk, the underscore and the bullet. *)
Definition is_marker : cp -> bool := cp_in [42; 95; 8226].

(** The characters no normalised text holds: the two stripped classes, the
    slash, the hyphen and every white space character but the space. *)
Definition is_stripped (c : cp) : bool :=
  (is_symbol c || is_punct c || is_char 47 c || is_char 45 c
   || (is_space c && negb (N.eqb c 32)))%bool.

(** The text after the rules for markup, lists and labels. *)
Definition markup_steps (text0 : text) : text :=
  let t := re_sub re_bold [TRef 1] text0 in
  let t := re_sub re_italic [TRef 1] t in
  let t := re_sub re_underline [TRef 1] t in
  let t := re_sub re_code [TRef 1] t in
  let t := re_sub re_next_item [TLit (s2t ". Next, ")] t in
  let t := re_sub re_first_item [TLit (s2t "First, ")] t in
  let t := re_sub re_bullet_line [] t in
  let t := re_sub re_bullet_next [TLit (s2t ". Also, ")] t in
  let t := re_sub (re_label "note") [TLit (s2t "Please note that ")] t in
  let t := re_sub (re_label "important") [TLit (s2t "This is important: ")] t in
  re_sub (re_label "remember") [TLit (s2t "Remember that ")] t.

(** The text after the rules for symbols, slashes and hyphens. *)
Definition symbol_steps (t : text) : text :=
  let t := re_sub (Cls is_symbol) [] t in
  let t := re_sub (Cls is_punct) [] t in
  let t := re_sub re_slash_spaced [TLit (s2t " or ")] t in
  let t := re_sub re_slash [TLit (s2t " or ")] t in
  re_sub re_hyphen [TLit (s2t " ")] t.

(** The text the percent rule is applied to. *)
Definition before_percent (text0 : text) : text :=
  re_sub re_units [TRef 1; TLit (s2t " "); TRef 2]
    (symbol_steps (markup_steps text0)).

(** The percent rule. *)
Definition percent_step (t : text) : text :=
  re_sub re_percent [TRef 1; TLit (s2t " percent")] t.

(** The text after the rules for line breaks and white space and the
    final [strip]. *)
Definition space_steps (t : text) : text :=
  strip (re_sub re_whitespace [TLit (s2t " ")]
           (re_sub re_newlines [TLit (s2t " ")] t)).

(** No character of [t] is in the class [Q]. *)
Definition lacks (Q : cp -> bool) (t : text) : Prop :=
  Forall (fun c => Q c = false) t.

(** The union of two classes. *)
Definition either (Qa Qb : cp -> bool) : cp -> bool :=
  fun c => (Qa c || Qb c)%bool.

(** The classes that are out after each rule. *)
Definition out2 : cp -> bool := either is_symbol is_punct.
Definition out3 : cp -> bool := either out2 (is_char 47).
Definition out4 : cp -> bool := either out3 (is_char 45).
Definition out5 : cp -> bool :=
  either out4 (fun c => (is_space c && negb (N.eqb c 32))%bool).

(** The patterns the normaliser hands to [re.sub], in order. *)
Definition sub_patterns : list regex :=
  [re_bold; re_italic; re_underline; re_code; re_next_item; re_first_item;
   re_bullet_line; re_bullet_next; re_label "note"; re_label "important";
   re_label "remember"; Cls is_symbol; Cls is_punct; re_slash_spaced;
   re_slash; re_hyphen; re_units; re_percent; re_newlines; re_whitespace].

(** Every match of [r] reads at least one character. *)
Definition never_empty (r : regex) : Prop :=
  forall prev s g rest,
  match_here r prev s = Some (g, rest) -> (length rest < length s)%nat.

(** The number of characters of the class [Q] in a text. *)
Definition count (Q : cp -> bool) (t : text) : nat := length (filter Q t).

(** A number of characters of [Q] that every match of [r] reads. *)
Fixpoint min_reads (Q : cp -> bool) (r : regex) : nat :=
  match r with
  | Chr c => if Q c then 1 else 0
  | Cat r1 r2 => min_reads Q r1 + min_reads Q r2
  | Alt r1 r2 => Nat.min (min_reads Q r1) (min_reads Q r2)
  | Grp _ r1 => min_reads Q r1
  | _ => 0
  end.

(** Every group was captured inside [pre]. *)
Definition groups_in (pre : text) (g : groups) : Prop :=
  forall n t, In (n, t) g -> occurs t pre.

(** The number of back-references of a template. *)
Fixpoint refs (tpl : list titem) : nat :=
  match tpl with
  | [] => 0
  | TLit _ :: tpl' => refs tpl'
  | TRef _ :: tpl' => S (refs tpl')
  end.

(** A pattern whose every match starts with a character of [Q]. *)
Definition head_needs (Q : cp -> bool) (r : regex) : Prop :=
  forall prev c s, Q c = false -> match_here r prev (c :: s) = None.

(** [d(.*?)d] for a single character [d]: the italic pattern is
    [delimited 42] and the underline pattern [delimited 95]. *)
Definition delimited (d : cp) : regex :=
  re_seq [re_seq [Chr d]; Grp 1 any_lazy; re_seq [Chr d]].

(** The rules of the normaliser, in the order it applies them. *)
Definition rules : list (text -> text) :=
  [re_sub re_bold [TRef 1];
   re_sub re_italic [TRef 1];
   re_sub re_underline [TRef 1];
   re_sub re_code [TRef 1];
   re_sub re_next_item [TLit (s2t ". Next, ")];
   re_sub re_first_item [TLit (s2t "First, ")];
   re_sub re_bullet_line [];
   re_sub re_bullet_next [TLit (s2t ". Also, ")];
   re_sub (re_label "note") [TLit (s2t "Please note that ")];
   re_sub (re_label "important") [TLit (s2t "This is important: ")];
   re_sub (re_label "remember") [TLit (s2t "Remember that ")];
   re_sub (Cls is_symbol) [];
   re_sub (Cls is_punct) [];
   re_sub re_slash_spaced [TLit (s2t " or ")];
   re_sub re_slash [TLit (s2t " or ")];
   re_sub re_hyphen [TLit (s2t " ")];
   re_sub re_units [TRef 1; TLit (s2t " "); TRef 2];
   re_sub re_percent [TRef 1; TLit (s2t " percent")];
   re_sub re_newlines [TLit (s2t " ")];
   re_sub re_whitespace [TLit (s2t " ")];
   strip].

(** The rules [fs] applied one after the other. *)
Definition run (fs : list (text -> text)) (t : text) : text :=
  fold_left (fun u f => f u) fs t.

(** [f] never adds a character of [Q]. *)
Definition keeps_count (Q : cp -> bool) (f : text -> text) : Prop :=
  forall t, (count Q (f t) <= count Q t)%nat.

(** The text begins with an asterisk or a bullet. *)
Definition starts_marked (y : text) : bool :=
  match y with
  | c :: _ => (is_char 42 c || is_char 8226 c)%bool
  | [] => false
  end.

(** At most one asterisk, at most one underscore, and neither an asterisk
    nor a bullet in front. *)
Definition mild (y : text) : bool :=
  (Nat.leb (count (is_char 42) y) 1 && Nat.leb (count (is_char 95) y) 1
   && negb (starts_marked y))%bool.

(** The sentence of the specification's example. *)
Definition fees_note : text := s2t "**Note:** Fees are 10%".

(** Two underscores on two lines, and a bullet behind a dash. *)
Definition two_underscores : text := [95; 10; 95].
Definition dash_then_bullet : text := s2t "- * a".

(** The families of casual talk in the order the router tries them. *)
Definition families : list (casual * regex) :=
  [(Greeting, re_greeting); (StatusCheck, re_status); (Gratitude, re_thanks);
   (Farewell, re_bye); (Capability, re_capability)].

(** The first family, in that order, with a match in the lowered query;
    [None] stands for a knowledge query. *)
Definition first_matching_family (user_query : text) : option casual :=
  option_map fst
    (find (fun f => re_search (snd f) (lower user_query)) families).

(** The branch [answer_with_rag] takes. *)
Definition route (user_query : text) : option casual :=
  if is_casual user_query then Some (casual_branch user_query) else None.

End Notions.

(** ** Notions for the other properties *)

(** The phrases the normaliser writes in place of what it matches. *)
Definition spoken_phrases : list text :=
  [s2t ". Next, "; s2t "First, "; s2t ". Also, "; s2t "Please note that ";
   s2t "This is important: "; s2t "Remember that "; s2t " or "; s2t " ";
   s2t " percent"].

(** A text of white space only. *)
Definition blank (t : text) : Prop := Forall (fun c => is_space c = true) t.

Section MoreNotions.
Context {U : UnicodeData}.

(** [d(.*?)d] for a delimiter [d]: the shape of the four markup
    patterns, with two asterisks, one asterisk, the underscore and the
    backtick for [d]. *)
Definition marked (d : string) : regex :=
  re_seq [lit d; Grp 1 any_lazy; lit d].

(** The text [w] between two delimiters. *)
Definition wrapped (d : string) (w : text) : text := s2t d ++ w ++ s2t d.

End MoreNotions.

(** A thread that has not yet passed the construction. *)
Definition pending (t : pc) : nat :=
  match t with
  | AtTest | AtConstruct => 1
  | _ => 0
  end.

Definition pending_all (ts : list pc) : nat :=
  fold_right (fun t n => (pending t + n)%nat) 0%nat ts.

Section RouterNotions.
Context {U : UnicodeData}.

(** The phrases of the first casual pattern, and those of all four. *)
Definition greeting_phrases : list string :=
  ["hi"; "hello"; "hey"; "good morning"; "good afternoon"; "good evening"].

Definition casual_phrases : list string :=
  greeting_phrases
  ++ ["how are you"; "what's up"; "how's it going"]
  ++ ["thank you"; "thanks"; "bye"; "goodbye"]
  ++ ["what can you do"; "help me"; "what do you know"].

(** A phrase that starts and ends with a word character. *)
Definition wordy (x : string) : bool :=
  (word_at (s2t x) && word_before (adv None (s2t x)))%bool.

Definition is_reply (ev : agent_event) : bool :=
  match ev with Replied _ => true | AskedRag _ => false end.

End RouterNotions.

Section EngineNotions.
Context {U : UnicodeData}.
Variables document chunk : Type.
Variable index_nodes : list document -> list chunk.
Variable run_query : list chunk -> text -> outcome text.

(** The agent on top of the engine in the state [p]: retrieval is
    [get_rag_answer_async], and [say] is [session.generate_reply]. *)
Definition engine_backed (p : process document chunk)
  (say : text -> option exn) : agent_world :=
  {| rag_async := fun q =>
       fst (get_rag_answer_async index_nodes run_query q p);
     generate_reply := say |}.

(** The apology of the engine as the normaliser leaves it. *)
Definition spoken_apology : text :=
  s2t "Sorry I could not retrieve the answer right now".

(** The log of a construction that ingests [documents]. *)
Definition ingestion_log (documents : list document) : list event :=
  [Logged INFO MsgInitializing; Logged INFO MsgNoExistingData; ReadDataDir;
   Logged INFO (MsgLoadedDocuments (length documents));
   Logged INFO MsgProcessing;
   WroteNodes (length (index_nodes documents)); Persisted;
   Logged INFO (MsgIngested (length documents)); Logged INFO MsgReady].

(** What a query gives for each outcome of the query engine. *)
Definition answer_of (o : outcome text) : outcome text :=
  match o with
  | Ret a => Ret a
  | Raise e =>
      if is_Exception (exn_class e) then Ret could_not_retrieve else Raise e
  end.

End EngineNotions.

Section StartNotions.

(** The other credential is missing: the variable is unset or empty. *)
Definition cartesia_key_missing (w : startup) : Prop :=
  getenv w (s2t "CARTESIA_API_KEY") = None
  \/ getenv w (s2t "CARTESIA_API_KEY") = Some [].

Definition cartesia_key_error : exn :=
  {| exn_class := ValueError;
     exn_msg := s2t "CARTESIA_API_KEY not found in environment variables" |}.

(** The value of an environment variable, empty when it is unset. *)
Definition key_of (w : startup) (name : string) : text :=
  match getenv w (s2t name) with Some k => k | None => [] end.

(** The steps of a start that goes through, in their order. *)
Definition startup_steps (w : startup) : list startup_event :=
  [InitializedRag; CreatedSTT; CreatedLLM (key_of w "GROQ_API_KEY");
   CreatedTTS (key_of w "CARTESIA_API_KEY"); LoadedVAD; StartedSession;
   SentGreeting initial_greeting; RegisteredHandler].

(** The line [entrypoint] logs for the error it raises again. *)
Definition logged_error (r : outcome unit) : list startup_event :=
  match r with
  | Ret _ => []
  | Raise e => if is_Exception (exn_class e) then [LoggedStartupError e] else []
  end.

(** Both keys are set and no step fails. *)
Definition all_ready (w : startup) : Prop :=
  rag_engine_ready w = None /\ stt_ready w = None
  /\ key_of w "GROQ_API_KEY" <> []
  /\ llm_ready w (key_of w "GROQ_API_KEY") = None
  /\ key_of w "CARTESIA_API_KEY" <> []
  /\ tts_ready w (key_of w "CARTESIA_API_KEY") = None
  /\ vad_ready w = None /\ session_ready w = None
  /\ greeting_ready w = None.

End StartNotions.

Section PatchNotions.

(** The keys of a dictionary, in its order. *)
Definition keys (d : kwargs) : list text := map fst d.

(** A value that is not Python's [None]. *)
Definition is_given (v : pyvalue) : bool :=
  match v with PyNone => false | _ => true end.

End PatchNotions.

(** ** Concrete worlds *)

(** A world with an empty collection and no data folder; below, a document
    is stored as one node and the query engine answers with the text of the
    nodes it is given. *)
Definition bare_world : world text text :=
  {| collection := []; data_dir := None; embedding := Ret tt;
     indexing := None; persisting := None |}.

Definition stocked_world : world text text :=
  {| collection := [s2t "Minimum attendance required is 75 percent"];
     data_dir := Some (Ret [s2t "handbook"]);
     embedding := Ret tt; indexing := None; persisting := None |}.

Definition start_of (w : world text text) : process text text :=
  {| disk := w; trace := []; rag_engine_global := None; created := 0 |}.

Definition one_node_each (documents : list text) : list text := documents.

Definition answering (nodes : list text) (query : text) : outcome text :=
  Ret (concat nodes).

Definition interrupted : exn :=
  {| exn_class := KeyboardInterrupt; exn_msg := [] |}.

Definition unreachable : exn :=
  {| exn_class := RuntimeError; exn_msg := s2t "connection refused" |}.

Definition an_engine : engine :=
  {| engine_id := 0; engine_index := EmptyIndex |}.


(** A store that is still empty beside a data folder with one document. *)
Definition fresh_world : world text text :=
  {| collection := [];
     data_dir := Some (Ret [s2t "Minimum attendance required is 75 percent"]);
     embedding := Ret tt; indexing := None; persisting := None |}.



(** A machine on which the embedding model cannot be loaded. *)
Definition broken_world : world text text :=
  {| collection := []; data_dir := None; embedding := Raise unreachable;
     indexing := None; persisting := None |}.

(** An environment that holds the first key only. *)
Definition only_groq_key : startup :=
  {| getenv := fun name =>
       if text_eqb name (s2t "GROQ_API_KEY") then Some (s2t "gsk") else None;
     rag_engine_ready := None; stt_ready := None;
     llm_ready := fun _ => None; tts_ready := fun _ => None;
     vad_ready := None; session_ready := None; greeting_ready := None |}.

(** A session that delivers every reply, beside an engine out of reach. *)
Definition cut_off : agent_world :=
  {| rag_async := fun _ => Raise unreachable;
     generate_reply := fun _ => None |}.

(** A session that is closed, beside an engine out of reach: every reply
    raises. *)
Definition session_closed : exn :=
  {| exn_class := RuntimeError; exn_msg := s2t "session closed" |}.

Definition closed_session : agent_world :=
  {| rag_async := fun _ => Raise unreachable;
     generate_reply := fun _ => Some session_closed |}.

(** Keyword arguments with a proxy and the caller's own [trust_env]. *)
Definition proxied_kwargs : kwargs :=
  [(s2t "timeout", PyObject 1);
   (s2t "proxy", PyStr (s2t "http://10.0.0.1:3128"));
   (s2t "trust_env", PyBool false)].

(** * Properties *)

Ltac by_ranges :=
  repeat match goal with
         | H : (_ && _)%bool = true |- _ => apply andb_true_iff in H as [? ?]
         | H : (_ || _)%bool = false |- _ => apply orb_false_iff in H as [? ?]
         | H : negb _ = true |- _ => apply negb_true_iff in H
         | H : negb _ = false |- _ => apply negb_false_iff in H
         | H : N.leb _ _ = true |- _ => apply N.leb_le in H
         | H : N.leb _ _ = false |- _ => apply N.leb_gt in H
         | H : N.ltb _ _ = true |- _ => apply N.ltb_lt in H
         | H : N.ltb _ _ = false |- _ => apply N.ltb_ge in H
         | H : N.eqb _ _ = true |- _ => apply N.eqb_eq in H
         | H : N.eqb _ _ = false |- _ => apply N.eqb_neq in H
         end;
  repeat match goal with
         | |- context [N.leb ?a ?b] =>
             destruct (N.leb_spec a b); try lia; cbn [andb orb negb]
         | |- context [N.eqb ?a ?b] =>
             destruct (N.eqb_spec a b); try lia; cbn [andb orb negb]
         | |- context [N.ltb ?a ?b] =>
             destruct (N.ltb_spec a b); try lia; cbn [andb orb negb]
         end;
  try reflexivity; try discriminate; try lia.

(** ** The router and the confidence test *)

Section RouterFacts.
Context {U : UnicodeData}.

Lemma starts_with_spec (p t : text) :
  starts_with p t = true <-> exists post, t = p ++ post.
Proof.
  revert t. induction p as [|a p IH]; intro t; simpl.
  - split; [intros _; now exists t|reflexivity].
  - destruct t as [|b t].
    + split; [discriminate|intros [post H]; discriminate].
    + rewrite andb_true_iff, N.eqb_eq, IH. split.
      * intros [-> [post ->]]. now exists post.
      * intros [post H]. injection H as -> ->. split; [reflexivity|].
        now exists post.
Qed.

Lemma contains_spec (needle hay : text) :
  contains needle hay = true <-> occurs needle hay.
Proof.
  unfold occurs. induction hay as [|c hay IH]; simpl.
  - rewrite orb_false_r, starts_with_spec. split.
    + intros [post H]. now exists [], post.
    + intros (pre & post & H). destruct pre as [|x pre]; [|discriminate].
      now exists post.
  - rewrite orb_true_iff, starts_with_spec, IH. split.
    + intros [[post H]|(pre & post & H)].
      * now exists [], post.
      * exists (c :: pre), post. now rewrite H.
    + intros (pre & post & H). destruct pre as [|x pre].
      * left. now exists post.
      * right. injection H as _ H. now exists pre, post.
Qed.

Lemma prompts_differ (user_query clean_answer : text) :
  redirect_prompt user_query <> direct_prompt user_query clean_answer.
Proof.
  unfold redirect_prompt, direct_prompt, line. simpl. discriminate.
Qed.

Lemma rag_found_nothing_spec (rag_answer : text) :
  rag_found_nothing rag_answer = true <->
  (length (strip (clean_response_for_speech rag_answer)) < 15)%nat
  \/ occurs (s2t "don't know") (lower rag_answer)
  \/ occurs (s2t "cannot") (lower rag_answer).
Proof.
  unfold rag_found_nothing.
  rewrite !orb_true_iff, !contains_spec, Nat.ltb_lt. tauto.
Qed.

(** C3: on the knowledge path the redirecting prompt is chosen exactly
    when the trimmed normalised answer is shorter than 15 characters or the
    lowered raw answer contains don't know or cannot; otherwise the prompt
    that presents the normalised answer is chosen; the chosen prompt is what
    the session is asked to say after the engine was asked; and the answer
    I don't know the policy. gets the redirecting prompt. *)
Theorem low_confidence_rule (user_query rag_answer : text) :
  let low :=
    (length (strip (clean_response_for_speech rag_answer)) < 15)%nat
    \/ occurs (s2t "don't know") (lower rag_answer)
    \/ occurs (s2t "cannot") (lower rag_answer) in
  (knowledge_prompt user_query rag_answer = redirect_prompt user_query
   <-> low)
  /\ (knowledge_prompt user_query rag_answer
      = direct_prompt user_query (clean_response_for_speech rag_answer)
      <-> ~ low)
  /\ (forall w, is_casual user_query = false ->
                rag_async w user_query = Ret rag_answer ->
                exists rest,
                  fst (answer_with_rag w user_query)
                  = AskedRag user_query
                    :: Replied (knowledge_prompt user_query rag_answer)
                    :: rest)
  /\ knowledge_prompt user_query (s2t "I don't know the policy.")
     = redirect_prompt user_query.
Proof.
  intro low. subst low. rewrite <- rag_found_nothing_spec.
  unfold knowledge_prompt.
  split; [|split; [|split]].
  - destruct (rag_found_nothing rag_answer).
    + split; reflexivity.
    + split; [|discriminate]. intro H. symmetry in H.
      now apply prompts_differ in H.
  - destruct (rag_found_nothing rag_answer).
    + split; [|intro H; now elim H]. intro H. now apply prompts_differ in H.
    + split; [discriminate|reflexivity].
  - intros w Hc Hr. unfold answer_with_rag, answer_body, reply.
    rewrite Hc, Hr. fold (knowledge_prompt user_query rag_answer).
    destruct (generate_reply w (knowledge_prompt user_query rag_answer))
      as [e|]; simpl.
    + destruct (is_Exception (exn_class e)).
      * destruct (generate_reply w fallback_instructions); simpl;
          eexists; reflexivity.
      * eexists; reflexivity.
    + eexists; reflexivity.
  - replace (rag_found_nothing (s2t "I don't know the policy.")) with true;
      [reflexivity|].
    unfold rag_found_nothing. symmetry. apply orb_true_iff. left.
    apply orb_true_iff. left. vm_compute. reflexivity.
Qed.

(** *** First match wins *)

Lemma is_some_alts (R : Type) (rs : list regex) :
  forall (r : regex) prev s g (k : option cp -> text -> groups -> option R),
  is_some (rmatch (alts r rs) prev s g k)
  = (is_some (rmatch r prev s g k)
     || existsb (fun r' => is_some (rmatch r' prev s g k)) rs)%bool.
Proof.
  unfold alts. induction rs as [|r1 rs IH]; intros r prev s g k; simpl.
  - now rewrite orb_false_r.
  - rewrite IH. simpl.
    destruct (rmatch r prev s g k); simpl; [reflexivity|].
    reflexivity.
Qed.

Lemma existsb_map (A B : Type) (f : B -> bool) (g : A -> B) (l : list A) :
  existsb f (map g l) = existsb (fun x => f (g x)) l.
Proof.
  induction l; simpl; congruence.
Qed.

(** A pattern of several words matches where one of its words does. *)
Lemma match_words (w : string) (ws : list string) prev s :
  is_some (match_here (re_words w ws) prev s)
  = existsb (fun x => is_some (match_here (re_words x []) prev s)) (w :: ws).
Proof.
  unfold match_here, re_words, re_seq. simpl fold_right.
  cbn [rmatch].
  destruct (xorb (word_before prev) (word_at s)).
  - rewrite is_some_alts. cbn [existsb]. f_equal.
    rewrite existsb_map. reflexivity.
  - cbn. symmetry. clear. induction ws; simpl; auto.
Qed.

Lemma search_from_unfold (r : regex) prev t :
  search_from r prev t
  = (is_some (match_here r prev t)
     || match t with
        | c :: t' => search_from r (Some c) t'
        | [] => false
        end)%bool.
Proof.
  destruct t; simpl; destruct (match_here r prev _); reflexivity.
Qed.

Lemma existsb_orb (A : Type) (f g : A -> bool) (l : list A) :
  existsb (fun x => f x || g x)%bool l = (existsb f l || existsb g l)%bool.
Proof.
  induction l as [|a l IH]; simpl; [reflexivity|].
  rewrite IH. destruct (f a), (g a), (existsb f l); reflexivity.
Qed.

Lemma existsb_same (A : Type) (f g : A -> bool) (l : list A) :
  (forall x, f x = g x) -> existsb f l = existsb g l.
Proof.
  intro H. induction l as [|a l IH]; simpl; [reflexivity|].
  now rewrite H, IH.
Qed.

Lemma search_words (w : string) (ws : list string) (t : text) :
  forall prev,
  search_from (re_words w ws) prev t
  = existsb (fun x => search_from (re_words x []) prev t) (w :: ws).
Proof.
  induction t as [|c t IH]; intro prev.
  - rewrite search_from_unfold, match_words, orb_false_r.
    apply existsb_same. intro x.
    now rewrite search_from_unfold, orb_false_r.
  - rewrite search_from_unfold, match_words, IH, <- existsb_orb.
    apply existsb_same. intro x.
    now rewrite (search_from_unfold (re_words x []) prev (c :: t)).
Qed.

Lemma thanks_or_bye (t : text) :
  re_search re_thanks_bye t
  = (re_search re_thanks t || re_search re_bye t)%bool.
Proof.
  unfold re_search, re_thanks_bye, re_thanks, re_bye.
  rewrite !search_words. simpl.
  rewrite !orb_false_r, orb_assoc. reflexivity.
Qed.

Lemma route_first_match (user_query : text) :
  route user_query = first_matching_family user_query.
Proof.
  unfold route, first_matching_family, is_casual, casual_branch,
    casual_patterns, families.
  simpl. rewrite thanks_or_bye.
  destruct (re_search re_greeting (lower user_query)); [reflexivity|].
  destruct (re_search re_status (lower user_query)); [reflexivity|].
  destruct (re_search re_thanks (lower user_query)); [reflexivity|].
  destruct (re_search re_bye (lower user_query)); [reflexivity|].
  destruct (re_search re_capability (lower user_query)); reflexivity.
Qed.

(** C4: the branch taken for a query is that of the first family, in the
    order greeting, status check, gratitude, farewell, capability, whose
    pattern has a match in the lowered query, and the retrieval engine is
    asked exactly when no family matches; hey there is a greeting and
    what is the library timing is a knowledge query. *)
Theorem router_first_match_wins (user_query : text) :
  route user_query = first_matching_family user_query
  /\ (forall w c, first_matching_family user_query = Some c ->
        exists rest,
          fst (answer_with_rag w user_query)
          = Replied (casual_prompt c) :: rest
          /\ ~ In (AskedRag user_query) (fst (answer_with_rag w user_query)))
  /\ (forall w, first_matching_family user_query = None ->
        exists rest,
          fst (answer_with_rag w user_query) = AskedRag user_query :: rest)
  /\ first_matching_family (s2t "hey there") = Some Greeting
  /\ first_matching_family (s2t "what is the library timing") = None.
Proof.
  split; [apply route_first_match|].
  rewrite <- route_first_match. unfold route.
  split; [|split; [|split]].
  - intros w c Hc. unfold answer_with_rag, answer_body, reply.
    destruct (is_casual user_query); [|discriminate].
    injection Hc as <-.
    destruct (generate_reply w (casual_prompt (casual_branch user_query)))
      as [e|]; simpl.
    + destruct (is_Exception (exn_class e)); simpl.
      * destruct (generate_reply w fallback_instructions); simpl;
          (eexists; split; [reflexivity|]);
          intros [H|[H|[]]]; discriminate.
      * eexists; split; [reflexivity|]. intros [H|[]]; discriminate.
    + eexists; split; [reflexivity|]. intros [H|[]]; discriminate.
  - intros w Hc. unfold answer_with_rag, answer_body, reply.
    destruct (is_casual user_query); [discriminate|].
    destruct (rag_async w user_query) as [a|e]; simpl.
    + destruct (generate_reply w (knowledge_prompt user_query a))
        as [e|]; simpl.
      * destruct (is_Exception (exn_class e)); simpl.
        -- destruct (generate_reply w fallback_instructions); simpl;
             eexists; reflexivity.
        -- eexists; reflexivity.
      * eexists; reflexivity.
    + destruct (is_Exception (exn_class e)); simpl.
      * destruct (generate_reply w fallback_instructions); simpl;
          eexists; reflexivity.
      * eexists; reflexivity.
  - vm_compute. reflexivity.
  - vm_compute. reflexivity.
Qed.

End RouterFacts.

(** ** The matcher *)

Section MatcherFacts.
Context {U : UnicodeData}.

Lemma adv_app prev a b : adv prev (a ++ b) = adv (adv prev a) b.
Proof.
  revert prev. induction a as [|c a IH]; intro prev; simpl; auto.
Qed.

Lemma adv_last prev a c : adv prev (a ++ [c]) = Some c.
Proof.
  now rewrite adv_app.
Qed.

Lemma rep_greedy_inv (R : Type) (p : cp -> bool) (k : kont R) s :
  forall prev res,
  rep_greedy p k prev s = Some res ->
  exists pre s', s = pre ++ s' /\ forallb p pre = true
                 /\ k (adv prev pre) s' = Some res.
Proof.
  induction s as [|c s IH]; intros prev res H; simpl in H.
  - now exists [], [].
  - destruct (p c) eqn:Hp.
    + destruct (rep_greedy p k (Some c) s) as [r|] eqn:Hr.
      * injection H as <-. apply IH in Hr as (pre & s' & -> & Hall & Hk).
        exists (c :: pre), s'. simpl. now rewrite Hp.
      * now exists [], (c :: s).
    + now exists [], (c :: s).
Qed.

Lemma rep_lazy_inv (R : Type) (p : cp -> bool) (k : kont R) s :
  forall prev res,
  rep_lazy p k prev s = Some res ->
  exists pre s', s = pre ++ s' /\ forallb p pre = true
                 /\ k (adv prev pre) s' = Some res.
Proof.
  induction s as [|c s IH]; intros prev res H; simpl in H.
  - destruct (k prev []) eqn:Hk; [|discriminate].
    injection H as <-. now exists [], [].
  - destruct (k prev (c :: s)) eqn:Hk.
    + injection H as <-. now exists [], (c :: s).
    + destruct (p c) eqn:Hp; [|discriminate].
      apply IH in H as (pre & s' & -> & Hall & Hk').
      exists (c :: pre), s'. simpl. now rewrite Hp.
Qed.

Lemma Forall_app_r (P : cp -> Prop) (a b : text) :
  Forall P (a ++ b) -> Forall P b.
Proof.
  intro H. now apply Forall_app in H.
Qed.

Lemma Forall_firstn (P : cp -> Prop) (n : nat) (t : text) :
  Forall P t -> Forall P (firstn n t).
Proof.
  intro H. revert n. induction H; intros [|n]; simpl; auto.
Qed.

(** What a successful match tells: the text splits into what was read and
    what the continuation got. *)
Lemma rmatch_inv (R : Type) (r : regex) :
  forall prev s g (k : option cp -> text -> groups -> option R) res,
  rmatch r prev s g k = Some res ->
  exists pre s' g',
    s = pre ++ s'
    /\ k (adv prev pre) s' g' = Some res
    /\ (forall P, Forall P s -> groups_ok P g -> groups_ok P g')
    /\ (forall Q, needs Q r -> existsb Q pre = true).
Proof.
  induction r as [|c|p|ml| |r1 IH1 r2 IH2|r1 IH1 r2 IH2|n r1 IH1|greedy plus p];
    intros prev s g k res H; simpl in H.
  - exists [], s, g. simpl. repeat split; auto; intros Q [].
  - destruct s as [|x s]; [discriminate|].
    destruct (N.eqb x c) eqn:Hx; [|discriminate].
    apply N.eqb_eq in Hx. subst x.
    exists [c], s, g. simpl. repeat split; auto.
    intros Q HQ. now rewrite HQ.
  - destruct s as [|x s]; [discriminate|].
    destruct (p x) eqn:Hx; [|discriminate].
    exists [x], s, g. simpl. repeat split; auto.
    intros Q HQ. now rewrite (HQ x Hx).
  - destruct (at_line_start ml prev); [|discriminate].
    exists [], s, g. simpl. repeat split; auto; intros Q [].
  - destruct (xorb (word_before prev) (word_at s)); [|discriminate].
    exists [], s, g. simpl. repeat split; auto; intros Q [].
  - apply IH1 in H as (pre1 & s1 & g1 & -> & H & Hg1 & Hn1).
    apply IH2 in H as (pre2 & s2 & g2 & -> & H & Hg2 & Hn2).
    exists (pre1 ++ pre2), s2, g2.
    rewrite <- app_assoc, adv_app. repeat split; auto.
    + intros P HP Hg. apply Hg2; [now apply Forall_app_r in HP|].
      now apply Hg1.
    + intros Q [HQ|HQ]; rewrite existsb_app.
      * now rewrite (Hn1 Q HQ).
      * rewrite (Hn2 Q HQ). apply orb_true_r.
  - destruct (rmatch r1 prev s g k) as [x|] eqn:H1.
    + injection H as <-.
      apply IH1 in H1 as (pre & s' & g' & -> & H & Hg & Hn).
      exists pre, s', g'. repeat split; auto.
      intros Q [HQ _]. now apply Hn.
    + apply IH2 in H as (pre & s' & g' & -> & H & Hg & Hn).
      exists pre, s', g'. repeat split; auto.
      intros Q [_ HQ]. now apply Hn.
  - apply IH1 in H as (pre & s' & g' & -> & H & Hg & Hn).
    eexists pre, s', _. repeat split; eauto.
    intros P HP Hg0. constructor; [|now apply Hg].
    simpl. now apply Forall_firstn.
  - destruct plus.
    + destruct s as [|x s]; [discriminate|].
      destruct (p x) eqn:Hx; [|discriminate].
      assert (exists pre s', s = pre ++ s' /\ forallb p pre = true
                             /\ k (adv (Some x) pre) s' g = Some res)
        as (pre & s' & -> & Hall & Hk).
      { destruct greedy; [apply rep_greedy_inv in H|apply rep_lazy_inv in H];
          exact H. }
      exists (x :: pre), s', g. simpl. repeat split; auto.
      intros Q [_ HQ]. now rewrite (HQ x Hx).
    + assert (exists pre s', s = pre ++ s' /\ forallb p pre = true
                             /\ k (adv prev pre) s' g = Some res)
        as (pre & s' & -> & Hall & Hk).
      { destruct greedy; [apply rep_greedy_inv in H|apply rep_lazy_inv in H];
          exact H. }
      exists pre, s', g. repeat split; auto.
      intros Q [HQ _]. discriminate.
Qed.

Lemma match_here_inv (r : regex) prev s g rest :
  match_here r prev s = Some (g, rest) ->
  exists pre,
    s = pre ++ rest
    /\ (forall P, Forall P s -> groups_ok P g)
    /\ (forall Q, needs Q r -> existsb Q pre = true).
Proof.
  unfold match_here. intro H.
  apply rmatch_inv in H as (pre & s' & g' & -> & H & Hg & Hn).
  injection H as <- <-. exists pre. repeat split; auto.
  intros P HP. apply Hg; [exact HP|constructor].
Qed.

(** A pattern that needs a character the text does not have matches
    nowhere in it. *)
Lemma match_here_needs (Q : cp -> bool) (r : regex) prev s :
  needs Q r -> Forall (fun c => Q c = false) s -> match_here r prev s = None.
Proof.
  intros Hn Hs.
  destruct (match_here r prev s) as [[g rest]|] eqn:H; [|reflexivity].
  apply match_here_inv in H as (pre & -> & _ & Hq).
  specialize (Hq Q Hn). apply existsb_exists in Hq as (c & Hin & Hc).
  apply Forall_app in Hs as [Hs _].
  rewrite Forall_forall in Hs. rewrite (Hs c Hin) in Hc. discriminate.
Qed.

(** *** The scan of [re.sub] *)

Lemma sub_scan_nil r tpl prev n : sub_scan r tpl prev n [] = [].
Proof.
  reflexivity.
Qed.

Lemma sub_scan_skip r tpl (t : text) :
  forall prev n,
  sub_scan r tpl prev n t
  = sub_scan r tpl (adv prev (firstn n t)) 0 (skipn n t).
Proof.
  induction t as [|c t IH]; intros prev n.
  - now rewrite firstn_nil, skipn_nil.
  - destruct n as [|n]; [reflexivity|]. simpl. apply IH.
Qed.

Lemma sub_scan_nomatch r tpl prev c t :
  match_here r prev (c :: t) = None ->
  sub_scan r tpl prev 0 (c :: t) = c :: sub_scan r tpl (Some c) 0 t.
Proof.
  intro H. simpl. simpl in H. now rewrite H.
Qed.

Lemma sub_scan_match r tpl prev pre rest g :
  match_here r prev (pre ++ rest) = Some (g, rest) ->
  pre <> [] ->
  sub_scan r tpl prev 0 (pre ++ rest)
  = expand tpl g ++ sub_scan r tpl (adv prev pre) 0 rest.
Proof.
  intros H Hne. destruct pre as [|c pre]; [congruence|].
  cbn [app sub_scan]. cbn [app] in H. rewrite H.
  replace (length (c :: pre ++ rest) - length rest)%nat with (S (length pre)).
  2:{ cbn [length]. rewrite length_app. lia. }
  rewrite sub_scan_skip. f_equal.
  rewrite firstn_app, Nat.sub_diag, firstn_all, firstn_O, app_nil_r.
  rewrite skipn_app, Nat.sub_diag, skipn_all, skipn_O. reflexivity.
Qed.

End MatcherFacts.

(** ** What [re.sub] keeps and removes *)

Section ScanFacts.
Context {U : UnicodeData}.

(** A pattern that needs a character the text lacks leaves it alone. *)
Lemma sub_scan_needs_id (Q : cp -> bool) r tpl (t : text) :
  needs Q r -> Forall (fun c => Q c = false) t ->
  forall prev, sub_scan r tpl prev 0 t = t.
Proof.
  intros Hn Ht. induction Ht as [|c t Hc Ht IH]; intro prev.
  - reflexivity.
  - rewrite sub_scan_nomatch; [now rewrite IH|].
    apply (match_here_needs Q); [exact Hn|]. now constructor.
Qed.

Lemma re_sub_needs_id (Q : cp -> bool) r tpl (t : text) :
  needs Q r -> Forall (fun c => Q c = false) t -> re_sub r tpl t = t.
Proof.
  intros Hn Ht. now apply (sub_scan_needs_id Q).
Qed.

Lemma group_ok (P : cp -> Prop) n g : groups_ok P g -> Forall P (group n g).
Proof.
  induction 1 as [|[m t] g Ht _ IH]; simpl; [constructor|].
  destruct (Nat.eqb m n); assumption.
Qed.

Lemma expand_ok (P : cp -> Prop) tpl g :
  tpl_ok P tpl -> groups_ok P g -> Forall P (expand tpl g).
Proof.
  intros Ht Hg. induction Ht as [|[l|n] tpl Hi _ IH]; simpl.
  - constructor.
  - apply Forall_app. now split.
  - apply Forall_app. split; [now apply group_ok|assumption].
Qed.

(** What [re.sub] gives is made of characters of the text and of the
    template. *)
Lemma sub_scan_Forall (P : cp -> Prop) r tpl (t : text) :
  Forall P t -> tpl_ok P tpl ->
  forall prev n, Forall P (sub_scan r tpl prev n t).
Proof.
  intros Ht Htpl. induction Ht as [|c t Hc Ht IH]; intros prev n.
  - constructor.
  - cbn [sub_scan]. destruct n as [|n]; [|apply IH].
    destruct (match_here r prev (c :: t)) as [[g rest]|] eqn:Hm.
    + destruct (length (c :: t) - length rest)%nat.
      * constructor; [assumption|apply IH].
      * apply Forall_app. split; [|apply IH].
        apply expand_ok; [assumption|].
        apply match_here_inv in Hm as (pre & _ & Hg & _).
        apply Hg. now constructor.
    + constructor; [assumption|apply IH].
Qed.

Lemma re_sub_Forall (P : cp -> Prop) r tpl (t : text) :
  Forall P t -> tpl_ok P tpl -> Forall P (re_sub r tpl t).
Proof.
  intros. now apply sub_scan_Forall.
Qed.

(** When the pattern matches wherever a character of [Q] stands, none is
    left. *)
Lemma sub_scan_excludes (Q Q' : cp -> bool) r tpl :
  (forall prev c s, Q c = true -> match_here r prev (c :: s) <> None) ->
  needs Q' r ->
  (forall g, Forall (fun c => Q c = false) (expand tpl g)) ->
  forall t prev n, Forall (fun c => Q c = false) (sub_scan r tpl prev n t).
Proof.
  intros Hm Hn Htpl. induction t as [|c t IH]; intros prev n.
  - constructor.
  - cbn [sub_scan]. destruct n as [|n]; [|apply IH].
    destruct (match_here r prev (c :: t)) as [[g rest]|] eqn:H.
    + pose proof H as H'.
      apply match_here_inv in H' as (pre & Hs & _ & Hq).
      specialize (Hq Q' Hn).
      destruct pre as [|x pre]; [discriminate|].
      rewrite Hs. cbn [length app]. rewrite length_app.
      replace (S (length pre + length rest) - length rest)%nat
        with (S (length pre)) by lia.
      apply Forall_app. split; [apply Htpl|apply IH].
    + constructor; [|apply IH].
      destruct (Q c) eqn:Hc; [|reflexivity].
      exfalso. now apply (Hm prev c t Hc).
Qed.

Lemma rep_greedy_total (R : Type) (p : cp -> bool) (f : text -> R) s :
  forall prev,
  rep_greedy p (fun _ sv => Some (f sv)) prev s <> None.
Proof.
  induction s as [|c s IH]; intro prev; simpl; [discriminate|].
  destruct (p c); [|discriminate].
  destruct (rep_greedy p (fun _ sv => Some (f sv)) (Some c) s);
    discriminate.
Qed.

(** *** What each pattern needs *)

Lemma needs_bold : needs (is_char 42) re_bold.
Proof. simpl. auto. Qed.
Lemma needs_italic : needs (is_char 42) re_italic.
Proof. simpl. auto. Qed.
Lemma needs_underline : needs (is_char 95) re_underline.
Proof. simpl. auto. Qed.
Lemma needs_code : needs (is_char 96) re_code.
Proof. simpl. auto. Qed.
Lemma needs_next_item : needs (is_char 10) re_next_item.
Proof. simpl. auto. Qed.
Lemma needs_first_item : needs (is_char 46) re_first_item.
Proof. simpl. auto 7. Qed.
Lemma needs_bullet_line : needs is_bullet re_bullet_line.
Proof. simpl. auto 7. Qed.
Lemma needs_bullet_next : needs (is_char 10) re_bullet_next.
Proof. simpl. auto. Qed.
Lemma needs_label (w : string) : needs (is_char 58) (re_label w).
Proof. simpl. auto. Qed.
Lemma needs_symbol : needs is_symbol (Cls is_symbol).
Proof. simpl. auto. Qed.
Lemma needs_punct : needs is_punct (Cls is_punct).
Proof. simpl. auto. Qed.
Lemma needs_slash_spaced : needs (is_char 47) re_slash_spaced.
Proof. simpl. auto. Qed.
Lemma needs_slash : needs (is_char 47) re_slash.
Proof. simpl. auto. Qed.
Lemma needs_hyphen : needs (is_char 45) re_hyphen.
Proof. simpl. auto. Qed.
Lemma needs_percent : needs (is_char 37) re_percent.
Proof. simpl. auto 7. Qed.
Lemma needs_newlines : needs (is_char 10) re_newlines.
Proof. simpl. split; [reflexivity|]. intros x H. exact H. Qed.
Lemma needs_whitespace : needs is_space re_whitespace.
Proof. simpl. auto. Qed.
Lemma needs_units_digit : needs is_digit re_units.
Proof. simpl. auto 7. Qed.

End ScanFacts.

(** ** White space *)

Section SpaceFacts.
Context {U : UnicodeData}.

Lemma take_drop q t : take_while q t ++ drop_while q t = t.
Proof.
  induction t as [|c t IH]; simpl; [reflexivity|].
  destruct (q c); simpl; [now rewrite IH|reflexivity].
Qed.

Lemma take_while_all q t : forallb q (take_while q t) = true.
Proof.
  induction t as [|c t IH]; simpl; [reflexivity|].
  destruct (q c) eqn:H; simpl; [now rewrite H|reflexivity].
Qed.

Lemma drop_while_length q t : (length (drop_while q t) <= length t)%nat.
Proof.
  induction t as [|c t IH]; simpl; [lia|]. destruct (q c); simpl; lia.
Qed.

Lemma drop_while_head q t :
  match drop_while q t with c :: _ => q c = false | [] => True end.
Proof.
  induction t as [|c t IH]; simpl; [exact I|].
  destruct (q c) eqn:H; [exact IH|exact H].
Qed.

Lemma lstrip_drop t : lstrip t = drop_while is_space t.
Proof.
  induction t as [|c t IH]; simpl; [reflexivity|]. now rewrite IH.
Qed.

Lemma lstrip_head t : head_space (lstrip t) = false.
Proof.
  rewrite lstrip_drop. pose proof (drop_while_head is_space t) as H.
  destruct (drop_while is_space t); [reflexivity|exact H].
Qed.

Lemma lstrip_id t : head_space t = false -> lstrip t = t.
Proof.
  destruct t as [|c t]; simpl; [reflexivity|]. now intros ->.
Qed.

Lemma lstrip_split t :
  exists w, t = w ++ lstrip t /\ forallb is_space w = true.
Proof.
  exists (take_while is_space t). rewrite lstrip_drop, take_drop.
  split; [reflexivity|apply take_while_all].
Qed.

Lemma strip_id t : tidy t -> strip t = t.
Proof.
  intros (_ & Hh & Hr). unfold strip, rstrip.
  rewrite (lstrip_id t Hh), (lstrip_id (rev t) Hr). apply rev_involutive.
Qed.

(** [strip] cuts white space off both ends. *)
Lemma strip_split t :
  exists w1 w2, t = w1 ++ strip t ++ w2
                /\ forallb is_space w1 = true /\ forallb is_space w2 = true.
Proof.
  destruct (lstrip_split t) as (w1 & H1 & Hw1).
  destruct (lstrip_split (rev (lstrip t))) as (w2 & H2 & Hw2).
  exists w1, (rev w2). unfold strip, rstrip. split; [|split].
  - rewrite <- rev_app_distr, <- H2, rev_involutive. exact H1.
  - exact Hw1.
  - rewrite forallb_forall in *. intros x Hx. apply Hw2.
    now apply in_rev.
Qed.

Lemma head_space_rev_last t c :
  head_space (rev (t ++ [c])) = is_space c.
Proof.
  now rewrite rev_app_distr.
Qed.

Lemma strip_head t : head_space (strip t) = false.
Proof.
  unfold strip, rstrip.
  pose proof (lstrip_head t) as Ha.
  destruct (lstrip_split (rev (lstrip t))) as (w & Hw & Hall).
  remember (lstrip (rev (lstrip t))) as b eqn:Hb.
  destruct (rev b) as [|x b'] eqn:Hrb; [reflexivity|].
  assert (Hlt : lstrip t = rev b ++ rev w).
  { rewrite <- rev_app_distr, <- Hw. now rewrite rev_involutive. }
  rewrite Hrb in Hlt. rewrite Hlt in Ha. exact Ha.
Qed.

Lemma strip_last t : head_space (rev (strip t)) = false.
Proof.
  unfold strip, rstrip. rewrite rev_involutive. apply lstrip_head.
Qed.

Lemma loose_spaced_app_r a b :
  loose_spaced (a ++ b) = true -> loose_spaced b = true.
Proof.
  induction a as [|c a IH]; simpl; [auto|].
  intro H. apply andb_true_iff in H as [_ H]. now apply IH.
Qed.

Lemma head_space_app a b :
  head_space (a ++ b) = false -> head_space a = false.
Proof.
  destruct a; simpl; auto.
Qed.

Lemma loose_spaced_app_l a b :
  loose_spaced (a ++ b) = true -> loose_spaced a = true.
Proof.
  induction a as [|c a IH]; simpl; [auto|].
  intro H. apply andb_true_iff in H as [H1 H2].
  rewrite (IH H2), andb_true_r.
  destruct (is_space c); [|reflexivity].
  apply andb_true_iff in H1 as [-> H1]. simpl.
  apply negb_true_iff in H1. apply head_space_app in H1. now rewrite H1.
Qed.

Lemma strip_tidy t : loose_spaced t = true -> tidy (strip t).
Proof.
  intro H. split; [|split; [apply strip_head|apply strip_last]].
  destruct (strip_split t) as (w1 & w2 & Ht & _ & _).
  rewrite Ht in H.
  apply loose_spaced_app_r in H. now apply loose_spaced_app_l in H.
Qed.

(** *** Runs of a class replaced by one space *)

Lemma rep_greedy_all (R : Type) (q : cp -> bool) (f : text -> R) s :
  forall prev,
  rep_greedy q (fun _ sv => Some (f sv)) prev s = Some (f (drop_while q s)).
Proof.
  induction s as [|c s IH]; intro prev; simpl; [reflexivity|].
  destruct (q c); [|reflexivity]. now rewrite IH.
Qed.

Lemma match_run q prev c s :
  match_here (Rep true true q) prev (c :: s)
  = if q c then Some ([], drop_while q s) else None.
Proof.
  unfold match_here. simpl. destruct (q c); [|reflexivity].
  apply (rep_greedy_all _ q (fun sv => ([], sv))).
Qed.

Lemma squeeze_cons q prev c s :
  squeeze q prev (c :: s)
  = if q c
    then 32 :: squeeze q (adv prev (c :: take_while q s)) (drop_while q s)
    else c :: squeeze q (Some c) s.
Proof.
  unfold squeeze. pose proof (match_run q prev c s) as Hm.
  destruct (q c) eqn:Hq.
  - rewrite <- (take_drop q s) at 1.
    change (c :: take_while q s ++ drop_while q s)
      with ((c :: take_while q s) ++ drop_while q s).
    rewrite (sub_scan_match _ _ _ _ _ []); [reflexivity| |discriminate].
    cbn [app]. rewrite take_drop. exact Hm.
  - now apply sub_scan_nomatch.
Qed.

Lemma squeeze_head q prev t :
  (forall c, q c = true -> is_space c = true) ->
  head_space (squeeze q prev t) = head_space t.
Proof.
  intro Hq. destruct t as [|c t]; [reflexivity|].
  rewrite squeeze_cons. destruct (q c) eqn:H; [|reflexivity].
  simpl. now rewrite (Hq c H).
Qed.

Lemma squeeze_space_loose t :
  forall prev, loose_spaced (squeeze is_space prev t) = true.
Proof.
  enough (H : forall n t, (length t <= n)%nat ->
                          forall prev,
                          loose_spaced (squeeze is_space prev t) = true)
    by (intro prev; now apply (H (length t))).
  clear t. induction n as [|n IH]; intros t Hn prev.
  - destruct t; [reflexivity|simpl in Hn; lia].
  - destruct t as [|c t]; [reflexivity|].
    rewrite squeeze_cons. destruct (is_space c) eqn:Hc.
    + cbn [loose_spaced]. change (is_space 32) with true. cbn [N.eqb andb].
      rewrite squeeze_head by auto.
      rewrite <- lstrip_drop, lstrip_head. simpl.
      apply IH. rewrite lstrip_drop.
      pose proof (drop_while_length is_space t). simpl in Hn. lia.
    + cbn [loose_spaced]. rewrite Hc. simpl.
      apply IH. simpl in Hn. lia.
Qed.

Lemma squeeze_space_id t :
  loose_spaced t = true -> forall prev, squeeze is_space prev t = t.
Proof.
  induction t as [|c t IH]; intros H prev; [reflexivity|].
  rewrite squeeze_cons. simpl in H. apply andb_true_iff in H as [H1 H2].
  destruct (is_space c) eqn:Hc.
  - apply andb_true_iff in H1 as [Hc32 Hh].
    apply N.eqb_eq in Hc32. subst c. apply negb_true_iff in Hh.
    rewrite <- lstrip_drop, (lstrip_id t Hh). f_equal. now apply IH.
  - f_equal. now apply IH.
Qed.

End SpaceFacts.

(** ** Numbers with units *)

Section UnitFacts.
Context {U : UnicodeData}.

Lemma rmatch_chars (R : Type) (l : text) :
  forall prev s g (k : option cp -> text -> groups -> option R),
  rmatch (re_seq (map Chr l)) prev s g k
  = if starts_with l s then k (adv prev l) (skipn (length l) s) g else None.
Proof.
  induction l as [|a l IH]; intros prev s g k; [reflexivity|].
  cbn [map re_seq fold_right rmatch].
  destruct s as [|x s]; [reflexivity|].
  cbn [starts_with length skipn adv]. rewrite N.eqb_sym.
  destruct (N.eqb a x) eqn:Hx; [|reflexivity].
  apply N.eqb_eq in Hx. subst x. apply IH.
Qed.

Lemma starts_with_app (a b s : text) :
  starts_with (a ++ b) s
  = (starts_with a s && starts_with b (skipn (length a) s))%bool.
Proof.
  revert s. induction a as [|x a IH]; intro s; [reflexivity|].
  destruct s as [|y s]; simpl.
  - destruct b; reflexivity.
  - rewrite IH. now rewrite andb_assoc.
Qed.

Lemma starts_with_split (w s : text) :
  starts_with w s = true -> s = w ++ skipn (length w) s.
Proof.
  revert s. induction w as [|a w IH]; intro s; [reflexivity|].
  destruct s as [|b s]; simpl; [discriminate|].
  intro H. apply andb_true_iff in H as [Hab H].
  apply N.eqb_eq in Hab. subst b. f_equal. now apply IH.
Qed.

Lemma skipn_skipn (n m : nat) (s : text) :
  skipn n (skipn m s) = skipn (m + n) s.
Proof.
  revert s. induction m as [|m IH]; intro s; [reflexivity|].
  destruct s as [|x s]; simpl; [now destruct n|apply IH].
Qed.

(** A word with an optional s. *)
Lemma rmatch_plural (R : Type) (w : string) prev s g
  (k : option cp -> text -> groups -> option R) :
  rmatch (re_seq [lit w; opt (Chr 115)]) prev s g k
  = try_words R [s2t w ++ [115]; s2t w] prev s g k.
Proof.
  cbn [re_seq fold_right]. cbn [rmatch]. unfold lit at 1.
  rewrite rmatch_chars. cbn [try_words].
  rewrite starts_with_app.
  destruct (starts_with (s2t w) s) eqn:Hw; [|reflexivity].
  cbn [andb opt rmatch].
  rewrite length_app, adv_app, <- skipn_skipn. cbn [length].
  destruct (skipn (length (s2t w)) s) as [|x s1].
  - cbn. now destruct (k (adv prev (s2t w)) [] g).
  - cbn [starts_with skipn adv]. rewrite N.eqb_sym.
    destruct (N.eqb 115 x) eqn:Hx.
    + apply N.eqb_eq in Hx. subst x. cbn.
      repeat match goal with
             | |- context [k ?a ?b g] => destruct (k a b g)
             end; reflexivity.
    + cbn. now destruct (k (adv prev (s2t w)) (x :: s1) g).
Qed.

Lemma try_words_app (R : Type) (a b : list text) prev s g
  (k : option cp -> text -> groups -> option R) :
  try_words R (a ++ b) prev s g k
  = match try_words R a prev s g k with
    | Some r => Some r
    | None => try_words R b prev s g k
    end.
Proof.
  induction a as [|w a IH]; [reflexivity|].
  cbn [app try_words].
  destruct (if starts_with w s then _ else None); [reflexivity|apply IH].
Qed.

Lemma rmatch_unit_word (R : Type) prev s g
  (k : option cp -> text -> groups -> option R) :
  rmatch re_unit_word prev s g k = try_words R unit_names prev s g k.
Proof.
  unfold re_unit_word, alts. cbn [fold_left rmatch].
  rewrite !rmatch_plural.
  change unit_names
    with ([s2t "hour" ++ [115]; s2t "hour"]
          ++ [s2t "day" ++ [115]; s2t "day"]
          ++ [s2t "week" ++ [115]; s2t "week"]
          ++ [s2t "month" ++ [115]; s2t "month"]
          ++ [s2t "year" ++ [115]; s2t "year"]).
  rewrite !try_words_app.
  repeat match goal with
         | |- context [try_words R ?l prev s g k] =>
             destruct (try_words R l prev s g k); try reflexivity
         end.
Qed.

(** *** Character classes against each other *)

Lemma ascii_digit_not_space c : ascii_digit c = true -> is_space c = false.
Proof.
  unfold ascii_digit, is_space, in_range. intro H. by_ranges.
Qed.

Lemma ascii_word_not_space c :
  is_ascii c = true -> (ascii_alnum c || N.eqb c 95)%bool = true ->
  is_space c = false.
Proof.
  unfold is_ascii, ascii_alnum, ascii_digit, ascii_upper, ascii_lower,
    is_space, in_range.
  intros Ha H. apply orb_true_iff in H as [H|H].
  - apply orb_true_iff in H as [H|H]; [apply orb_true_iff in H as [H|H]|];
      by_ranges.
  - by_ranges.
Qed.

Lemma digit_word c : is_digit c = true -> is_word c = true.
Proof.
  unfold is_digit, is_word, ascii_alnum. destruct (is_ascii c).
  - now intros ->.
  - apply uni_decimal_alnum.
Qed.

Lemma word_not_space c : is_word c = true -> is_space c = false.
Proof.
  unfold is_word. destruct (is_ascii c) eqn:Ha.
  - now apply ascii_word_not_space.
  - apply uni_alnum_not_space.
Qed.

Lemma space_not_word c : is_space c = true -> is_word c = false.
Proof.
  intro H. destruct (is_word c) eqn:Hw; [|reflexivity].
  apply word_not_space in Hw. congruence.
Qed.

Lemma digit_not_space c : is_digit c = true -> is_space c = false.
Proof.
  intro H. now apply word_not_space, digit_word.
Qed.

Lemma space_not_digit c : is_space c = true -> is_digit c = false.
Proof.
  intro H. destruct (is_digit c) eqn:Hd; [|reflexivity].
  apply digit_not_space in Hd. congruence.
Qed.

Lemma initial_cases c :
  is_unit_initial c = true ->
  c = 104 \/ c = 100 \/ c = 119 \/ c = 109 \/ c = 121.
Proof.
  unfold is_unit_initial, cp_in. simpl. intro H.
  repeat (apply orb_true_iff in H as [H|H]);
    try (apply N.eqb_eq in H; auto 6); discriminate.
Qed.

Lemma space_not_initial c : is_space c = true -> is_unit_initial c = false.
Proof.
  intro H. destruct (is_unit_initial c) eqn:Hi; [|reflexivity].
  apply initial_cases in Hi as [->|[->|[->|[->| ->]]]]; discriminate.
Qed.

Lemma digit_not_initial c : is_digit c = true -> is_unit_initial c = false.
Proof.
  intro H. destruct (is_unit_initial c) eqn:Hi; [|reflexivity].
  apply initial_cases in Hi as [->|[->|[->|[->| ->]]]]; discriminate.
Qed.

(** *** The unit word and the boundary after it *)

Lemma unit_names_initial c b w :
  is_unit_initial c = false -> In w unit_names -> starts_with w (c :: b) = false.
Proof.
  unfold is_unit_initial, cp_in. simpl. intros H Hin.
  repeat (apply orb_false_iff in H as [? H]).
  repeat (destruct Hin as [<-|Hin];
          [cbn [starts_with]; rewrite N.eqb_sym;
           match goal with Hc : N.eqb c _ = false |- _ => now rewrite Hc end|]).
  destruct Hin.
Qed.

Lemma unit_names_word w prev :
  In w unit_names -> word_before (adv prev w) = true.
Proof.
  intro Hin. simpl in Hin.
  repeat (destruct Hin as [<-|Hin]; [reflexivity|]). destruct Hin.
Qed.

Lemma unit_names_letters w :
  In w unit_names ->
  Forall (fun c => is_word c = true /\ is_digit c = false
                   /\ is_space c = false) w.
Proof.
  intro Hin. simpl in Hin.
  repeat (destruct Hin as [<-|Hin];
          [repeat constructor|]). destruct Hin.
Qed.

Lemma try_words_none (R : Type) (ws : list text) prev s g
  (k : option cp -> text -> groups -> option R) :
  (forall w, In w ws -> starts_with w s = false) ->
  try_words R ws prev s g k = None.
Proof.
  induction ws as [|w ws IH]; intro H; [reflexivity|].
  cbn [try_words]. rewrite (H w (or_introl eq_refl)).
  apply IH. intros w' Hw'. apply H. now right.
Qed.

Lemma firstn_starts_with (w s : text) :
  starts_with w s = true ->
  firstn (length s - length (skipn (length w) s)) s = w.
Proof.
  intro H. apply starts_with_split in H.
  rewrite H at 1 3. rewrite length_app.
  replace (length w + length (skipn (length w) s)
           - length (skipn (length w) s))%nat with (length w) by lia.
  rewrite firstn_app, Nat.sub_diag, firstn_all, firstn_O. apply app_nil_r.
Qed.

Lemma try_words_boundary (ws : list text) prev s g :
  (forall w, In w ws -> word_before (adv prev w) = true) ->
  try_words _ ws prev s g
    (fun prev' s' g' =>
       if xorb (word_before prev') (word_at s')
       then Some ((2%nat, firstn (length s - length s') s) :: g', s')
       else None)
  = match find (unit_test s) ws with
    | Some w => Some ((2%nat, w) :: g, skipn (length w) s)
    | None => None
    end.
Proof.
  induction ws as [|w ws IH]; intro Hw; [reflexivity|].
  cbn [try_words find]. unfold unit_test at 1.
  rewrite (Hw w (or_introl eq_refl)).
  destruct (starts_with w s) eqn:Hs; cbn [andb].
  - destruct (word_at (skipn (length w) s)); cbn [xorb negb].
    + apply IH. intros w' Hw'. apply Hw. now right.
    + now rewrite (firstn_starts_with w s Hs).
  - apply IH. intros w' Hw'. apply Hw. now right.
Qed.

(** The unit word and the closing boundary. *)
Lemma rmatch_unit_end prev s g :
  rmatch (re_seq [Grp 2 re_unit_word; Wb]) prev s g accept
  = match unit_at s with
    | Some w => Some ((2%nat, w) :: g, skipn (length w) s)
    | None => None
    end.
Proof.
  cbn [re_seq fold_right rmatch]. rewrite rmatch_unit_word.
  unfold accept, unit_at.
  apply try_words_boundary. intros w Hw. now apply unit_names_word.
Qed.

Lemma unit_at_initial c b : is_unit_initial c = false -> unit_at (c :: b) = None.
Proof.
  intro H. unfold unit_at.
  destruct (find (unit_test (c :: b)) unit_names) as [w|] eqn:Hf;
    [|reflexivity].
  apply find_some in Hf as [Hin Ht]. unfold unit_test in Ht.
  rewrite (unit_names_initial c b w H Hin) in Ht. discriminate.
Qed.

Lemma rep_greedy_max (R : Type) (p : cp -> bool) (k : kont R) :
  (forall pv c b, p c = true -> k pv (c :: b) = None) ->
  forall s prev,
  rep_greedy p k prev s = k (adv prev (take_while p s)) (drop_while p s).
Proof.
  intros Hk. induction s as [|c s IH]; intro prev; [reflexivity|].
  cbn [rep_greedy take_while drop_while].
  destruct (p c) eqn:Hp; [|reflexivity].
  rewrite IH. cbn [adv].
  destruct (k (adv (Some c) (take_while p s)) (drop_while p s)) eqn:Hr;
    [reflexivity|].
  now apply Hk.
Qed.

(** The white space, the unit word and the closing boundary. *)
Lemma rmatch_space_unit prev s g :
  rmatch (re_seq [spaces; Grp 2 re_unit_word; Wb]) prev s g accept
  = match unit_at (lstrip s) with
    | Some w => Some ((2%nat, w) :: g, skipn (length w) (lstrip s))
    | None => None
    end.
Proof.
  change (rmatch (re_seq [spaces; Grp 2 re_unit_word; Wb]) prev s g accept)
    with (rep_greedy is_space
            (fun pv sv => rmatch (re_seq [Grp 2 re_unit_word; Wb]) pv sv g
                            accept) prev s).
  rewrite rep_greedy_max.
  - rewrite rmatch_unit_end, lstrip_drop. reflexivity.
  - intros pv c b Hc. rewrite rmatch_unit_end.
    now rewrite unit_at_initial by now apply space_not_initial.
Qed.

Lemma take_while_firstn p (s : text) :
  firstn (length s - length (drop_while p s)) s = take_while p s.
Proof.
  rewrite <- (take_drop p s) at 1 3. rewrite length_app.
  replace (length (take_while p s) + length (drop_while p s)
           - length (drop_while p s))%nat
    with (length (take_while p s)) by lia.
  rewrite firstn_app, Nat.sub_diag, firstn_all, firstn_O. apply app_nil_r.
Qed.

(** The units pattern, read off the text. *)
Lemma match_units prev s :
  match_here re_units prev s
  = match units_match prev s with
    | Some (D, w, rest) => Some ([(2%nat, w); (1%nat, D)], rest)
    | None => None
    end.
Proof.
  unfold match_here, units_match.
  change (fun (_ : option cp) (s' : text) (g : groups) => Some (g, s'))
    with accept.
  change (rmatch re_units prev s [] accept)
    with (if xorb (word_before prev) (word_at s)
          then
            match s with
            | x :: s0 =>
                if is_digit x
                then rep_greedy is_digit
                       (fun pv sv =>
                          rmatch (re_seq [spaces; Grp 2 re_unit_word; Wb])
                            pv sv
                            [(1%nat, firstn (length s - length sv) s)]
                            accept) (Some x) s0
                else None
            | [] => None
            end
          else None).
  destruct s as [|x s0].
  - destruct (word_before prev); reflexivity.
  - cbn [word_at take_while drop_while].
    destruct (is_digit x) eqn:Hx.
    + rewrite (digit_word x Hx).
      destruct (word_before prev); [reflexivity|]. cbn [xorb].
      rewrite rep_greedy_max.
      * rewrite rmatch_space_unit.
        replace (firstn (length (x :: s0) - length (drop_while is_digit s0))
                   (x :: s0))
          with (x :: take_while is_digit s0).
        -- destruct (unit_at (lstrip (drop_while is_digit s0)));
             reflexivity.
        -- pose proof (take_while_firstn is_digit (x :: s0)) as H.
           cbn [take_while drop_while] in H. rewrite Hx in H. now rewrite H.
      * intros pv c b Hc. rewrite rmatch_space_unit.
        rewrite (lstrip_id (c :: b)) by (simpl; now apply digit_not_space).
        now rewrite unit_at_initial by now apply digit_not_initial.
    + destruct (xorb (word_before prev) (is_word x));
        destruct (word_before prev); reflexivity.
Qed.

End UnitFacts.

(** ** A number and its unit with nothing in between *)

Section TightFacts.
Context {U : UnicodeData}.

Lemma take_while_app p (a b : text) :
  forallb p a = true ->
  match b with c :: _ => p c = false | [] => True end ->
  take_while p (a ++ b) = a /\ drop_while p (a ++ b) = b.
Proof.
  intros Ha Hb. induction a as [|x a IH]; simpl.
  - destruct b as [|c b]; [now split|]. simpl. now rewrite Hb.
  - simpl in Ha. apply andb_true_iff in Ha as [Hx Ha]. rewrite Hx.
    destruct (IH Ha) as [-> ->]. now split.
Qed.

Lemma find_exists (A : Type) (f : A -> bool) (l : list A) (a : A) :
  In a l -> f a = true -> find f l <> None.
Proof.
  induction l as [|x l IH]; intros Hin Hf; [destruct Hin|].
  simpl. destruct (f x) eqn:Hx; [discriminate|].
  destruct Hin as [->|Hin]; [congruence|now apply IH].
Qed.

Lemma find_same (A : Type) (f g : A -> bool) (l : list A) :
  (forall a, In a l -> f a = g a) -> find f l = find g l.
Proof.
  induction l as [|x l IH]; intro H; [reflexivity|].
  simpl. rewrite (H x (or_introl eq_refl)).
  destruct (g x); [reflexivity|]. apply IH. intros a Ha. apply H. now right.
Qed.

Lemma unit_at_some s w :
  unit_at s = Some w ->
  In w unit_names /\ starts_with w s = true
  /\ word_at (skipn (length w) s) = false.
Proof.
  unfold unit_at. intro H. apply find_some in H as [Hin Ht].
  unfold unit_test in Ht. apply andb_true_iff in Ht as [Hs Hw].
  apply negb_true_iff in Hw. now repeat split.
Qed.

Lemma unit_names_nonempty w : In w unit_names -> w <> [].
Proof.
  intro Hin. simpl in Hin.
  repeat (destruct Hin as [<-|Hin]; [discriminate|]). destruct Hin.
Qed.

(** What a match of the units pattern is. *)
Lemma units_match_some prev s D w rest :
  units_match prev s = Some (D, w, rest) ->
  word_before prev = false
  /\ D = take_while is_digit s /\ D <> []
  /\ In w unit_names
  /\ word_at rest = false
  /\ lstrip (drop_while is_digit s) = w ++ rest
  /\ exists W, forallb is_space W = true
               /\ drop_while is_digit s = W ++ w ++ rest
               /\ s = D ++ W ++ w ++ rest.
Proof.
  unfold units_match. destruct (word_before prev); [discriminate|].
  destruct (take_while is_digit s) as [|d D'] eqn:HD; [discriminate|].
  destruct (unit_at (lstrip (drop_while is_digit s))) as [w'|] eqn:Hu;
    [|discriminate].
  intro H. injection H as <- <- <-.
  apply unit_at_some in Hu as (Hin & Hs & Hw).
  apply starts_with_split in Hs.
  split; [reflexivity|]. split; [reflexivity|]. split; [discriminate|].
  split; [assumption|]. split; [assumption|]. split; [assumption|].
  destruct (lstrip_split (drop_while is_digit s)) as (W & HW & Hall).
  exists W. split; [assumption|].
  rewrite <- Hs. split; [assumption|].
  rewrite <- HW, <- HD. symmetry. apply take_drop.
Qed.

Lemma adv_nonempty prev prev' w : w <> [] -> adv prev w = adv prev' w.
Proof.
  destruct w as [|c w]; [congruence|reflexivity].
Qed.

(** A step of the scan for the units pattern. *)
Lemma units_step_cons prev c t :
  match units_match prev (c :: t) with
  | Some (D, w, rest) =>
      exists pv, word_before pv = true
                 /\ units_step prev (c :: t)
                    = D ++ [32] ++ w ++ units_step pv rest
  | None => units_step prev (c :: t) = c :: units_step (Some c) t
  end.
Proof.
  pose proof (match_units prev (c :: t)) as Hm.
  destruct (units_match prev (c :: t)) as [[[D w] rest]|] eqn:Hu.
  - apply units_match_some in Hu
      as (_ & _ & HD & Hin & _ & _ & W & _ & _ & Hs).
    exists (adv prev (D ++ W ++ w)). split.
    + rewrite !adv_app. now apply unit_names_word.
    + unfold units_step. rewrite Hs in Hm |- *.
      replace (D ++ W ++ w ++ rest) with ((D ++ W ++ w) ++ rest) in Hm |- *
        by now rewrite <- !app_assoc.
      rewrite (sub_scan_match _ _ _ _ _ _ Hm).
      * cbn [expand group Nat.eqb]. now rewrite app_nil_r, <- !app_assoc.
      * destruct D; [congruence|discriminate].
  - now apply sub_scan_nomatch.
Qed.

Lemma units_match_word prev s :
  word_before prev = true -> units_match prev s = None.
Proof.
  unfold units_match. now intros ->.
Qed.

Lemma units_match_nondigit prev c s :
  is_digit c = false -> units_match prev (c :: s) = None.
Proof.
  unfold units_match. intro H. simpl. rewrite H.
  now destruct (word_before prev).
Qed.

Lemma units_step_copy prev c t :
  word_before prev = true \/ is_digit c = false ->
  units_step prev (c :: t) = c :: units_step (Some c) t.
Proof.
  intro H. pose proof (units_step_cons prev c t) as Hs.
  destruct H as [H|H].
  - now rewrite (units_match_word prev (c :: t) H) in Hs.
  - now rewrite (units_match_nondigit prev c t H) in Hs.
Qed.

(** The scan keeps the first character. *)
Lemma units_step_head prev t :
  match t with
  | [] => units_step prev t = []
  | c :: _ => exists o, units_step prev t = c :: o
  end.
Proof.
  destruct t as [|c t]; [reflexivity|].
  pose proof (units_step_cons prev c t) as Hs.
  destruct (units_match prev (c :: t)) as [[[D w] rest]|] eqn:Hu.
  - destruct Hs as (pv & _ & ->).
    apply units_match_some in Hu as (_ & HD & Hne & _).
    simpl in HD. destruct (is_digit c); [|congruence].
    subst D. simpl. eexists. reflexivity.
  - eexists. exact Hs.
Qed.

Lemma units_step_word_at prev t : word_at (units_step prev t) = word_at t.
Proof.
  pose proof (units_step_head prev t) as H. destruct t as [|c t].
  - now rewrite H.
  - destruct H as (o & ->). reflexivity.
Qed.

(** Behind a word character the digits are copied. *)
Lemma units_step_digits t :
  forall pv, word_before pv = true ->
  take_while is_digit (units_step pv t) = take_while is_digit t
  /\ exists pv', word_before pv' = true
                 /\ drop_while is_digit (units_step pv t)
                    = units_step pv' (drop_while is_digit t).
Proof.
  induction t as [|c t IH]; intros pv Hpv.
  - split; [reflexivity|]. now exists pv.
  - rewrite units_step_copy by now left.
    cbn [take_while drop_while]. destruct (is_digit c) eqn:Hc.
    + destruct (IH (Some c)) as (-> & pv' & Hpv' & ->).
      { simpl. now apply digit_word. }
      split; [reflexivity|]. now exists pv'.
    + split; [reflexivity|]. exists pv. split; [assumption|].
      symmetry. apply units_step_copy. now left.
Qed.

(** Behind a word character a word is copied. *)
Lemma units_step_letters (w : text) :
  Forall (fun c => is_word c = true /\ is_digit c = false
                   /\ is_space c = false) w ->
  forall pv r,
  word_before pv = true ->
  starts_with w (units_step pv r) = true ->
  starts_with w r = true
  /\ exists pv', skipn (length w) (units_step pv r)
                 = units_step pv' (skipn (length w) r).
Proof.
  induction 1 as [|a w (Ha & _) _ IH]; intros pv r Hpv Hs.
  - split; [reflexivity|]. now exists pv.
  - pose proof (units_step_head pv r) as Hh.
    destruct r as [|x r]; [rewrite Hh in Hs; discriminate|].
    rewrite units_step_copy in Hs |- * by now left.
    cbn [starts_with] in Hs |- *. apply andb_true_iff in Hs as [Hax Hs].
    rewrite Hax. cbn [andb length skipn].
    apply N.eqb_eq in Hax. subst x.
    apply (IH (Some a) r); [exact Ha|exact Hs].
Qed.

Lemma tight_at_word prev s : word_before prev = true -> tight_at prev s = false.
Proof.
  unfold tight_at. now intros ->.
Qed.

Lemma tight_at_nondigit prev c s : is_digit c = false -> tight_at prev (c :: s) = false.
Proof.
  unfold tight_at. intro H. simpl. rewrite H. apply andb_false_r.
Qed.

Lemma tight_at_prev p1 p2 s :
  word_before p1 = word_before p2 -> tight_at p1 s = tight_at p2 s.
Proof.
  unfold tight_at. now intros ->.
Qed.

Lemma tight_free_prev p1 p2 u :
  word_before p1 = word_before p2 -> tight_free p1 u = tight_free p2 u.
Proof.
  intro H. destruct u as [|c u]; [reflexivity|].
  simpl. now rewrite (tight_at_prev p1 p2 _ H).
Qed.

Lemma tight_free_plain a b :
  forall prev, plain prev a ->
  tight_free prev (a ++ b) = tight_free (adv prev a) b.
Proof.
  induction a as [|c a IH]; intros prev Hp; [reflexivity|].
  destruct Hp as [Hc Hp]. cbn [app tight_free adv].
  rewrite (IH (Some c) Hp).
  destruct Hc as [Hc|Hc].
  - now rewrite tight_at_word.
  - now rewrite tight_at_nondigit.
Qed.

Lemma tight_free_app_r a b :
  forall prev, tight_free prev (a ++ b) = true ->
  tight_free (adv prev a) b = true.
Proof.
  induction a as [|c a IH]; intros prev H; [exact H|].
  cbn [app tight_free] in H. apply andb_true_iff in H as [_ H].
  now apply IH.
Qed.

Lemma plain_digits D :
  forall pv, word_before pv = true -> forallb is_digit D = true -> plain pv D.
Proof.
  induction D as [|d D IH]; intros pv Hpv HD; [exact I|].
  simpl in HD. apply andb_true_iff in HD as [Hd HD].
  split; [now left|]. apply IH; [|exact HD]. simpl. now apply digit_word.
Qed.

Lemma plain_nondigits a :
  forall pv, Forall (fun c => is_digit c = false) a -> plain pv a.
Proof.
  induction a as [|c a IH]; intros pv Ha; [exact I|].
  inversion Ha; subst. split; [now right|]. now apply IH.
Qed.

Lemma plain_app a b :
  forall pv, plain pv a -> plain (adv pv a) b -> plain pv (a ++ b).
Proof.
  induction a as [|c a IH]; intros pv Ha Hb; [exact Hb|].
  destruct Ha as [Hc Ha]. split; [exact Hc|]. now apply IH.
Qed.

End TightFacts.

(** ** The units rule leaves no number tight against its unit *)

Section TightScan.
Context {U : UnicodeData}.

Lemma unit_at_found s w :
  In w unit_names -> starts_with w s = true ->
  word_at (skipn (length w) s) = false -> unit_at s <> None.
Proof.
  intros Hin Hs Hw. unfold unit_at. apply (find_exists _ _ _ w Hin).
  unfold unit_test. now rewrite Hs, Hw.
Qed.

(** Where the scan copies a digit that starts at a word boundary, what it
    gives has no number tight against a unit there. *)
Lemma units_step_copy_not_tight prev c t :
  units_match prev (c :: t) = None ->
  tight_at prev (c :: units_step (Some c) t) = false.
Proof.
  intro Hnone.
  destruct (tight_at prev (c :: units_step (Some c) t)) eqn:Ht;
    [exfalso|reflexivity].
  unfold tight_at in Ht. apply andb_true_iff in Ht as [Hp Ht].
  apply negb_true_iff in Hp.
  cbn [take_while drop_while] in Ht.
  destruct (is_digit c) eqn:Hc; [|discriminate].
  destruct (units_step_digits t (Some c)) as (_ & pv & Hpv & Hd).
  { simpl. now apply digit_word. }
  rewrite Hd in Ht.
  destruct (unit_at (units_step pv (drop_while is_digit t))) as [w|] eqn:Hu;
    [|discriminate].
  apply unit_at_some in Hu as (Hin & Hs & Hw).
  destruct (units_step_letters w (unit_names_letters w Hin) pv
              (drop_while is_digit t) Hpv Hs) as (Hs' & pv' & Hk).
  rewrite Hk, units_step_word_at in Hw.
  unfold units_match in Hnone. rewrite Hp in Hnone.
  cbn [take_while drop_while] in Hnone. rewrite Hc in Hnone.
  assert (Hl : lstrip (drop_while is_digit t) = drop_while is_digit t).
  { apply lstrip_id.
    pose proof (unit_names_letters w Hin) as Hlet.
    pose proof (unit_names_nonempty w Hin) as Hne.
    destruct w as [|a w]; [congruence|].
    destruct (drop_while is_digit t) as [|x r]; [discriminate|].
    simpl in Hs'. apply andb_true_iff in Hs' as [Hax _].
    apply N.eqb_eq in Hax. subst x. inversion Hlet; subst. simpl. tauto. }
  rewrite Hl in Hnone.
  pose proof (unit_at_found _ w Hin Hs' Hw) as Hf.
  destruct (unit_at (drop_while is_digit t)); [discriminate|congruence].
Qed.

(** What the units step gives has no number tight against a unit. *)
Lemma units_step_tight_free t :
  forall prev, tight_free prev (units_step prev t) = true.
Proof.
  enough (H : forall n t, (length t <= n)%nat ->
                          forall prev,
                          tight_free prev (units_step prev t) = true)
    by (intro prev; now apply (H (length t))).
  clear t. induction n as [|n IH]; intros t Hn prev.
  - destruct t; [reflexivity|simpl in Hn; lia].
  - destruct t as [|c t]; [reflexivity|].
    pose proof (units_step_cons prev c t) as Hs.
    destruct (units_match prev (c :: t)) as [[[D w] rest]|] eqn:Hu.
    + destruct Hs as (pv & Hpv & ->).
      apply units_match_some in Hu
        as (Hp & HD & Hne & Hin & _ & _ & W & _ & _ & Hsplit).
      assert (Hall : forallb is_digit D = true)
        by (rewrite HD; apply take_while_all).
      destruct D as [|d D']; [congruence|].
      assert (Hlen : (length rest <= n)%nat).
      { apply (f_equal (@length cp)) in Hsplit.
        rewrite !length_app in Hsplit. simpl in Hsplit, Hn. lia. }
      cbn [app tight_free]. apply andb_true_iff. split.
      * apply negb_true_iff. unfold tight_at. rewrite Hp. cbn [negb andb].
        change (d :: D' ++ 32 :: w ++ units_step pv rest)
          with ((d :: D') ++ 32 :: w ++ units_step pv rest).
        destruct (take_while_app is_digit (d :: D')
                    (32 :: w ++ units_step pv rest) Hall eq_refl)
          as [-> ->].
        now rewrite unit_at_initial.
      * simpl in Hall. apply andb_true_iff in Hall as [Hd Hall].
        replace (D' ++ 32 :: w ++ units_step pv rest)
          with ((D' ++ 32 :: w) ++ units_step pv rest)
          by (rewrite <- app_assoc; reflexivity).
        rewrite tight_free_plain.
        -- rewrite (tight_free_prev _ pv).
           ++ now apply IH.
           ++ rewrite Hpv.
              change (D' ++ 32 :: w) with (D' ++ [32] ++ w).
              rewrite !adv_app. now apply unit_names_word.
        -- apply plain_app.
           ++ apply plain_digits; [simpl; now apply digit_word|exact Hall].
           ++ apply plain_nondigits. constructor; [reflexivity|].
              pose proof (unit_names_letters w Hin) as Hlet.
              eapply Forall_impl; [|exact Hlet]. simpl. tauto.
    + rewrite Hs. cbn [tight_free]. apply andb_true_iff. split.
      * apply negb_true_iff. now apply units_step_copy_not_tight.
      * apply IH. simpl in Hn. lia.
Qed.

(** *** The first word decides *)

Lemma cut_cons c s :
  cut (c :: s) = if is_space c then [] else c :: cut s.
Proof.
  unfold cut. simpl. now destruct (is_space c).
Qed.

Lemma cut_digits s :
  take_while is_digit (cut s) = take_while is_digit s
  /\ drop_while is_digit (cut s) = cut (drop_while is_digit s).
Proof.
  induction s as [|c s [IH1 IH2]]; [now split|].
  rewrite cut_cons. destruct (is_digit c) eqn:Hc.
  - rewrite (digit_not_space c Hc). simpl. rewrite Hc, IH1, IH2. now split.
  - simpl. rewrite Hc. destruct (is_space c) eqn:Hs.
    + rewrite cut_cons, Hs. now split.
    + simpl. rewrite Hc, cut_cons, Hs. now split.
Qed.

Lemma starts_with_cut (w : text) :
  Forall (fun c => is_word c = true /\ is_digit c = false
                   /\ is_space c = false) w ->
  forall r,
  starts_with w (cut r) = starts_with w r
  /\ (starts_with w r = true ->
      skipn (length w) (cut r) = cut (skipn (length w) r)).
Proof.
  induction 1 as [|a w (_ & _ & Ha) _ IH]; intro r.
  - now split.
  - destruct r as [|x r]; [now split|].
    rewrite cut_cons. destruct (is_space x) eqn:Hx.
    + cbn [starts_with].
      assert (Hax : N.eqb a x = false).
      { apply N.eqb_neq. intros ->. congruence. }
      rewrite Hax. split; [reflexivity|discriminate].
    + cbn [starts_with length skipn]. destruct (IH r) as [-> Hk].
      split; [reflexivity|]. intro H.
      apply andb_true_iff in H as [_ H]. now apply Hk.
Qed.

Lemma word_at_cut r : word_at (cut r) = word_at r.
Proof.
  destruct r as [|c r]; [reflexivity|].
  rewrite cut_cons. destruct (is_space c) eqn:Hc; [|reflexivity].
  simpl. symmetry. now apply space_not_word.
Qed.

Lemma unit_at_cut r : unit_at (cut r) = unit_at r.
Proof.
  unfold unit_at. apply find_same. intros w Hin. unfold unit_test.
  destruct (starts_with_cut w (unit_names_letters w Hin) r) as [-> Hk].
  destruct (starts_with w r) eqn:Hs; [|reflexivity].
  now rewrite (Hk eq_refl), word_at_cut.
Qed.

Lemma tight_at_cut prev s : tight_at prev (cut s) = tight_at prev s.
Proof.
  unfold tight_at. destruct (cut_digits s) as [-> ->].
  now rewrite unit_at_cut.
Qed.

Lemma tight_at_same_cut prev s1 s2 :
  cut s1 = cut s2 -> tight_at prev s1 = tight_at prev s2.
Proof.
  intro H. now rewrite <- (tight_at_cut prev s1), H, tight_at_cut.
Qed.

Lemma cut_app_spaces x w :
  forallb is_space w = true -> cut (x ++ w) = cut x.
Proof.
  intro Hw. induction x as [|c x IH].
  - destruct w as [|a w]; [reflexivity|].
    simpl in Hw. apply andb_true_iff in Hw as [Ha _].
    simpl. now rewrite cut_cons, Ha.
  - cbn [app]. rewrite !cut_cons, IH. reflexivity.
Qed.

(** *** White space rewritten *)

Section Squeeze.
Variable q : cp -> bool.
Hypothesis q_space : forall c, q c = true -> is_space c = true.

Lemma cut_squeeze s : forall pv, cut (squeeze q pv s) = cut s.
Proof.
  induction s as [|c s IH]; intro pv; [reflexivity|].
  rewrite squeeze_cons. destruct (q c) eqn:Hq.
  - rewrite !cut_cons. change (is_space 32) with true.
    now rewrite (q_space c Hq).
  - rewrite !cut_cons, IH. reflexivity.
Qed.

Lemma tight_free_drop s :
  forall c, is_space c = true ->
  tight_free (Some c) s = true ->
  tight_free (Some 32) (drop_while q s) = true.
Proof.
  induction s as [|x s IH]; intros c Hc H; [reflexivity|].
  cbn [drop_while]. destruct (q x) eqn:Hx.
  - cbn [tight_free] in H. apply andb_true_iff in H as [_ H].
    apply (IH x); [now apply q_space|exact H].
  - rewrite (tight_free_prev (Some 32) (Some c)); [exact H|].
    simpl. rewrite (space_not_word c Hc). reflexivity.
Qed.

Lemma squeeze_tight_free t :
  forall prev pv,
  tight_free prev t = true -> tight_free prev (squeeze q pv t) = true.
Proof.
  enough (H : forall n t, (length t <= n)%nat ->
                          forall prev pv,
                          tight_free prev t = true ->
                          tight_free prev (squeeze q pv t) = true)
    by (intros prev pv; now apply (H (length t))).
  clear t. induction n as [|n IH]; intros t Hn prev pv Ht.
  - destruct t; [reflexivity|simpl in Hn; lia].
  - destruct t as [|c t]; [reflexivity|].
    rewrite squeeze_cons. cbn [tight_free] in Ht.
    apply andb_true_iff in Ht as [Hc Ht].
    destruct (q c) eqn:Hq.
    + cbn [tight_free]. rewrite tight_at_nondigit by reflexivity.
      cbn [negb andb]. apply IH.
      * pose proof (drop_while_length q t). simpl in Hn. lia.
      * apply (tight_free_drop t c); [now apply q_space|exact Ht].
    + cbn [tight_free]. apply andb_true_iff. split.
      * rewrite (tight_at_same_cut prev _ (c :: t)); [exact Hc|].
        now rewrite !cut_cons, cut_squeeze.
      * apply IH; [simpl in Hn; lia|exact Ht].
Qed.

End Squeeze.

Lemma tight_free_app_l a w :
  forallb is_space w = true ->
  forall prev, tight_free prev (a ++ w) = true -> tight_free prev a = true.
Proof.
  intro Hw. induction a as [|c a IH]; intros prev H; [reflexivity|].
  cbn [app tight_free] in H |- *. apply andb_true_iff in H as [Hc H].
  apply andb_true_iff. split; [|now apply IH].
  rewrite (tight_at_same_cut prev _ (c :: a ++ w)); [exact Hc|].
  change (c :: a ++ w) with ((c :: a) ++ w).
  now rewrite cut_app_spaces.
Qed.

Lemma adv_spaces w :
  forallb is_space w = true -> word_before (adv None w) = false.
Proof.
  intro H. destruct w as [|c w] using rev_ind; [reflexivity|].
  rewrite adv_last. rewrite forallb_app in H.
  apply andb_true_iff in H as [_ H]. simpl in H.
  apply andb_true_iff in H as [H _]. simpl. now apply space_not_word.
Qed.

Lemma strip_tight_free t :
  tight_free None t = true -> tight_free None (strip t) = true.
Proof.
  intro H. destruct (strip_split t) as (w1 & w2 & Ht & Hw1 & Hw2).
  rewrite Ht in H. apply tight_free_app_r in H.
  rewrite (tight_free_prev _ None) in H by now apply adv_spaces.
  now apply (tight_free_app_l _ w2).
Qed.

(** *** The units step on a tidy text *)

Lemma loose_run W r :
  forallb is_space W = true -> loose_spaced (W ++ r) = true ->
  head_space r = false -> W = [] \/ W = [32].
Proof.
  intros HW Hl Hr. destruct W as [|x W]; [now left|]. right.
  simpl in HW. apply andb_true_iff in HW as [Hx HW].
  cbn [app loose_spaced] in Hl. rewrite Hx in Hl.
  apply andb_true_iff in Hl as [Hl _].
  apply andb_true_iff in Hl as [H32 Hh].
  apply N.eqb_eq in H32. subst x. apply negb_true_iff in Hh.
  destruct W as [|y W]; [reflexivity|].
  simpl in HW, Hh. apply andb_true_iff in HW as [Hy _]. congruence.
Qed.

Lemma units_step_id t :
  forall prev,
  tight_free prev t = true -> loose_spaced t = true ->
  units_step prev t = t.
Proof.
  enough (H : forall n t, (length t <= n)%nat ->
                          forall prev,
                          tight_free prev t = true ->
                          loose_spaced t = true ->
                          units_step prev t = t)
    by (intro prev; now apply (H (length t))).
  clear t. induction n as [|n IH]; intros t Hn prev Ht Hl.
  - destruct t; [reflexivity|simpl in Hn; lia].
  - destruct t as [|c t]; [reflexivity|].
    pose proof (units_step_cons prev c t) as Hs.
    destruct (units_match prev (c :: t)) as [[[D w] rest]|] eqn:Hu.
    + destruct Hs as (pv & Hpv & Hs). rewrite Hs.
      apply units_match_some in Hu
        as (Hp & HD & Hne & Hin & Hw & Hstrip & W & HW & Hdrop & Hsplit).
      assert (Hlen : (length rest <= n)%nat).
      { apply (f_equal (@length cp)) in Hsplit.
        rewrite !length_app in Hsplit. simpl in Hsplit, Hn.
        destruct D; [congruence|]. simpl in Hsplit. lia. }
      rewrite Hsplit in Ht, Hl.
      assert (HlW : loose_spaced (W ++ w ++ rest) = true)
        by now apply loose_spaced_app_r in Hl.
      assert (Hhead : head_space (w ++ rest) = false).
      { pose proof (unit_names_letters w Hin) as Hlet.
        pose proof (unit_names_nonempty w Hin) as Hnw.
        destruct w as [|a w]; [congruence|]. inversion Hlet; subst.
        simpl. tauto. }
      destruct (loose_run W (w ++ rest) HW HlW Hhead) as [->| ->].
      * exfalso. cbn [app] in Hdrop.
        assert (Htight : tight_at prev (D ++ w ++ rest) = true).
        { unfold tight_at. rewrite Hp. cbn [negb andb].
          cbn [app] in Hsplit. rewrite <- Hsplit, <- HD, Hdrop.
          destruct D; [congruence|].
          rewrite Hdrop in Hstrip.
          rewrite (lstrip_id _ Hhead) in Hstrip.
          assert (Hf : unit_at (w ++ rest) <> None).
          { apply (unit_at_found _ w Hin).
            - apply starts_with_spec. now exists rest.
            - rewrite skipn_app, Nat.sub_diag, skipn_all. exact Hw. }
          destruct (unit_at (w ++ rest)); [reflexivity|congruence]. }
        cbn [app] in Ht. destruct D as [|d D']; [congruence|].
        cbn [app tight_free] in Ht. apply andb_true_iff in Ht as [Ht _].
        cbn [app] in Htight. rewrite Htight in Ht. discriminate.
      * rewrite Hsplit. do 3 f_equal.
        apply IH; [exact Hlen| |].
        -- assert (Ht' : tight_free prev ((D ++ [32] ++ w) ++ rest) = true)
             by (rewrite <- !app_assoc; exact Ht).
           apply tight_free_app_r in Ht'.
           rewrite (tight_free_prev pv (adv prev (D ++ [32] ++ w)));
             [exact Ht'|].
           rewrite Hpv, !adv_app. symmetry. now apply unit_names_word.
        -- now do 2 apply loose_spaced_app_r in HlW.
    + rewrite Hs. f_equal. cbn [tight_free] in Ht.
      apply andb_true_iff in Ht as [_ Ht].
      cbn [loose_spaced] in Hl. apply andb_true_iff in Hl as [_ Hl].
      apply IH; [simpl in Hn; lia|exact Ht|exact Hl].
Qed.

End TightScan.

(** ** Counting what a rule removes *)

Section CountFacts.
Context {U : UnicodeData}.

Lemma count_app Q a b : count Q (a ++ b) = (count Q a + count Q b)%nat.
Proof.
  unfold count. now rewrite filter_app, length_app.
Qed.

Lemma count_cons Q c t :
  count Q (c :: t) = ((if Q c then 1 else 0) + count Q t)%nat.
Proof.
  unfold count. simpl. now destruct (Q c).
Qed.

Lemma count_lacks Q t : lacks Q t -> count Q t = 0%nat.
Proof.
  induction 1 as [|c t Hc _ IH]; [reflexivity|].
  now rewrite count_cons, Hc, IH.
Qed.

Lemma count_zero_lacks Q t : count Q t = 0%nat -> lacks Q t.
Proof.
  induction t as [|c t IH]; [constructor|].
  rewrite count_cons. destruct (Q c) eqn:Hc; [discriminate|].
  intro H. constructor; [exact Hc|now apply IH].
Qed.

Lemma count_occurs Q t pre : occurs t pre -> (count Q t <= count Q pre)%nat.
Proof.
  intros (a & b & ->). rewrite !count_app. lia.
Qed.

Lemma occurs_refl t : occurs t t.
Proof.
  exists [], []. now rewrite app_nil_r.
Qed.

Lemma occurs_app_l t a b : occurs t a -> occurs t (a ++ b).
Proof.
  intros (x & y & ->). exists x, (y ++ b). now rewrite <- !app_assoc.
Qed.

Lemma occurs_app_r t a b : occurs t b -> occurs t (a ++ b).
Proof.
  intros (x & y & ->). exists (a ++ x), y. now rewrite <- !app_assoc.
Qed.

Lemma occurs_cons t c a : occurs t a -> occurs t (c :: a).
Proof.
  apply (occurs_app_r t [c] a).
Qed.

Lemma firstn_length_app (pre s' : text) :
  firstn (length (pre ++ s') - length s') (pre ++ s') = pre.
Proof.
  rewrite length_app.
  replace (length pre + length s' - length s')%nat with (length pre) by lia.
  rewrite firstn_app, Nat.sub_diag, firstn_all, firstn_O. apply app_nil_r.
Qed.

(** What a successful match has read, counted, and where its groups lie. *)
Lemma rmatch_reads (R : Type) (r : regex) :
  forall prev s g (k : option cp -> text -> groups -> option R) res,
  rmatch r prev s g k = Some res ->
  exists pre s' g',
    s = pre ++ s'
    /\ k (adv prev pre) s' g' = Some res
    /\ (forall Q, (min_reads Q r <= count Q pre)%nat)
    /\ (forall n t, In (n, t) g' -> In (n, t) g \/ occurs t pre).
Proof.
  induction r as [|c|p|ml| |r1 IH1 r2 IH2|r1 IH1 r2 IH2|n r1 IH1|greedy plus p];
    intros prev s g k res H; simpl in H.
  - exists [], s, g. simpl. repeat split; auto.
  - destruct s as [|x s]; [discriminate|].
    destruct (N.eqb x c) eqn:Hx; [|discriminate].
    apply N.eqb_eq in Hx. subst x.
    exists [c], s, g. simpl. repeat split; auto.
    intro Q. rewrite count_cons. destruct (Q c); simpl; lia.
  - destruct s as [|x s]; [discriminate|].
    destruct (p x) eqn:Hx; [|discriminate].
    exists [x], s, g. simpl. repeat split; auto. intro Q. lia.
  - destruct (at_line_start ml prev); [|discriminate].
    exists [], s, g. simpl. repeat split; auto.
  - destruct (xorb (word_before prev) (word_at s)); [|discriminate].
    exists [], s, g. simpl. repeat split; auto.
  - apply IH1 in H as (pre1 & s1 & g1 & -> & H & Hc1 & Hg1).
    apply IH2 in H as (pre2 & s2 & g2 & -> & H & Hc2 & Hg2).
    exists (pre1 ++ pre2), s2, g2.
    rewrite <- app_assoc, adv_app. repeat split; auto.
    + intro Q. rewrite count_app. specialize (Hc1 Q). specialize (Hc2 Q).
      cbn [min_reads]. lia.
    + intros m t Hin. destruct (Hg2 m t Hin) as [Hin1|Hi].
      * destruct (Hg1 m t Hin1) as [Hin0|Hi]; [now left|].
        right. now apply occurs_app_l.
      * right. now apply occurs_app_r.
  - destruct (rmatch r1 prev s g k) as [x|] eqn:H1.
    + injection H as <-.
      apply IH1 in H1 as (pre & s' & g' & -> & H & Hc & Hg).
      exists pre, s', g'. repeat split; auto.
      intro Q. specialize (Hc Q). cbn [min_reads]. lia.
    + apply IH2 in H as (pre & s' & g' & -> & H & Hc & Hg).
      exists pre, s', g'. repeat split; auto.
      intro Q. specialize (Hc Q). cbn [min_reads]. lia.
  - apply IH1 in H as (pre & s' & g' & -> & H & Hc & Hg).
    rewrite firstn_length_app in H.
    exists pre, s', ((n, pre) :: g'). repeat split; auto.
    intros m t [Heq|Hin].
    + injection Heq as <- <-. right. apply occurs_refl.
    + now apply Hg.
  - destruct plus.
    + destruct s as [|x s]; [discriminate|].
      destruct (p x) eqn:Hx; [|discriminate].
      assert (exists pre s', s = pre ++ s' /\ forallb p pre = true
                             /\ k (adv (Some x) pre) s' g = Some res)
        as (pre & s' & -> & Hall & Hk).
      { destruct greedy; [apply rep_greedy_inv in H|apply rep_lazy_inv in H];
          exact H. }
      exists (x :: pre), s', g. simpl. repeat split; auto. intro Q. lia.
    + assert (exists pre s', s = pre ++ s' /\ forallb p pre = true
                             /\ k (adv prev pre) s' g = Some res)
        as (pre & s' & -> & Hall & Hk).
      { destruct greedy; [apply rep_greedy_inv in H|apply rep_lazy_inv in H];
          exact H. }
      exists pre, s', g. repeat split; auto. intro Q. simpl. lia.
Qed.

Lemma match_here_reads (r : regex) prev s g rest :
  match_here r prev s = Some (g, rest) ->
  exists pre,
    s = pre ++ rest
    /\ (forall Q, (min_reads Q r <= count Q pre)%nat)
    /\ groups_in pre g.
Proof.
  unfold match_here. intro H.
  apply rmatch_reads in H as (pre & s' & g' & -> & H & Hc & Hg).
  injection H as <- <-. exists pre. repeat split; auto.
  intros n t Hin. destruct (Hg n t Hin) as [[]|Hi]. exact Hi.
Qed.

(** A pattern that reads more characters of a class than the text has
    matches nowhere in it. *)
Lemma match_here_short (Q : cp -> bool) r prev s :
  (count Q s < min_reads Q r)%nat -> match_here r prev s = None.
Proof.
  intro Hlt.
  destruct (match_here r prev s) as [[g rest]|] eqn:H; [|reflexivity].
  apply match_here_reads in H as (pre & -> & Hc & _).
  specialize (Hc Q). rewrite count_app in Hlt. lia.
Qed.

Lemma sub_scan_short_id (Q : cp -> bool) r tpl (t : text) :
  (count Q t < min_reads Q r)%nat ->
  forall prev, sub_scan r tpl prev 0 t = t.
Proof.
  induction t as [|c t IH]; intros Hlt prev; [reflexivity|].
  rewrite sub_scan_nomatch.
  - f_equal. apply IH. rewrite count_cons in Hlt. lia.
  - now apply (match_here_short Q).
Qed.

End CountFacts.

(** ** Rules that take markers away *)

Section CountScan.
Context {U : UnicodeData}.

Lemma group_count Q n g pre :
  groups_in pre g -> (count Q (group n g) <= count Q pre)%nat.
Proof.
  induction g as [|[m t] g IH]; intro Hg; simpl.
  - unfold count. simpl. lia.
  - destruct (Nat.eqb m n).
    + apply count_occurs. apply (Hg m t). now left.
    + apply IH. intros k u Hin. apply (Hg k u). now right.
Qed.

Lemma expand_count Q tpl g pre :
  tpl_ok (fun c => Q c = false) tpl -> groups_in pre g ->
  (count Q (expand tpl g) <= refs tpl * count Q pre)%nat.
Proof.
  intros Ht Hg. induction Ht as [|[l|n] tpl Hi _ IH]; simpl.
  - unfold count. simpl. lia.
  - rewrite count_app, (count_lacks Q l Hi). exact IH.
  - rewrite count_app. pose proof (group_count Q n g pre Hg). lia.
Qed.

(** A rule that writes no character of [Q] of its own and copies at most
    one group leaves no more characters of [Q] than it found. *)
Lemma sub_scan_count_le Q r tpl :
  tpl_ok (fun c => Q c = false) tpl -> (refs tpl <= 1)%nat ->
  forall t prev n,
  (count Q (sub_scan r tpl prev n t) <= count Q (skipn n t))%nat.
Proof.
  intros Htpl Hrefs. induction t as [|c t IH]; intros prev n.
  - rewrite skipn_nil. simpl. lia.
  - cbn [sub_scan]. destruct n as [|n]; [|apply IH].
    cbn [skipn].
    destruct (match_here r prev (c :: t)) as [[g rest]|] eqn:Hm.
    + apply match_here_reads in Hm as (pre & Hs & _ & Hg).
      destruct pre as [|x pre].
      * simpl in Hs. subst rest. rewrite Nat.sub_diag.
        rewrite !count_cons. specialize (IH (Some c) 0%nat).
        cbn [skipn] in IH. lia.
      * rewrite Hs. cbn [length app]. rewrite length_app.
        replace (S (length pre + length rest) - length rest)%nat
          with (S (length pre)) by lia.
        injection Hs as -> ->.
        specialize (IH (Some x) (length pre)).
        rewrite skipn_app, Nat.sub_diag, skipn_all, skipn_O in IH.
        pose proof (expand_count Q tpl g (x :: pre) Htpl Hg) as He.
        rewrite count_app.
        change (x :: pre ++ rest) with ((x :: pre) ++ rest).
        rewrite (count_app Q (x :: pre) rest).
        cbn [app] in IH. nia.
    + rewrite !count_cons. specialize (IH (Some c) 0%nat).
      cbn [skipn] in IH. lia.
Qed.

Lemma re_sub_count_le Q r tpl t :
  tpl_ok (fun c => Q c = false) tpl -> (refs tpl <= 1)%nat ->
  (count Q (re_sub r tpl t) <= count Q t)%nat.
Proof.
  intros Htpl Hrefs. apply (sub_scan_count_le Q r tpl Htpl Hrefs t None 0%nat).
Qed.

(** A match that writes fewer characters of [Q] than it reads makes the
    text poorer in them. *)
Lemma sub_scan_count_lt Q r tpl prev pre rest g :
  tpl_ok (fun c => Q c = false) tpl -> (refs tpl <= 1)%nat ->
  match_here r prev (pre ++ rest) = Some (g, rest) -> pre <> [] ->
  (count Q (expand tpl g) < count Q pre)%nat ->
  (count Q (sub_scan r tpl prev 0 (pre ++ rest)) < count Q (pre ++ rest))%nat.
Proof.
  intros Htpl Hrefs Hm Hne Hlt.
  rewrite (sub_scan_match r tpl prev pre rest g Hm Hne), !count_app.
  pose proof (sub_scan_count_le Q r tpl Htpl Hrefs rest (adv prev pre) 0%nat)
    as Hle.
  cbn [skipn] in Hle. lia.
Qed.

(** The scan copies a stretch in which no match can start. *)
Lemma sub_scan_copy Q r tpl :
  head_needs Q r ->
  forall a prev b,
  lacks Q a ->
  sub_scan r tpl prev 0 (a ++ b) = a ++ sub_scan r tpl (adv prev a) 0 b.
Proof.
  intros Hh. induction a as [|c a IH]; intros prev b Ha; [reflexivity|].
  inversion Ha as [|c' a' Hc Ha']; subst.
  cbn [app]. rewrite sub_scan_nomatch by now apply Hh.
  cbn [adv]. f_equal. now apply IH.
Qed.

Lemma split_first Q (t : text) :
  (1 <= count Q t)%nat ->
  exists a c b, t = a ++ c :: b /\ lacks Q a /\ Q c = true.
Proof.
  induction t as [|x t IH]; intro H.
  - unfold count in H. simpl in H. lia.
  - destruct (Q x) eqn:Hx.
    + exists [], x, t. repeat split; [constructor|exact Hx].
    + rewrite count_cons, Hx in H.
      destruct (IH H) as (a & c & b & -> & Ha & Hc).
      exists (x :: a), c, b. repeat split; [now constructor|exact Hc].
Qed.

Lemma rep_lazy_complete (R : Type) (p : cp -> bool) (k : kont R) pre s' :
  forallb p pre = true ->
  forall prev,
  k (adv prev pre) s' <> None -> rep_lazy p k prev (pre ++ s') <> None.
Proof.
  induction pre as [|c pre IH]; intros Hall prev Hk.
  - simpl in *. destruct s'; simpl; destruct (k prev _); congruence.
  - simpl in Hall. apply andb_true_iff in Hall as [Hc Hall].
    cbn [app rep_lazy]. destruct (k prev (c :: pre ++ s')); [discriminate|].
    rewrite Hc. now apply IH.
Qed.

Lemma italic_delimited : re_italic = delimited 42.
Proof.
  reflexivity.
Qed.

Lemma underline_delimited : re_underline = delimited 95.
Proof.
  reflexivity.
Qed.

Lemma delimited_head d : head_needs (is_char d) (delimited d).
Proof.
  intros prev c s Hc. unfold is_char in Hc. rewrite N.eqb_sym in Hc.
  unfold match_here. cbn. now rewrite Hc.
Qed.

(** What a match of [delimited d] reads and captures. *)
Lemma match_delimited d prev s g rest :
  match_here (delimited d) prev s = Some (g, rest) ->
  exists inner, s = d :: inner ++ d :: rest /\ group 1 g = inner.
Proof.
  unfold match_here. cbn [delimited re_seq fold_right rmatch].
  destruct s as [|x s]; [discriminate|].
  destruct (N.eqb_spec x d) as [->|]; [|discriminate].
  unfold any_lazy. cbn [rmatch]. intro H.
  apply rep_lazy_inv in H as (pre & s' & -> & _ & H).
  destruct s' as [|y s']; [discriminate|].
  destruct (N.eqb_spec y d) as [->|]; [|discriminate].
  injection H as <- <-.
  exists pre. split; [reflexivity|].
  cbn [group Nat.eqb]. apply (firstn_length_app pre (d :: s')).
Qed.

Lemma delimited_matches d prev inner b :
  forallb is_dot inner = true ->
  match_here (delimited d) prev (d :: inner ++ d :: b) <> None.
Proof.
  intro Hall. unfold match_here. cbn [delimited re_seq fold_right rmatch].
  rewrite N.eqb_refl. unfold any_lazy. cbn [rmatch].
  apply rep_lazy_complete; [exact Hall|].
  rewrite N.eqb_refl. discriminate.
Qed.

Lemma lacks_app Q (a b : text) : lacks Q (a ++ b) <-> lacks Q a /\ lacks Q b.
Proof.
  apply Forall_app.
Qed.

Lemma lacks_newline_dots (t : text) :
  lacks (is_char 10) t -> forallb is_dot t = true.
Proof.
  intro H. apply forallb_forall. intros c Hc.
  unfold lacks in H. rewrite Forall_forall in H. specialize (H c Hc).
  unfold is_char in H. unfold is_dot. rewrite N.eqb_sym. now rewrite H.
Qed.

(** On a line with two delimiters the rule takes a pair of them away. *)
Lemma delimited_step_lt d (t : text) :
  lacks (is_char 10) t -> (2 <= count (is_char d) t)%nat ->
  (count (is_char d) (re_sub (delimited d) [TRef 1] t)
   < count (is_char d) t)%nat.
Proof.
  intros Hnl H2.
  destruct (split_first (is_char d) t) as (a & c & b & -> & Ha & Hc); [lia|].
  unfold is_char in Hc. apply N.eqb_eq in Hc. subst c.
  rewrite count_app, count_cons, (count_lacks _ a Ha) in H2.
  unfold is_char at 1 in H2. rewrite N.eqb_refl in H2.
  destruct (split_first (is_char d) b) as (inner & c & b' & -> & Hi & Hc);
    [lia|].
  unfold is_char in Hc. apply N.eqb_eq in Hc. subst c.
  apply lacks_app in Hnl as [_ Hnl].
  inversion Hnl as [|x y _ Hnl']; subst.
  apply lacks_app in Hnl' as [Hnl' _].
  unfold re_sub.
  rewrite (sub_scan_copy (is_char d) _ _ (delimited_head d) a None _ Ha).
  rewrite !count_app, (count_lacks _ a Ha). cbn [Nat.add].
  destruct (match_here (delimited d) (adv None a) (d :: inner ++ d :: b'))
    as [[g rest]|] eqn:Hm.
  2:{ exfalso. revert Hm. apply delimited_matches.
      now apply lacks_newline_dots. }
  pose proof Hm as Hm'.
  apply match_delimited in Hm' as (inner' & Hs & Hg).
  rewrite Hs in Hm |- *.
  replace (d :: inner' ++ d :: rest) with ((d :: inner' ++ [d]) ++ rest)
    in Hm |- * by (cbn [app]; now rewrite <- app_assoc).
  apply (sub_scan_count_lt (is_char d) _ _ _ _ _ g).
  - repeat constructor.
  - simpl. lia.
  - exact Hm.
  - discriminate.
  - cbn [expand]. rewrite Hg, app_nil_r, count_cons, count_app.
    unfold is_char at 2. rewrite N.eqb_refl. lia.
Qed.

End CountScan.

(** ** The rules one after the other *)

Section RuleFacts.
Context {U : UnicodeData}.

Lemma clean_rules (x : text) : clean_response_for_speech x = run rules x.
Proof.
  reflexivity.
Qed.

Lemma run_app fs gs t : run (fs ++ gs) t = run gs (run fs t).
Proof.
  apply fold_left_app.
Qed.

Lemma run_fixed fs y : Forall (fun f => f y = y) fs -> run fs y = y.
Proof.
  induction 1 as [|f fs Hf _ IH]; [reflexivity|].
  simpl. now rewrite Hf.
Qed.

Lemma run_count_le Q fs :
  Forall (keeps_count Q) fs -> forall t, (count Q (run fs t) <= count Q t)%nat.
Proof.
  induction 1 as [|f fs Hf _ IH]; intro t; [apply Nat.le_refl|].
  simpl. eapply Nat.le_trans; [apply IH|apply Hf].
Qed.

(** Once a character of [Q] is lost, no later rule brings it back. *)
Lemma run_count_lt Q fs gs y :
  Forall (keeps_count Q) gs ->
  (count Q (run fs y) < count Q y)%nat ->
  (count Q (run (fs ++ gs) y) < count Q y)%nat.
Proof.
  intros Hg Hlt. rewrite run_app.
  pose proof (run_count_le Q gs Hg (run fs y)). lia.
Qed.

Lemma units_step_count_le Q :
  Q 32 = false ->
  forall n t prev,
  (length t <= n)%nat -> (count Q (units_step prev t) <= count Q t)%nat.
Proof.
  intro H32. induction n as [|n IH]; intros t prev Hl.
  - destruct t; [apply Nat.le_refl|simpl in Hl; lia].
  - destruct t as [|c t]; [apply Nat.le_refl|].
    pose proof (units_step_cons prev c t) as Hs.
    destruct (units_match prev (c :: t)) as [[[D w] rest]|] eqn:Hu.
    + destruct Hs as (pv & _ & ->).
      apply units_match_some in Hu
        as (_ & _ & HD & _ & _ & _ & W & _ & _ & Hs).
      rewrite Hs, !count_app.
      assert (Hsp : count Q [32] = 0%nat)
        by (unfold count; simpl; now rewrite H32).
      rewrite Hsp.
      assert (Hr : (length rest <= n)%nat).
      { apply (f_equal (@length cp)) in Hs. rewrite !length_app in Hs.
        simpl in Hs, Hl. destruct D; [congruence|simpl in Hs; lia]. }
      specialize (IH rest pv Hr). lia.
    + rewrite Hs, !count_cons.
      assert (Hr : (length t <= n)%nat) by (simpl in Hl; lia).
      specialize (IH t (Some c) Hr). lia.
Qed.

Lemma strip_count_le Q t : (count Q (strip t) <= count Q t)%nat.
Proof.
  destruct (strip_split t) as (w1 & w2 & H & _).
  rewrite H at 2. rewrite !count_app. lia.
Qed.

Lemma marker_tpl (Q : cp -> bool) tpl :
  (forall c, Q c = true -> is_marker c = true) ->
  tpl_ok (fun c => is_marker c = false) tpl ->
  tpl_ok (fun c => Q c = false) tpl.
Proof.
  intros Hq Ht. unfold tpl_ok in *.
  eapply Forall_impl; [|exact Ht].
  intros [l|n] Hi; [|exact I].
  eapply Forall_impl; [|exact Hi].
  intros c Hc. destruct (Q c) eqn:E; [|reflexivity].
  apply Hq in E. congruence.
Qed.

(** No rule adds an asterisk, an underscore or a bullet. *)
Lemma rules_keep_markers (Q : cp -> bool) :
  (forall c, Q c = true -> is_marker c = true) ->
  Forall (keeps_count Q) rules.
Proof.
  intro Hq.
  assert (H32 : Q 32 = false).
  { destruct (Q 32) eqn:E; [|reflexivity]. apply Hq in E. discriminate. }
  unfold rules.
  repeat (apply Forall_cons; [|]); try apply Forall_nil;
    try (intro t; apply re_sub_count_le;
         [apply (marker_tpl Q _ Hq); repeat constructor|simpl; lia]).
  - intro t. apply (units_step_count_le Q H32 (length t) t None).
    apply Nat.le_refl.
  - intro t. apply strip_count_le.
Qed.

(** *** The rule for a bullet at the start of a line *)

Lemma bullet_line_inside tpl (t : text) :
  lacks (is_char 10) t ->
  forall c, N.eqb c 10 = false ->
  sub_scan re_bullet_line tpl (Some c) 0 t = t.
Proof.
  induction 1 as [|x t Hx _ IH]; intros c Hc; [reflexivity|].
  rewrite sub_scan_nomatch.
  - f_equal. apply IH. unfold is_char in Hx. now rewrite N.eqb_sym.
  - unfold match_here.
    cbn [re_bullet_line re_seq fold_right rmatch at_line_start andb].
    now rewrite Hc.
Qed.

Lemma bullet_line_fixed tpl (y : text) :
  lacks (is_char 10) y -> head_space y = false ->
  match y with c :: _ => is_bullet c = false | [] => True end ->
  re_sub re_bullet_line tpl y = y.
Proof.
  intros Hnl Hsp Hb. destruct y as [|c y]; [reflexivity|].
  inversion Hnl as [|c' y' Hc Hy]; subst.
  unfold re_sub. rewrite sub_scan_nomatch.
  - f_equal. apply bullet_line_inside; [exact Hy|].
    unfold is_char in Hc. now rewrite N.eqb_sym.
  - simpl in Hsp. unfold match_here.
    cbn [re_bullet_line re_seq fold_right rmatch at_line_start spaces
         rep_greedy].
    now rewrite Hsp, Hb.
Qed.

Lemma bullet_not_space c : is_bullet c = true -> is_space c = false.
Proof.
  unfold is_bullet, cp_in. simpl. intro H.
  repeat (apply orb_true_iff in H as [H|H]);
    try (apply N.eqb_eq in H; subst c; reflexivity); discriminate.
Qed.

Lemma bullet_line_match c (t : text) :
  is_bullet c = true ->
  match_here re_bullet_line None (c :: t)
  = Some ([], drop_while is_space t).
Proof.
  intro Hb. unfold match_here.
  cbn [re_bullet_line re_seq fold_right rmatch at_line_start spaces
       rep_greedy].
  rewrite (bullet_not_space c Hb), Hb.
  apply (rep_greedy_all _ is_space (fun sv => ([], sv))).
Qed.

(** A bullet in front of the text is taken away. *)
Lemma bullet_line_lt c (t : text) :
  is_bullet c = true ->
  (count (is_char c) (re_sub re_bullet_line [] (c :: t))
   < count (is_char c) (c :: t))%nat.
Proof.
  intro Hb. pose proof (bullet_line_match c t Hb) as Hm.
  rewrite <- (take_drop is_space t) in Hm at 1.
  rewrite <- (take_drop is_space t) at 1 2.
  change (c :: take_while is_space t ++ drop_while is_space t)
    with ((c :: take_while is_space t) ++ drop_while is_space t) in Hm |- *.
  unfold re_sub.
  apply (sub_scan_count_lt (is_char c) _ _ _ _ _ []).
  - constructor.
  - simpl. lia.
  - exact Hm.
  - discriminate.
  - cbn [expand]. rewrite count_cons. unfold is_char at 2.
    rewrite N.eqb_refl. unfold count at 1. simpl. lia.
Qed.

End RuleFacts.

(** ** The normaliser *)

Section NormaliserFacts.
Context {U : UnicodeData}.

Lemma clean_in_stages (x : text) :
  clean_response_for_speech x
  = space_steps (percent_step (before_percent x)).
Proof.
  reflexivity.
Qed.

Lemma lacks_either Qa Qb t :
  lacks Qa t -> lacks Qb t -> lacks (either Qa Qb) t.
Proof.
  unfold lacks, either. intros Ha Hb. induction Ha as [|c t Hc Ha IH].
  - constructor.
  - inversion Hb; subst. constructor; [|now apply IH].
    now rewrite Hc.
Qed.

Lemma lacks_weaken (Q Q' : cp -> bool) t :
  (forall c, Q c = false -> Q' c = false) -> lacks Q t -> lacks Q' t.
Proof.
  intros H Ht. eapply Forall_impl; [|exact Ht]. exact H.
Qed.

(** A rule that removes what it is aimed at and keeps out what was out. *)
Lemma rule_adds (Qa Qb Q' : cp -> bool) r tpl t :
  lacks Qa t ->
  tpl_ok (fun c => Qa c = false) tpl ->
  (forall prev c s, Qb c = true -> match_here r prev (c :: s) <> None) ->
  needs Q' r ->
  (forall g, lacks Qb (expand tpl g)) ->
  lacks (either Qa Qb) (re_sub r tpl t).
Proof.
  intros Ha Htpl Hm Hn Hg. apply lacks_either.
  - now apply re_sub_Forall.
  - now apply (sub_scan_excludes Qb Q').
Qed.

Lemma match_class p prev c s :
  p c = true -> match_here (Cls p) prev (c :: s) <> None.
Proof.
  intro H. unfold match_here. simpl. rewrite H. discriminate.
Qed.

Lemma match_slash prev c s :
  is_char 47 c = true -> match_here re_slash prev (c :: s) <> None.
Proof.
  unfold is_char. intro H. apply N.eqb_eq in H. subst c. discriminate.
Qed.

Lemma match_hyphen prev c s :
  is_char 45 c = true -> match_here re_hyphen prev (c :: s) <> None.
Proof.
  unfold is_char. intro H. apply N.eqb_eq in H. subst c.
  unfold match_here. cbn.
  apply (rep_greedy_total _ is_space (fun sv => ([], sv))).
Qed.

Lemma match_space prev c s :
  (is_space c && negb (N.eqb c 32))%bool = true ->
  match_here re_whitespace prev (c :: s) <> None.
Proof.
  intro H. apply andb_true_iff in H as [H _].
  unfold re_whitespace. rewrite match_run, H. discriminate.
Qed.

Lemma out5_stripped c : out5 c = is_stripped c.
Proof.
  reflexivity.
Qed.

Lemma symbol_steps_lack t : lacks out4 (symbol_steps t).
Proof.
  unfold symbol_steps. cbv zeta.
  apply (rule_adds out3 (is_char 45) (is_char 45));
    [|repeat constructor|apply match_hyphen|apply needs_hyphen
     |intro g; repeat constructor].
  apply (rule_adds out2 (is_char 47) (is_char 47));
    [|repeat constructor|apply match_slash|apply needs_slash
     |intro g; repeat constructor].
  apply re_sub_Forall; [|repeat constructor].
  apply (rule_adds is_symbol is_punct is_punct);
    [|constructor|apply match_class|apply needs_punct|intro g; constructor].
  apply (sub_scan_excludes is_symbol is_symbol);
    [apply match_class|apply needs_symbol|intro g; constructor].
Qed.

Lemma before_percent_lacks x : lacks out4 (before_percent x).
Proof.
  unfold before_percent. apply re_sub_Forall; [apply symbol_steps_lack|].
  repeat constructor.
Qed.

Lemma out4_percent c : out4 c = false -> is_char 37 c = false.
Proof.
  unfold is_char. intro H. destruct (N.eqb_spec 37 c); [|reflexivity].
  subst c. discriminate.
Qed.

(** The percent rule finds no percent sign: the first stripped class has
    taken them all. *)
Lemma percent_step_does_nothing x :
  percent_step (before_percent x) = before_percent x.
Proof.
  unfold percent_step.
  apply (re_sub_needs_id (is_char 37)); [apply needs_percent|].
  apply (lacks_weaken out4); [apply out4_percent|apply before_percent_lacks].
Qed.

Lemma newline_is_space c : N.eqb 10 c = true -> is_space c = true.
Proof.
  intro H. apply N.eqb_eq in H. now subst c.
Qed.

Lemma lacks_strip Q t : lacks Q t -> lacks Q (strip t).
Proof.
  intro H. destruct (strip_split t) as (w1 & w2 & Ht & _ & _).
  unfold lacks in *. rewrite Ht in H.
  apply Forall_app in H as [_ H]. now apply Forall_app in H as [H _].
Qed.

Lemma space_steps_lack t : lacks out4 t -> lacks is_stripped (space_steps t).
Proof.
  intro H. unfold space_steps. apply lacks_strip.
  apply (rule_adds out4 _ is_space);
    [|repeat constructor|apply match_space|apply needs_whitespace
     |intro g; repeat constructor].
  apply re_sub_Forall; [exact H|repeat constructor].
Qed.

Lemma space_steps_tidy t : tidy (space_steps t).
Proof.
  unfold space_steps. apply strip_tidy.
  apply (squeeze_space_loose _ None).
Qed.

Lemma space_steps_tight_free t :
  tight_free None t = true -> tight_free None (space_steps t) = true.
Proof.
  intro H. unfold space_steps. apply strip_tight_free.
  apply (squeeze_tight_free is_space); [auto|].
  apply (squeeze_tight_free (N.eqb 10)); [apply newline_is_space|exact H].
Qed.

(** The shape of every normalised text. *)
Lemma normalised_shape (x : text) :
  lacks is_stripped (clean_response_for_speech x)
  /\ tidy (clean_response_for_speech x)
  /\ tight_free None (clean_response_for_speech x) = true.
Proof.
  rewrite clean_in_stages, percent_step_does_nothing.
  split; [|split].
  - apply space_steps_lack, before_percent_lacks.
  - apply space_steps_tidy.
  - apply space_steps_tight_free. apply (units_step_tight_free _ None).
Qed.

Lemma lacks_class (Q : cp -> bool) (t : text) :
  (forall c, is_stripped c = false -> Q c = false) ->
  lacks is_stripped t -> lacks Q t.
Proof.
  intro H. now apply lacks_weaken.
Qed.

Lemma stripped_symbol c : is_stripped c = false -> is_symbol c = false.
Proof.
  unfold is_stripped. intro H.
  do 4 (apply orb_false_iff in H as [H _]). exact H.
Qed.

Lemma stripped_punct c : is_stripped c = false -> is_punct c = false.
Proof.
  unfold is_stripped. intro H.
  do 3 (apply orb_false_iff in H as [H _]).
  now apply orb_false_iff in H as [_ H].
Qed.

Lemma lacks_stripped_char (k : cp) (t : text) :
  is_stripped k = true -> lacks is_stripped t -> lacks (is_char k) t.
Proof.
  intros Hk Hs. unfold lacks in *.
  rewrite Forall_forall in *. intros c Hc. unfold is_char.
  destruct (N.eqb_spec k c); [|reflexivity]. subst c.
  rewrite (Hs k Hc) in Hk. discriminate.
Qed.

(** The rules before the one for bullets leave a text alone that has no
    pair of asterisks and no pair of underscores. *)
Lemma early_rules_fixed (y : text) :
  lacks is_stripped y ->
  (count (is_char 42%N) y <= 1)%nat -> (count (is_char 95%N) y <= 1)%nat ->
  Forall (fun f => f y = y) (firstn 6 rules).
Proof.
  intros Hs H42 H95.
  assert (H96 : lacks (is_char 96%N) y) by now apply lacks_stripped_char.
  assert (H10 : lacks (is_char 10%N) y) by now apply lacks_stripped_char.
  assert (H46 : lacks (is_char 46%N) y) by now apply lacks_stripped_char.
  cbn [firstn rules]. repeat (apply Forall_cons; [|]); try apply Forall_nil.
  - apply (sub_scan_short_id (is_char 42%N)).
    change (min_reads (is_char 42%N) re_bold) with 4%nat. lia.
  - apply (sub_scan_short_id (is_char 42%N)).
    change (min_reads (is_char 42%N) re_italic) with 2%nat. lia.
  - apply (sub_scan_short_id (is_char 95%N)).
    change (min_reads (is_char 95%N) re_underline) with 2%nat. lia.
  - apply (re_sub_needs_id _ re_code _ y needs_code H96).
  - apply (re_sub_needs_id _ re_next_item _ y needs_next_item H10).
  - apply (re_sub_needs_id _ re_first_item _ y needs_first_item H46).
Qed.

(** The rules after the one for bullets leave every text of the normalised
    shape alone. *)
Lemma late_rules_fixed (y : text) :
  lacks is_stripped y -> tidy y -> tight_free None y = true ->
  Forall (fun f => f y = y) (skipn 7 rules).
Proof.
  intros Hs Htidy Htight.
  assert (H10 : lacks (is_char 10%N) y) by now apply lacks_stripped_char.
  assert (H58 : lacks (is_char 58%N) y) by now apply lacks_stripped_char.
  assert (H47 : lacks (is_char 47%N) y) by now apply lacks_stripped_char.
  assert (H45 : lacks (is_char 45%N) y) by now apply lacks_stripped_char.
  assert (H37 : lacks (is_char 37%N) y) by now apply lacks_stripped_char.
  assert (Hsym : lacks is_symbol y)
    by (apply lacks_class; [apply stripped_symbol|assumption]).
  assert (Hpun : lacks is_punct y)
    by (apply lacks_class; [apply stripped_punct|assumption]).
  destruct Htidy as (Hl & Hh & Hr).
  cbn [skipn rules]. repeat (apply Forall_cons; [|]); try apply Forall_nil.
  - apply (re_sub_needs_id _ re_bullet_next _ y needs_bullet_next H10).
  - apply (re_sub_needs_id _ _ _ y (needs_label "note") H58).
  - apply (re_sub_needs_id _ _ _ y (needs_label "important") H58).
  - apply (re_sub_needs_id _ _ _ y (needs_label "remember") H58).
  - apply (re_sub_needs_id _ _ _ y needs_symbol Hsym).
  - apply (re_sub_needs_id _ _ _ y needs_punct Hpun).
  - apply (re_sub_needs_id _ re_slash_spaced _ y needs_slash_spaced H47).
  - apply (re_sub_needs_id _ re_slash _ y needs_slash H47).
  - apply (re_sub_needs_id _ re_hyphen _ y needs_hyphen H45).
  - apply (units_step_id y None Htight Hl).
  - apply (re_sub_needs_id _ re_percent _ y needs_percent H37).
  - apply (re_sub_needs_id _ re_newlines _ y needs_newlines H10).
  - apply (squeeze_space_id y Hl None).
  - apply strip_id. now repeat split.
Qed.

Lemma rules_split (n : nat) : rules = firstn n rules ++ skipn n rules.
Proof.
  symmetry. apply firstn_skipn.
Qed.

Lemma late_rules_keep (Q : cp -> bool) (n : nat) :
  (forall c, Q c = true -> is_marker c = true) ->
  Forall (keeps_count Q) (skipn n rules).
Proof.
  intro Hq. pose proof (rules_keep_markers Q Hq) as H.
  rewrite (rules_split n) in H. now apply Forall_app in H as [_ H].
Qed.

Lemma is_char_marker k :
  is_marker k = true -> forall c, is_char k c = true -> is_marker c = true.
Proof.
  unfold is_char. intros Hk c Hc. apply N.eqb_eq in Hc. now subst c.
Qed.

(** A text of the normalised shape that is mild is left as it is. *)
Lemma clean_fixes_mild (y : text) :
  lacks is_stripped y -> tidy y -> tight_free None y = true ->
  mild y = true ->
  clean_response_for_speech y = y.
Proof.
  intros Hs Htidy Htight Hm. unfold mild in Hm.
  apply andb_true_iff in Hm as [Hm Hh].
  apply andb_true_iff in Hm as [H42 H95].
  apply Nat.leb_le in H42, H95. apply negb_true_iff in Hh.
  rewrite clean_rules, (rules_split 6), (rules_split 7) at 1.
  rewrite (rules_split 6). apply run_fixed. apply Forall_app. split.
  - now apply early_rules_fixed.
  - change (skipn 6 rules)
      with (re_sub re_bullet_line [] :: skipn 7 rules).
    apply Forall_cons; [|now apply late_rules_fixed].
    apply bullet_line_fixed.
    + now apply lacks_stripped_char.
    + apply Htidy.
    + destruct y as [|c y]; [exact I|].
      inversion Hs as [|c' y' Hc _]; subst.
      simpl in Hh. destruct (is_bullet c) eqn:Hb; [|reflexivity].
      exfalso. unfold is_bullet, cp_in in Hb. simpl in Hb.
      repeat (apply orb_true_iff in Hb as [Hb|Hb]);
        try (apply N.eqb_eq in Hb; subst c); discriminate.
Qed.

(** A text of the normalised shape that is not mild loses a marker. *)
Lemma clean_changes_wild (y : text) :
  lacks is_stripped y ->
  mild y = false ->
  clean_response_for_speech y <> y.
Proof.
  intros Hs Hm.
  assert (H10 : lacks (is_char 10%N) y) by now apply lacks_stripped_char.
  assert (Hlt : exists k, is_marker k = true
                  /\ (count (is_char k) (clean_response_for_speech y)
                      < count (is_char k) y)%nat).
  2:{ destruct Hlt as (k & _ & Hlt). intro Heq. rewrite Heq in Hlt. lia. }
  rewrite clean_rules.
  destruct (le_lt_dec 2 (count (is_char 42%N) y)) as [H42|H42].
  { exists 42. split; [reflexivity|].
    rewrite (rules_split 2). apply run_count_lt.
    - apply (late_rules_keep _ 2 (is_char_marker 42 eq_refl)).
    - change (run (firstn 2 rules) y)
        with (re_sub (delimited 42%N) [TRef 1] (re_sub re_bold [TRef 1] y)).
      pose proof (re_sub_count_le (is_char 42%N) re_bold [TRef 1] y) as H1.
      assert (Hn : lacks (is_char 10%N) (re_sub re_bold [TRef 1] y)).
      { apply re_sub_Forall; [exact H10|repeat constructor]. }
      destruct (le_lt_dec 2 (count (is_char 42%N) (re_sub re_bold [TRef 1] y)))
        as [H2|H2].
      + pose proof (delimited_step_lt 42 _ Hn H2).
        assert (count (is_char 42%N) (re_sub re_bold [TRef 1] y)
                <= count (is_char 42%N) y)%nat
          by (apply H1; [repeat constructor|simpl; lia]).
        lia.
      + pose proof (re_sub_count_le (is_char 42%N) (delimited 42%N) [TRef 1]
                      (re_sub re_bold [TRef 1] y)) as H3.
        assert (count (is_char 42%N)
                  (re_sub (delimited 42%N) [TRef 1] (re_sub re_bold [TRef 1] y))
                <= count (is_char 42%N) (re_sub re_bold [TRef 1] y))%nat
          by (apply H3; [repeat constructor|simpl; lia]).
        lia. }
  destruct (le_lt_dec 2 (count (is_char 95%N) y)) as [H95|H95].
  { exists 95. split; [reflexivity|].
    rewrite (rules_split 3). apply run_count_lt.
    - apply (late_rules_keep _ 3 (is_char_marker 95 eq_refl)).
    - change (run (firstn 3 rules) y)
        with (re_sub (delimited 95%N) [TRef 1] (run (firstn 2 rules) y)).
      assert (H1 : (count (is_char 95%N) (run (firstn 2 rules) y)
                    <= count (is_char 95%N) y)%nat).
      { apply run_count_le.
        pose proof (rules_keep_markers (is_char 95%N)
                      (is_char_marker 95 eq_refl)) as H.
        rewrite (rules_split 2) in H. now apply Forall_app in H as [H _]. }
      assert (Hn : lacks (is_char 10%N) (run (firstn 2 rules) y)).
      { change (run (firstn 2 rules) y)
          with (re_sub re_italic [TRef 1] (re_sub re_bold [TRef 1] y)).
        apply re_sub_Forall; [|repeat constructor].
        apply re_sub_Forall; [exact H10|repeat constructor]. }
      destruct (le_lt_dec 2 (count (is_char 95%N) (run (firstn 2 rules) y)))
        as [H2|H2].
      + pose proof (delimited_step_lt 95 _ Hn H2). lia.
      + pose proof (re_sub_count_le (is_char 95%N) (delimited 95%N) [TRef 1]
                      (run (firstn 2 rules) y)) as H3.
        assert (count (is_char 95%N)
                  (re_sub (delimited 95%N) [TRef 1] (run (firstn 2 rules) y))
                <= count (is_char 95%N) (run (firstn 2 rules) y))%nat
          by (apply H3; [repeat constructor|simpl; lia]).
        lia. }
  unfold mild in Hm.
  assert (Hh : starts_marked y = true).
  { destruct (starts_marked y); [reflexivity|].
    assert (Nat.leb (count (is_char 42%N) y) 1 = true) as E1
      by (apply Nat.leb_le; lia).
    assert (Nat.leb (count (is_char 95%N) y) 1 = true) as E2
      by (apply Nat.leb_le; lia).
    rewrite E1, E2 in Hm. discriminate. }
  destruct y as [|c y]; [discriminate|]. cbn [starts_marked] in Hh.
  assert (Hc : is_marker c = true /\ is_bullet c = true).
  { unfold is_char in Hh.
    apply orb_true_iff in Hh as [Hh|Hh]; apply N.eqb_eq in Hh; subst c;
      split; reflexivity. }
  destruct Hc as [Hmk Hb].
  exists c. split; [exact Hmk|].
  rewrite (rules_split 7). apply run_count_lt.
  - apply (late_rules_keep _ 7 (is_char_marker c Hmk)).
  - change (firstn 7 rules)
      with (firstn 6 rules ++ [re_sub re_bullet_line []]).
    rewrite run_app.
    rewrite (run_fixed (firstn 6 rules) (c :: y)).
    + now apply bullet_line_lt.
    + apply early_rules_fixed; [exact Hs|lia|lia].
Qed.

Lemma marker_char k :
  is_marker k = true -> forall c, is_marker c = false -> is_char k c = false.
Proof.
  intros Hk c Hc. unfold is_char. destruct (N.eqb_spec k c); [|reflexivity].
  subst c. congruence.
Qed.

(** A text without markers is mild. *)
Lemma lacks_marker_mild (y : text) : lacks is_marker y -> mild y = true.
Proof.
  intro Hm. unfold mild.
  rewrite (count_lacks (is_char 42) y), (count_lacks (is_char 95) y).
  - destruct y as [|c y]; [reflexivity|].
    inversion Hm as [|c' y' Hc _]; subst. cbn [starts_marked].
    now rewrite (marker_char 42 eq_refl c Hc), (marker_char 8226 eq_refl c Hc).
  - apply (lacks_weaken is_marker); [apply (marker_char 95 eq_refl)|exact Hm].
  - apply (lacks_weaken is_marker); [apply (marker_char 42 eq_refl)|exact Hm].
Qed.

(** A second pass changes nothing when the first left none of the asterisk,
    the underscore and the bullet in the text. *)
Lemma second_pass_without_markers (x : text) :
  lacks is_marker (clean_response_for_speech x) ->
  clean_response_for_speech (clean_response_for_speech x)
  = clean_response_for_speech x.
Proof.
  intro Hm. destruct (normalised_shape x) as (Hs & Ht & Hf).
  apply clean_fixes_mild; [exact Hs|exact Ht|exact Hf|].
  now apply lacks_marker_mild.
Qed.

(** C1, as the code has it: a second pass changes nothing exactly when the
    first left at most one asterisk and at most one underscore in the text
    and neither an asterisk nor a bullet in front of it. *)
Theorem normalise_idempotent_iff_mild (x : text) :
  clean_response_for_speech (clean_response_for_speech x)
  = clean_response_for_speech x
  <-> mild (clean_response_for_speech x) = true.
Proof.
  destruct (normalised_shape x) as (Hs & Ht & Hf). split.
  - intro H. destruct (mild (clean_response_for_speech x)) eqn:E;
      [reflexivity|].
    exfalso. now apply (clean_changes_wild _ Hs E).
  - now apply clean_fixes_mild.
Qed.

End NormaliserFacts.

(** ** The percent rule and the second pass *)

Section PassFacts.
Context {U : UnicodeData}.

Lemma needs_never_empty (Q : cp -> bool) (r : regex) :
  needs Q r -> never_empty r.
Proof.
  intros Hn prev s g rest H.
  apply match_here_inv in H as (pre & -> & _ & Hq).
  specialize (Hq Q Hn). rewrite length_app.
  destruct pre as [|c pre]; [discriminate|]. simpl. lia.
Qed.

(** No pattern of the normaliser matches the empty string. *)
Lemma pattern_nonempty : Forall never_empty sub_patterns.
Proof.
  unfold sub_patterns.
  repeat (constructor;
          [first [ apply (needs_never_empty _ _ needs_bold)
                 | apply (needs_never_empty _ _ needs_italic)
                 | apply (needs_never_empty _ _ needs_underline)
                 | apply (needs_never_empty _ _ needs_code)
                 | apply (needs_never_empty _ _ needs_next_item)
                 | apply (needs_never_empty _ _ needs_first_item)
                 | apply (needs_never_empty _ _ needs_bullet_line)
                 | apply (needs_never_empty _ _ needs_bullet_next)
                 | apply (needs_never_empty _ _ (needs_label _))
                 | apply (needs_never_empty _ _ needs_symbol)
                 | apply (needs_never_empty _ _ needs_punct)
                 | apply (needs_never_empty _ _ needs_slash_spaced)
                 | apply (needs_never_empty _ _ needs_slash)
                 | apply (needs_never_empty _ _ needs_hyphen)
                 | apply (needs_never_empty _ _ needs_units_digit)
                 | apply (needs_never_empty _ _ needs_percent)
                 | apply (needs_never_empty _ _ needs_newlines)
                 | apply (needs_never_empty _ _ needs_whitespace) ]|]).
  constructor.
Qed.

(** C2: the normaliser turns the example into Please note that Fees are 10.
    The asterisks and the percent sign are gone and the label is expanded,
    but the words 10 percent do not appear: the percent sign is deleted with
    the first stripped class, and for every input the percent rule, which
    comes later, changes nothing. *)
Theorem fees_note_loses_percent :
  clean_response_for_speech fees_note = s2t "Please note that Fees are 10"
  /\ contains (s2t "10 percent") (clean_response_for_speech fees_note) = false
  /\ contains (s2t "Please note that") (clean_response_for_speech fees_note)
     = true
  /\ lacks (is_char 42) (clean_response_for_speech fees_note)
  /\ lacks (is_char 37) (clean_response_for_speech fees_note)
  /\ forall x, percent_step (before_percent x) = before_percent x.
Proof.
  assert (H : clean_response_for_speech fees_note
              = s2t "Please note that Fees are 10")
    by (vm_compute; reflexivity).
  rewrite H.
  split; [reflexivity|]. split; [reflexivity|]. split; [reflexivity|].
  split; [repeat constructor|]. split; [repeat constructor|].
  apply percent_step_does_nothing.
Qed.

(** Texts on which a second pass still finds work, under every table. *)
Lemma second_pass_still_works :
  clean_response_for_speech two_underscores = [95; 32; 95]
  /\ clean_response_for_speech [95; 32; 95] = []
  /\ clean_response_for_speech dash_then_bullet = s2t "* a"
  /\ clean_response_for_speech (s2t "* a") = s2t "a".
Proof.
  repeat split; vm_compute; reflexivity.
Qed.

End PassFacts.

(** C1, counterexample: the two underscores survive the first pass, because
    the line break between them keeps the underline rule from matching, and
    the second pass, which finds them on one line, removes them. *)
Lemma second_pass_removes_underscores :
  clean_response_for_speech (U := ascii_tables)
    (clean_response_for_speech (U := ascii_tables) two_underscores)
  <> clean_response_for_speech (U := ascii_tables) two_underscores.
Proof.
  vm_compute. discriminate.
Qed.

(** ** The retrieval engine *)

Section EngineFacts.
Variables document chunk : Type.
Variable index_nodes : list document -> list chunk.
Variable run_query : list chunk -> text -> outcome text.

Lemma lstrip_blank (t : text) :
  Forall (fun c => is_space c = true) t -> lstrip t = [].
Proof.
  induction 1 as [|c t Hc _ IH]; simpl; [reflexivity|].
  now rewrite Hc.
Qed.

Lemma strip_blank (t : text) :
  Forall (fun c => is_space c = true) t -> strip t = [].
Proof.
  intro H. unfold strip, rstrip. now rewrite (lstrip_blank _ H).
Qed.

(** C10: a query that is empty or all white space gets the fixed answer,
    and nothing else happens: no log line, no call to the query engine. *)
Theorem blank_query_answer (self : engine) (query : text) (p : process document chunk) :
  Forall (fun c => is_space c = true) query ->
  get_rag_answer_method run_query self query p = (Ret invalid_question, p).
Proof.
  intro H. unfold get_rag_answer_method.
  now rewrite (strip_blank _ H).
Qed.

(** What [get_rag_answer] does with each outcome of the query engine. *)
Lemma get_rag_answer_method_cases (self : engine) (query : text) (p : process document chunk) :
  strip query <> [] ->
  let p1 := snd (emit (Queried query)
                   (snd (logger INFO (MsgQuerying query) p))) in
  get_rag_answer_method run_query self query p =
  match run_query (collection (disk p)) query with
  | Ret a => (Ret a, p1)
  | Raise e =>
      if is_Exception (exn_class e)
      then (Ret could_not_retrieve, snd (logger ERROR (MsgQueryFailed e) p1))
      else (Raise e, p1)
  end.
Proof.
  intros Hq p1. unfold get_rag_answer_method.
  destruct (strip query) as [|c s]; [congruence|].
  unfold try_except, bind, logger, emit, read_disk, lift, ret; simpl.
  subst p1; simpl.
  destruct (run_query (collection (disk p)) query) as [a|e]; [reflexivity|].
  destruct (is_Exception (exn_class e)); reflexivity.
Qed.

(** C7, as the code has it: for a query that is not blank, an exception
    of the query engine that derives from [Exception] is logged and turned
    into the fixed apology; an answer is returned as it is; an exception
    that does not derive from [Exception] is raised to the caller. *)
Theorem query_failure_recovered (self : engine) (query : text) (p : process document chunk) :
  strip query <> [] ->
  match run_query (collection (disk p)) query with
  | Ret a =>
      fst (get_rag_answer_method run_query self query p) = Ret a
  | Raise e =>
      if is_Exception (exn_class e) then
        fst (get_rag_answer_method run_query self query p)
        = Ret could_not_retrieve
        /\ trace (snd (get_rag_answer_method run_query self query p))
           = trace p ++ [Logged INFO (MsgQuerying query); Queried query;
                         Logged ERROR (MsgQueryFailed e)]
      else
        fst (get_rag_answer_method run_query self query p) = Raise e
  end.
Proof.
  intro Hq. rewrite get_rag_answer_method_cases by assumption.
  destruct (run_query (collection (disk p)) query) as [a|e]; [reflexivity|].
  destruct (is_Exception (exn_class e)); [|reflexivity].
  split; [reflexivity|]. simpl. now rewrite <- !app_assoc.
Qed.

Lemma constructor_on_nonempty_store (p : process document chunk) :
  collection (disk p) <> [] ->
  UniversityRAGEngine index_nodes p =
  match embedding (disk p) with
  | Ret _ =>
      (Ret {| engine_id := created p; engine_index := IndexFromVectorStore |},
       {| disk := disk p;
          trace := trace p ++ [Logged INFO MsgInitializing;
                               Logged INFO
                                 (MsgLoadedExisting (length (collection (disk p))));
                               Logged INFO MsgReady];
          rag_engine_global := rag_engine_global p;
          created := S (created p) |})
  | Raise e => (Raise e, logged p [Logged INFO MsgInitializing])
  end.
Proof.
  intro Hne.
  unfold UniversityRAGEngine, bind, logger, emit, read_disk, lift, ret,
    new_object, logged; simpl.
  destruct (embedding (disk p)) as [[]|e]; [|reflexivity].
  destruct (collection (disk p)) as [|c cs] eqn:Hc; [congruence|].
  simpl. now rewrite <- !app_assoc.
Qed.

(** C5: when the collection already holds an item, constructing the engine
    leaves the world as it is (so the number of stored chunks is unchanged),
    logs nothing that belongs to ingestion, and the engine it returns is
    built on the existing store; constructing a second engine on what a
    first construction left behind changes nothing either. *)
Theorem nonempty_store_skips_ingestion (p : process document chunk) :
  collection (disk p) <> [] ->
  let r := UniversityRAGEngine index_nodes p in
  disk (snd r) = disk p
  /\ (exists new, trace (snd r) = trace p ++ new
                  /\ existsb is_ingestion_event new = false)
  /\ (forall e, fst r = Ret e -> engine_index e = IndexFromVectorStore)
  /\ length (collection (disk (snd (UniversityRAGEngine index_nodes (snd r)))))
     = length (collection (disk p)).
Proof.
  intros Hne r.
  assert (Hd : disk (snd r) = disk p).
  { subst r. rewrite (constructor_on_nonempty_store p Hne).
    destruct (embedding (disk p)); reflexivity. }
  split; [exact Hd|]. split; [|split].
  - subst r. rewrite (constructor_on_nonempty_store p Hne).
    destruct (embedding (disk p)); simpl; eexists; split; reflexivity.
  - subst r. rewrite (constructor_on_nonempty_store p Hne).
    destruct (embedding (disk p)); simpl; intros e0 He; inversion He;
      reflexivity.
  - assert (Hne' : collection (disk (snd r)) <> []) by now rewrite Hd.
    rewrite (constructor_on_nonempty_store (snd r) Hne').
    destruct (embedding (disk (snd r))); simpl; now rewrite Hd.
Qed.

Lemma ingest_without_data_dir (p : process document chunk) :
  data_dir (disk p) = None ->
  _ingest_documents index_nodes p
  = (Ret EmptyIndex, logged p [Logged WARNING MsgDataFolderNotFound]).
Proof.
  intro H. unfold _ingest_documents, bind, read_disk; simpl.
  rewrite H. reflexivity.
Qed.

(** C6, as the code has it: when the data folder does not exist, ingestion
    returns normally with an empty index after one warning; it writes
    nothing and does not call [persist].  A constructor that finds the
    collection empty and the folder missing returns an engine on the empty
    index, with the collection still empty, and a query on that engine
    reaches the query engine over the empty collection. *)
Theorem missing_data_dir_gives_empty_index (p : process document chunk) :
  data_dir (disk p) = None ->
  (let r := _ingest_documents index_nodes p in
   fst r = Ret EmptyIndex
   /\ disk (snd r) = disk p
   /\ trace (snd r) = trace p ++ [Logged WARNING MsgDataFolderNotFound])
  /\ (collection (disk p) = [] -> embedding (disk p) = Ret tt ->
      let r := UniversityRAGEngine index_nodes p in
      fst r = Ret {| engine_id := created p; engine_index := EmptyIndex |}
      /\ collection (disk (snd r)) = []
      /\ ~ In Persisted (skipn (length (trace p)) (trace (snd r)))
      /\ forall query, strip query <> [] ->
           fst (get_rag_answer_method run_query
                  {| engine_id := created p; engine_index := EmptyIndex |}
                  query (snd r))
           = match run_query [] query with
             | Ret a => Ret a
             | Raise e => if is_Exception (exn_class e)
                          then Ret could_not_retrieve else Raise e
             end).
Proof.
  intro Hd. split.
  - rewrite (ingest_without_data_dir p Hd). repeat split.
  - intros Hc He.
    assert (Hr : UniversityRAGEngine index_nodes p
                 = (Ret {| engine_id := created p; engine_index := EmptyIndex |},
                    {| disk := disk p;
                       trace := trace p ++ [Logged INFO MsgInitializing;
                                            Logged INFO MsgNoExistingData;
                                            Logged WARNING MsgDataFolderNotFound;
                                            Logged INFO MsgReady];
                       rag_engine_global := rag_engine_global p;
                       created := S (created p) |})).
    { unfold UniversityRAGEngine, _ingest_documents, bind, logger, emit,
        read_disk, lift, ret, new_object; simpl.
      rewrite He, Hc; simpl. rewrite Hd; simpl.
      now rewrite <- !app_assoc. }
    cbv zeta. rewrite Hr; simpl. repeat split.
    + exact Hc.
    + rewrite skipn_app, skipn_all, Nat.sub_diag; simpl.
      intros [H|[H|[H|[H|[]]]]]; discriminate.
    + intros query Hq.
      rewrite get_rag_answer_method_cases by assumption; simpl.
      rewrite Hc.
      destruct (run_query [] query) as [a|e]; [reflexivity|].
      destruct (is_Exception (exn_class e)); reflexivity.
Qed.

(** *** The module global *)

Lemma constructor_counts (p : process document chunk) :
  let r := UniversityRAGEngine index_nodes p in
  rag_engine_global (snd r) = rag_engine_global p
  /\ match fst r with
     | Ret e => created (snd r) = S (created p) /\ engine_id e = created p
     | Raise _ => created (snd r) = created p
     end.
Proof.
  unfold UniversityRAGEngine, _ingest_documents, bind, logger, emit,
    read_disk, lift, ret, new_object, write_collection; simpl.
  destruct (embedding (disk p)) as [[]|e]; simpl; [|now split].
  destruct (collection (disk p)) as [|c cs]; simpl; [|now split].
  destruct (data_dir (disk p)) as [[docs|e]|]; simpl; try now split.
  unfold raise.
  destruct (indexing (disk p)) as [[n e]|]; simpl; [now split|].
  destruct (persisting (disk p)) as [e|]; simpl; now split.
Qed.








(** A thread that runs alone does what [initialize_rag_engine] does. *)
Lemma thread_alone (p : process document chunk) :
  run_schedule index_nodes [0; 0; 0; 0]%nat ([AtTest], p)
  = match initialize_rag_engine index_nodes p with
    | (Ret e, p') => ([Returned (Some e)], p')
    | (Raise x, p') => ([Failed x], p')
    end.
Proof.
  unfold run_schedule, initialize_rag_engine, bind, read_global; simpl.
  unfold pool_step; simpl.
  destruct (rag_engine_global p) as [e|] eqn:Hg; simpl.
  - rewrite Hg. reflexivity.
  - destruct (UniversityRAGEngine index_nodes p) as [[e|x] p'];
      reflexivity.
Qed.

End EngineFacts.

(** ** The start of the agent *)

Section EntrypointFacts.



End EntrypointFacts.

(** ** More on the normaliser *)

Section NormaliserMore.
Context {U : UnicodeData}.

Lemma stripped_space c : is_stripped c = false -> is_space c = true -> c = 32.
Proof.
  unfold is_stripped. intros H Hsp.
  apply orb_false_iff in H as [_ H]. rewrite Hsp in H. simpl in H.
  apply negb_false_iff in H. now apply N.eqb_eq in H.
Qed.

(** X1: What every normalised text looks like: none of the two stripped
    classes of characters, no slash, no hyphen, no line break, no white
    space other than single spaces between words, and no number that
    stands directly against a unit word. *)
Theorem normalised_text_is_speakable (x : text) :
  let y := clean_response_for_speech x in
  lacks is_symbol y /\ lacks is_punct y
  /\ lacks (is_char 47) y /\ lacks (is_char 45) y /\ lacks (is_char 10) y
  /\ (forall c, In c y -> is_space c = true -> c = 32)
  /\ tidy y
  /\ tight_free None y = true.
Proof.
  intro y. destruct (normalised_shape x) as (Hs & Ht & Hf). fold y in Hs, Ht, Hf.
  split; [apply lacks_class; [apply stripped_symbol|assumption]|].
  split; [apply lacks_class; [apply stripped_punct|assumption]|].
  split; [now apply lacks_stripped_char|].
  split; [now apply lacks_stripped_char|].
  split; [now apply lacks_stripped_char|].
  split; [|now split].
  intros c Hin. unfold lacks in Hs. rewrite Forall_forall in Hs.
  apply stripped_space. exact (Hs c Hin).
Qed.

Lemma blank_lacks (Q : cp -> bool) (t : text) :
  (forall c, is_space c = true -> Q c = false) -> blank t -> lacks Q t.
Proof.
  intros H Hb. eapply Forall_impl; [|exact Hb]. exact H.
Qed.

Lemma space_not_char k :
  is_space k = false -> forall c, is_space c = true -> is_char k c = false.
Proof.
  intros Hk c Hc. unfold is_char. destruct (N.eqb_spec k c); [|reflexivity].
  subst c. congruence.
Qed.

Lemma space_not_in (l : list cp) :
  forallb (fun k => negb (is_space k)) l = true ->
  forall c, is_space c = true -> cp_in l c = false.
Proof.
  intros Hl c Hc. unfold cp_in.
  destruct (existsb (N.eqb c) l) eqn:E; [|reflexivity].
  apply existsb_exists in E as (k & Hin & Hk). apply N.eqb_eq in Hk. subst k.
  rewrite forallb_forall in Hl. specialize (Hl c Hin).
  rewrite Hc in Hl. discriminate.
Qed.

Lemma needs_next_item_digit : needs is_digit re_next_item.
Proof.
  simpl. right. left. split; [reflexivity|auto].
Qed.

Lemma needs_bullet_next_bullet : needs is_bullet re_bullet_next.
Proof.
  simpl. right. right. left. auto.
Qed.

Lemma needs_first_item_digit : needs is_digit re_first_item.
Proof.
  simpl. right. left. split; [reflexivity|auto].
Qed.

Lemma needs_percent_digit : needs is_digit re_percent.
Proof.
  simpl. right. left. split; [reflexivity|auto].
Qed.

(** The rules before those for white space leave a blank text alone. *)
Lemma blank_rules_fixed (t : text) :
  blank t -> Forall (fun f => f t = t) (firstn 18 rules).
Proof.
  intro Hb.
  assert (H42 : lacks (is_char 42) t)
    by (apply blank_lacks; [apply (space_not_char 42 eq_refl)|exact Hb]).
  assert (H95 : lacks (is_char 95) t)
    by (apply blank_lacks; [apply (space_not_char 95 eq_refl)|exact Hb]).
  assert (H96 : lacks (is_char 96) t)
    by (apply blank_lacks; [apply (space_not_char 96 eq_refl)|exact Hb]).
  assert (H58 : lacks (is_char 58) t)
    by (apply blank_lacks; [apply (space_not_char 58 eq_refl)|exact Hb]).
  assert (H47 : lacks (is_char 47) t)
    by (apply blank_lacks; [apply (space_not_char 47 eq_refl)|exact Hb]).
  assert (H45 : lacks (is_char 45) t)
    by (apply blank_lacks; [apply (space_not_char 45 eq_refl)|exact Hb]).
  assert (Hd : lacks is_digit t)
    by (apply blank_lacks; [apply space_not_digit|exact Hb]).
  assert (Hbu : lacks is_bullet t)
    by (apply blank_lacks; [apply space_not_in; reflexivity|exact Hb]).
  assert (Hsy : lacks is_symbol t)
    by (apply blank_lacks; [apply space_not_in; reflexivity|exact Hb]).
  assert (Hpu : lacks is_punct t)
    by (apply blank_lacks; [apply space_not_in; reflexivity|exact Hb]).
  cbn [firstn rules]. repeat (apply Forall_cons; [|]); try apply Forall_nil.
  - apply (re_sub_needs_id _ re_bold _ t needs_bold H42).
  - apply (re_sub_needs_id _ re_italic _ t needs_italic H42).
  - apply (re_sub_needs_id _ re_underline _ t needs_underline H95).
  - apply (re_sub_needs_id _ re_code _ t needs_code H96).
  - apply (re_sub_needs_id _ re_next_item _ t needs_next_item_digit Hd).
  - apply (re_sub_needs_id _ re_first_item _ t needs_first_item_digit Hd).
  - apply (re_sub_needs_id _ re_bullet_line _ t needs_bullet_line Hbu).
  - apply (re_sub_needs_id _ re_bullet_next _ t needs_bullet_next_bullet Hbu).
  - apply (re_sub_needs_id _ _ _ t (needs_label "note") H58).
  - apply (re_sub_needs_id _ _ _ t (needs_label "important") H58).
  - apply (re_sub_needs_id _ _ _ t (needs_label "remember") H58).
  - apply (re_sub_needs_id _ _ _ t needs_symbol Hsy).
  - apply (re_sub_needs_id _ _ _ t needs_punct Hpu).
  - apply (re_sub_needs_id _ re_slash_spaced _ t needs_slash_spaced H47).
  - apply (re_sub_needs_id _ re_slash _ t needs_slash H47).
  - apply (re_sub_needs_id _ re_hyphen _ t needs_hyphen H45).
  - apply (re_sub_needs_id _ re_units _ t needs_units_digit Hd).
  - apply (re_sub_needs_id _ re_percent _ t needs_percent_digit Hd).
Qed.

(** X2: A text of white space only is normalised to the empty text, and as a
    retrieved answer it is never presented: the prompt is the redirecting
    one. *)
Theorem blank_text_normalises_to_empty (t : text) :
  blank t ->
  clean_response_for_speech t = []
  /\ rag_found_nothing t = true
  /\ forall user_query,
       knowledge_prompt user_query t = redirect_prompt user_query.
Proof.
  intro Hb.
  assert (Hc : clean_response_for_speech t = []).
  { rewrite clean_rules, (rules_split 18), run_app.
    rewrite (run_fixed _ t (blank_rules_fixed t Hb)).
    cbn [skipn rules run fold_left].
    apply strip_blank.
    apply re_sub_Forall; [|repeat constructor].
    apply re_sub_Forall; [exact Hb|repeat constructor]. }
  split; [exact Hc|].
  assert (Hr : rag_found_nothing t = true).
  { unfold rag_found_nothing. rewrite Hc. cbv zeta.
    apply orb_true_iff. right. reflexivity. }
  split; [exact Hr|]. intro user_query.
  unfold knowledge_prompt. now rewrite Hr.
Qed.

(** X3: Every character of a normalised text is a character of the input or
    of one of the phrases the normaliser writes. *)
Theorem normaliser_invents_no_character (x : text) :
  Forall (fun c => In c x \/ In c (concat spoken_phrases))
    (clean_response_for_speech x).
Proof.
  set (P := fun c : cp => In c x \/ In c (concat spoken_phrases)).
  assert (Hlit : forall n l, nth_error spoken_phrases n = Some l ->
                             Forall P l).
  { intros n l Hl. apply Forall_forall. intros c Hc. right.
    apply in_concat. exists l. split; [|exact Hc].
    now apply (nth_error_In spoken_phrases n). }
  assert (Hph : forall n l r t, nth_error spoken_phrases n = Some l ->
                  Forall P t -> Forall P (re_sub r [TLit l] t)).
  { intros n l r t Hl Ht. apply re_sub_Forall; [exact Ht|].
    constructor; [now apply (Hlit n)|constructor]. }
  assert (Href : forall r t, Forall P t -> Forall P (re_sub r [TRef 1] t)).
  { intros r t Ht. apply re_sub_Forall; [exact Ht|].
    constructor; [exact I|constructor]. }
  assert (Hnil : forall r t, Forall P t -> Forall P (re_sub r [] t)).
  { intros r t Ht. apply re_sub_Forall; [exact Ht|constructor]. }
  assert (Hx : Forall P x).
  { apply Forall_forall. intros c Hc. now left. }
  assert (Hrules : Forall (fun f => forall t, Forall P t -> Forall P (f t))
                     rules).
  { unfold rules. repeat (apply Forall_cons; [|]); try apply Forall_nil.
    - apply Href.
    - apply Href.
    - apply Href.
    - apply Href.
    - intros t. apply (Hph 0%nat). reflexivity.
    - intros t. apply (Hph 1%nat). reflexivity.
    - apply Hnil.
    - intros t. apply (Hph 2%nat). reflexivity.
    - intros t. apply (Hph 3%nat). reflexivity.
    - intros t. apply (Hph 4%nat). reflexivity.
    - intros t. apply (Hph 5%nat). reflexivity.
    - apply Hnil.
    - apply Hnil.
    - intros t. apply (Hph 6%nat). reflexivity.
    - intros t. apply (Hph 6%nat). reflexivity.
    - intros t. apply (Hph 7%nat). reflexivity.
    - intros t Ht. apply re_sub_Forall; [exact Ht|].
      constructor; [exact I|]. constructor; [|repeat constructor].
      apply (Hlit 7%nat). reflexivity.
    - intros t Ht. apply re_sub_Forall; [exact Ht|].
      constructor; [exact I|]. constructor; [|constructor].
      apply (Hlit 8%nat). reflexivity.
    - intros t. apply (Hph 7%nat). reflexivity.
    - intros t. apply (Hph 7%nat). reflexivity.
    - intros t Ht. destruct (strip_split t) as (w1 & w2 & Hs & _).
      rewrite Hs in Ht. apply Forall_app in Ht as [_ Ht].
      now apply Forall_app in Ht as [Ht _]. }
  assert (Hrun : forall t, Forall P t -> Forall P (run rules t)).
  { induction Hrules as [|f fs Hf _ IH]; intros t Ht; [exact Ht|].
    simpl. apply IH. now apply Hf. }
  rewrite clean_rules. now apply Hrun.
Qed.

(** X4: The texts the normaliser leaves as they are, exactly: those without a
    stripped character, tidy, with no number directly against a unit word,
    with at most one asterisk and one underscore and neither an asterisk
    nor a bullet in front. *)
Theorem normaliser_fixed_points (y : text) :
  clean_response_for_speech y = y
  <-> lacks is_stripped y /\ tidy y /\ tight_free None y = true
      /\ mild y = true.
Proof.
  split.
  - intro H. destruct (normalised_shape y) as (Hs & Ht & Hf).
    rewrite H in Hs, Ht, Hf. repeat split; try assumption; try apply Ht.
    destruct (mild y) eqn:E; [reflexivity|].
    exfalso. now apply (clean_changes_wild y Hs E).
  - intros (Hs & Ht & Hf & Hm). now apply clean_fixes_mild.
Qed.

End NormaliserMore.

(** ** More on the router and the handler *)

Section RouterMore.
Context {U : UnicodeData}.

Lemma search_from_at (r : regex) (a : text) :
  forall prev s,
  is_some (match_here r (adv prev a) s) = true ->
  search_from r prev (a ++ s) = true.
Proof.
  induction a as [|c a IH]; intros prev s H.
  - rewrite search_from_unfold. simpl in H |- *. now rewrite H.
  - rewrite search_from_unfold. cbn [app].
    rewrite (IH (Some c) s H). apply orb_true_r.
Qed.

Lemma word_at_app (x b : text) : x <> [] -> word_at (x ++ b) = word_at x.
Proof.
  destruct x; [congruence|reflexivity].
Qed.

Lemma starts_with_self (x b : text) : starts_with x (x ++ b) = true.
Proof.
  apply starts_with_spec. now exists b.
Qed.

(** A phrase between two word boundaries is matched by its pattern. *)
Lemma match_phrase (x : string) prev (b : text) :
  wordy x = true ->
  word_before prev = false -> word_at b = false ->
  is_some (match_here (re_words x []) prev (s2t x ++ b)) = true.
Proof.
  intros Hx Hp Hb. unfold wordy in Hx.
  apply andb_true_iff in Hx as [Hat Hlast].
  assert (Hne : s2t x <> []) by (destruct (s2t x); [discriminate|discriminate]).
  unfold match_here, re_words.
  cbn [re_seq fold_right rmatch alts fold_left map].
  rewrite Hp, (word_at_app _ b Hne), Hat. cbn [xorb].
  unfold lit. rewrite rmatch_chars, starts_with_self.
  rewrite (adv_nonempty prev None _ Hne), Hlast.
  rewrite skipn_app, Nat.sub_diag, skipn_all, skipn_O. cbn [app].
  rewrite Hb. reflexivity.
Qed.

Lemma search_phrase (w : string) (ws : list string) (x : string)
  (a b : text) :
  In x (w :: ws) -> wordy x = true ->
  word_before (adv None a) = false -> word_at b = false ->
  re_search (re_words w ws) (a ++ s2t x ++ b) = true.
Proof.
  intros Hin Hx Ha Hb. unfold re_search. rewrite search_words.
  apply existsb_exists. exists x. split; [exact Hin|].
  apply search_from_at. now apply match_phrase.
Qed.

Lemma casual_phrases_wordy : forallb wordy casual_phrases = true.
Proof.
  reflexivity.
Qed.

(** What [answer_with_rag] does for a casual query. *)
Lemma casual_trace (w : agent_world) (q : text) :
  is_casual q = true ->
  forall ev, In ev (fst (answer_with_rag w q)) -> is_reply ev = true.
Proof.
  intros Hc ev. unfold answer_with_rag, answer_body, reply. rewrite Hc.
  destruct (generate_reply w (casual_prompt (casual_branch q))) as [e|];
    simpl.
  - destruct (is_Exception (exn_class e)); simpl.
    + destruct (generate_reply w fallback_instructions); simpl;
        intros [H|[H|[]]]; now subst ev.
    + intros [H|[]]; now subst ev.
  - intros [H|[]]; now subst ev.
Qed.

(** X6: A query whose lowered text holds one of the casual phrases between
    word boundaries is casual, whatever else it says: the retrieval engine
    is not asked; and a greeting phrase makes it a greeting. *)
Theorem casual_phrase_skips_retrieval (user_query a b : text)
  (phrase : string) :
  In phrase casual_phrases ->
  lower user_query = a ++ s2t phrase ++ b ->
  word_before (adv None a) = false -> word_at b = false ->
  is_casual user_query = true
  /\ (In phrase greeting_phrases -> route user_query = Some Greeting)
  /\ forall w q, ~ In (AskedRag q) (fst (answer_with_rag w user_query)).
Proof.
  intros Hin Hl Ha Hb.
  assert (Hx : wordy phrase = true).
  { pose proof casual_phrases_wordy as H. rewrite forallb_forall in H.
    now apply H. }
  assert (Hg : In phrase greeting_phrases ->
               re_search re_greeting (lower user_query) = true).
  { intro Hg. rewrite Hl. now apply search_phrase. }
  assert (Hc : is_casual user_query = true).
  { unfold is_casual, casual_patterns. cbn [existsb].
    unfold casual_phrases in Hin.
    apply in_app_or in Hin as [Hin|Hin].
    { now rewrite (Hg Hin). }
    apply in_app_or in Hin as [Hin|Hin].
    { assert (H : re_search re_status (lower user_query) = true)
        by (rewrite Hl; now apply search_phrase).
      rewrite H. now rewrite orb_true_r. }
    apply in_app_or in Hin as [Hin|Hin].
    { assert (H : re_search re_thanks_bye (lower user_query) = true)
        by (rewrite Hl; now apply search_phrase).
      rewrite H. now rewrite !orb_true_r. }
    assert (H : re_search re_capability (lower user_query) = true)
      by (rewrite Hl; now apply search_phrase).
    rewrite H. now rewrite !orb_true_r. }
  split; [exact Hc|]. split.
  - intro Hgr. unfold route, casual_branch. now rewrite Hc, (Hg Hgr).
  - intros w q Hq. apply (casual_trace w user_query Hc) in Hq.
    discriminate.
Qed.

Lemma casual_prompt_not_fallback (c : casual) :
  casual_prompt c <> fallback_instructions.
Proof.
  destruct c; discriminate.
Qed.

Lemma knowledge_prompt_not_fallback (q a : text) :
  knowledge_prompt q a <> fallback_instructions.
Proof.
  unfold knowledge_prompt.
  destruct (rag_found_nothing a); discriminate.
Qed.

(** X7: When the session delivers every reply and retrieval fails, if at all,
    with an error that derives from [Exception], a query is answered with
    exactly one reply and nothing is raised; the reply is the fallback
    exactly when retrieval failed. *)
Theorem one_reply_per_query (w : agent_world) (q : text) :
  (forall i, generate_reply w i = None) ->
  (forall e, rag_async w q = Raise e -> is_Exception (exn_class e) = true) ->
  snd (answer_with_rag w q) = Ret tt
  /\ exists i,
       filter is_reply (fst (answer_with_rag w q)) = [Replied i]
       /\ (i = fallback_instructions
           <-> is_casual q = false /\ exists e, rag_async w q = Raise e).
Proof.
  intros Hsay Hrag. unfold answer_with_rag, answer_body, reply.
  destruct (is_casual q) eqn:Hc.
  - rewrite Hsay. simpl. split; [reflexivity|].
    eexists. split; [reflexivity|]. split.
    + intro H. now apply casual_prompt_not_fallback in H.
    + intros [H _]. discriminate.
  - destruct (rag_async w q) as [a|e] eqn:Hr.
    + rewrite Hsay. simpl. split; [reflexivity|].
      eexists. split; [reflexivity|]. split.
      * intro H. now apply knowledge_prompt_not_fallback in H.
      * intros [_ [e He]]. discriminate.
    + rewrite (Hrag e eq_refl), Hsay. simpl. split; [reflexivity|].
      eexists. split; [reflexivity|]. split.
      * intros _. split; [reflexivity|]. now exists e.
      * reflexivity.
Qed.

(** *** The transcription handler *)

(** X9: A transcription without text, or with white space only, starts
    nothing: no line is printed, no task is created, the engine is not
    asked and no reply is requested. *)
Theorem blank_transcription_starts_nothing (w : agent_world)
  (create_task : text -> option exn) (event_text : option text) :
  (event_text = None \/ exists t, event_text = Some t /\ blank t) ->
  transcription_turn w create_task event_text = ([], [], Ret tt).
Proof.
  intros [->|(t & -> & Hb)]; [reflexivity|].
  unfold transcription_turn, on_transcription.
  now rewrite (strip_blank t Hb).
Qed.

(** X10: The query of the task the handler starts is the transcribed text
    without the white space around it: it is not empty, neither starts nor
    ends with white space, and it is the query [answer_with_rag] runs
    on. *)
Theorem transcription_query_is_trimmed (w : agent_world)
  (create_task : text -> option exn) (event_text : option text)
  (q : text) :
  In (CreatedTask q) (fst (on_transcription create_task event_text)) ->
  exists t,
    event_text = Some t /\ q = strip t /\ q <> []
    /\ head_space q = false /\ head_space (rev q) = false
    /\ snd (fst (transcription_turn w create_task event_text))
       = fst (answer_with_rag w q).
Proof.
  unfold transcription_turn, on_transcription.
  destruct event_text as [t|]; [|intros []].
  pose proof (strip_head t) as Hh. pose proof (strip_last t) as Hl.
  destruct (strip t) as [|c s] eqn:Hs; [intros []|].
  destruct (create_task (c :: s)) as [e|].
  - destruct (is_Exception (exn_class e)); simpl.
    + intros [H|[H|[]]]; discriminate.
    + intros [H|[]]; discriminate.
  - simpl. intros [H|[H|[]]]; [discriminate|]. injection H as <-.
    exists t. rewrite Hs. repeat split; try assumption; try discriminate.
    destruct (answer_with_rag w (c :: s)) as [tr r].
    destruct (handle_task_result r). reflexivity.
Qed.

(** X11: No error that derives from [Exception] leaves a turn, and each
    one is reported where the code catches it.  For a transcription whose
    text [q] is not blank: when creating the task raises such an error the
    handler prints it after the line for what the user said, and nothing
    else happens; when the task is created and retrieval or the reply
    raises such an error, the fallback is the next and last reply that is
    requested; when the fallback is delivered the turn ends with the two
    lines of the handler only, and when the fallback raises such an error
    too, the callback of the task prints that error and the turn ends
    without raising.  Only an error outside [Exception] is raised. *)
Theorem turn_contains_exceptions (w : agent_world)
  (create_task : text -> option exn) (event_text : option text) :
  let turn := transcription_turn w create_task event_text in
  match snd turn with
  | Ret _ => True
  | Raise e => is_Exception (exn_class e) = false
  end
  /\ (forall t e,
        event_text = Some t -> strip t <> [] ->
        create_task (strip t) = Some e ->
        is_Exception (exn_class e) = true ->
        turn = ([PrintedUserSaid (strip t); PrintedHandlerError e], [],
                Ret tt))
  /\ (forall t e,
        event_text = Some t -> strip t <> [] ->
        create_task (strip t) = None ->
        snd (answer_body w (strip t)) = Raise e ->
        is_Exception (exn_class e) = true ->
        snd (fst turn)
        = fst (answer_body w (strip t)) ++ [Replied fallback_instructions]
        /\ match generate_reply w fallback_instructions with
           | None =>
               fst (fst turn)
               = [PrintedUserSaid (strip t); CreatedTask (strip t)]
               /\ snd turn = Ret tt
           | Some e' =>
               if is_Exception (exn_class e')
               then fst (fst turn)
                    = [PrintedUserSaid (strip t); CreatedTask (strip t);
                       PrintedTaskError e']
                    /\ snd turn = Ret tt
               else fst (fst turn)
                    = [PrintedUserSaid (strip t); CreatedTask (strip t)]
                    /\ snd turn = Raise e'
           end).
Proof.
  cbv zeta. split; [|split].
  - unfold transcription_turn, on_transcription.
    destruct event_text as [t|]; [|exact I].
    destruct (strip t) as [|c s]; [exact I|].
    destruct (create_task (c :: s)) as [e|].
    + destruct (is_Exception (exn_class e)) eqn:He; simpl;
        [exact I|exact He].
    + destruct (answer_with_rag w (c :: s)) as [tr [[]|e]]; simpl;
        [exact I|].
      destruct (is_Exception (exn_class e)) eqn:He; simpl;
        [exact I|exact He].
  - intros t e -> Hne Hc He.
    unfold transcription_turn, on_transcription.
    destruct (strip t) as [|c s]; [now elim Hne|].
    now rewrite Hc, He.
  - intros t e -> Hne Hc Hb He.
    unfold transcription_turn, on_transcription.
    destruct (strip t) as [|c s]; [now elim Hne|].
    rewrite Hc. unfold answer_with_rag.
    destruct (answer_body w (c :: s)) as [tr r]. simpl in Hb. subst r.
    rewrite He. unfold reply.
    destruct (generate_reply w fallback_instructions) as [e'|]; simpl.
    + destruct (is_Exception (exn_class e')); simpl;
        (split; [reflexivity|split; reflexivity]).
    + split; [reflexivity|split; reflexivity].
Qed.

End RouterMore.

(** ** Markup around a line *)

Section MarkupFacts.
Context {U : UnicodeData}.

Lemma rep_lazy_skip (R : Type) (p : cp -> bool) (k : kont R) (s : text)
  (r : R) (w : text) :
  forall prev,
  forallb p w = true ->
  (forall w1 c w2, w = w1 ++ c :: w2 ->
                   k (adv prev w1) (c :: w2 ++ s) = None) ->
  k (adv prev w) s = Some r ->
  rep_lazy p k prev (w ++ s) = Some r.
Proof.
  induction w as [|c w IH]; intros prev Hall Hno Hk.
  - simpl in *. destruct s; simpl; now rewrite Hk.
  - simpl in Hall. apply andb_true_iff in Hall as [Hc Hall].
    pose proof (Hno [] c w eq_refl) as H0. cbn [adv] in H0.
    cbn [app rep_lazy]. rewrite H0, Hc.
    apply IH; [exact Hall| |exact Hk].
    intros w1 c' w2 Hw. apply (Hno (c :: w1) c' w2). now rewrite Hw.
Qed.

Lemma starts_with_head (d : text) (c0 c : cp) (d' s : text) :
  d = c0 :: d' -> N.eqb c0 c = false -> starts_with d (c :: s) = false.
Proof.
  intros -> H. simpl. now rewrite H.
Qed.

(** A delimited stretch without the first character of the delimiter and
    without a line break is matched as a whole. *)
Lemma match_marked (d : string) (c0 : cp) (d' : text) prev (w rest : text) :
  s2t d = c0 :: d' ->
  lacks (is_char c0) w -> lacks (is_char 10) w ->
  match_here (marked d) prev (s2t d ++ w ++ s2t d ++ rest)
  = Some ([(1%nat, w)], rest).
Proof.
  intros Hd Hw Hnl. unfold match_here, marked, lit.
  cbn [re_seq fold_right rmatch]. rewrite rmatch_chars, starts_with_self.
  rewrite skipn_app, Nat.sub_diag, skipn_all, skipn_O. cbn [app].
  unfold any_lazy. cbn [rmatch].
  apply rep_lazy_skip.
  - now apply lacks_newline_dots.
  - intros w1 c w2 Hsplit. rewrite rmatch_chars.
    rewrite (starts_with_head (s2t d) c0 c d' _ Hd); [reflexivity|].
    unfold lacks in Hw. rewrite Forall_forall in Hw.
    apply (Hw c). rewrite Hsplit. apply in_or_app. right. now left.
  - rewrite rmatch_chars, starts_with_self.
    rewrite skipn_app, Nat.sub_diag, skipn_all, skipn_O. cbn [app rmatch].
    rewrite firstn_length_app. reflexivity.
Qed.

Lemma unwrap (d : string) (c0 : cp) (d' : text) (w : text) :
  s2t d = c0 :: d' ->
  lacks (is_char c0) w -> lacks (is_char 10) w ->
  re_sub (marked d) [TRef 1] (wrapped d w) = w.
Proof.
  intros Hd Hw Hnl. unfold re_sub, wrapped.
  assert (Hm : match_here (marked d) None ((s2t d ++ w ++ s2t d) ++ [])
               = Some ([(1%nat, w)], []))
    by (rewrite <- !app_assoc; exact (match_marked d c0 d' None w [] Hd Hw Hnl)).
  replace (s2t d ++ w ++ s2t d) with ((s2t d ++ w ++ s2t d) ++ [])
    by apply app_nil_r.
  rewrite (sub_scan_match _ _ _ _ _ _ Hm).
  - cbn [expand group Nat.eqb]. now rewrite !app_nil_r.
  - rewrite Hd. discriminate.
Qed.

Lemma lacks_wrapped (k : cp) (d : string) (w : text) :
  lacks (is_char k) (s2t d) -> lacks (is_char k) w ->
  lacks (is_char k) (wrapped d w).
Proof.
  intros Hd Hw. unfold wrapped. apply lacks_app. split; [exact Hd|].
  apply lacks_app. now split.
Qed.

(** X5: Markup around a line is invisible to the normaliser: a text without
    asterisk and line break that is set in bold or in italics, and one
    without underscore or backtick that is underlined or set as code, is
    normalised to what the text alone is normalised to. *)
Theorem markup_is_transparent (w : text) :
  lacks (is_char 42) w -> lacks (is_char 10) w ->
  clean_response_for_speech (wrapped "**" w) = clean_response_for_speech w
  /\ clean_response_for_speech (wrapped "*" w) = clean_response_for_speech w
  /\ (lacks (is_char 95) w ->
      clean_response_for_speech (wrapped "_" w)
      = clean_response_for_speech w)
  /\ (lacks (is_char 95) w -> lacks (is_char 96) w ->
      clean_response_for_speech (wrapped "`" w)
      = clean_response_for_speech w).
Proof.
  intros H42 H10.
  assert (Hb : re_sub re_bold [TRef 1] w = w)
    by apply (re_sub_needs_id _ re_bold _ w needs_bold H42).
  assert (Hi : re_sub re_italic [TRef 1] w = w)
    by apply (re_sub_needs_id _ re_italic _ w needs_italic H42).
  rewrite !clean_rules.
  split; [|split; [|split]].
  - rewrite (rules_split 1), !run_app. cbn [firstn rules run fold_left].
    change re_bold with (marked "**").
    rewrite (unwrap "**" 42 [42] w eq_refl H42 H10).
    change (marked "**") with re_bold. now rewrite Hb.
  - rewrite (rules_split 2), !run_app. cbn [firstn rules run fold_left].
    assert (Hs : re_sub re_bold [TRef 1] (wrapped "*" w) = wrapped "*" w).
    { apply (sub_scan_short_id (is_char 42)).
      change (min_reads (is_char 42) re_bold) with 4%nat.
      unfold wrapped. rewrite !count_app, (count_lacks _ w H42).
      change (count (is_char 42) (s2t "*")) with 1%nat. lia. }
    rewrite Hs.
    change re_italic with (marked "*").
    rewrite (unwrap "*" 42 [] w eq_refl H42 H10).
    change (marked "*") with re_italic. now rewrite Hb, Hi.
  - intro H95.
    assert (Hu : re_sub re_underline [TRef 1] w = w)
      by apply (re_sub_needs_id _ re_underline _ w needs_underline H95).
    assert (Hw : lacks (is_char 42) (wrapped "_" w))
      by (apply lacks_wrapped; [repeat constructor|exact H42]).
    rewrite (rules_split 3), !run_app. cbn [firstn rules run fold_left].
    rewrite (re_sub_needs_id _ re_bold _ _ needs_bold Hw).
    rewrite (re_sub_needs_id _ re_italic _ _ needs_italic Hw).
    change re_underline with (marked "_").
    rewrite (unwrap "_" 95 [] w eq_refl H95 H10).
    change (marked "_") with re_underline. now rewrite Hb, Hi, Hu.
  - intros H95 H96.
    assert (Hu : re_sub re_underline [TRef 1] w = w)
      by apply (re_sub_needs_id _ re_underline _ w needs_underline H95).
    assert (Hc : re_sub re_code [TRef 1] w = w)
      by apply (re_sub_needs_id _ re_code _ w needs_code H96).
    assert (Hw : lacks (is_char 42) (wrapped "`" w))
      by (apply lacks_wrapped; [repeat constructor|exact H42]).
    assert (Hw' : lacks (is_char 95) (wrapped "`" w))
      by (apply lacks_wrapped; [repeat constructor|exact H95]).
    rewrite (rules_split 4), !run_app. cbn [firstn rules run fold_left].
    rewrite (re_sub_needs_id _ re_bold _ _ needs_bold Hw).
    rewrite (re_sub_needs_id _ re_italic _ _ needs_italic Hw).
    rewrite (re_sub_needs_id _ re_underline _ _ needs_underline Hw').
    change re_code with (marked "`").
    rewrite (unwrap "`" 96 [] w eq_refl H96 H10).
    change (marked "`") with re_code. now rewrite Hb, Hi, Hu, Hc.
Qed.

End MarkupFacts.

(** ** Calls that overlap *)

Section RaceFacts.
Variables document chunk : Type.
Variable index_nodes : list document -> list chunk.

Lemma pending_set_nth (i : nat) (t t' : pc) :
  forall ts : list pc,
  nth_error ts i = Some t ->
  (pending_all (set_nth i t' ts) + pending t
   = pending_all ts + pending t')%nat.
Proof.
  induction i as [|i IH]; intros [|a ts] H; try discriminate; simpl in *.
  - injection H as ->. lia.
  - specialize (IH ts H). lia.
Qed.

Lemma thread_step_pending (t : pc) (p : process document chunk) :
  let r := thread_step index_nodes t p in
  (created (snd r) + pending (fst r) <= created p + pending t)%nat.
Proof.
  destruct t; simpl; try lia.
  - destruct (rag_engine_global p); simpl; lia.
  - pose proof (constructor_counts _ _ index_nodes p) as [_ Hc].
    destruct (UniversityRAGEngine index_nodes p) as [[e|x] p']; simpl in *.
    + destruct Hc as [Hc _]. lia.
    + lia.
Qed.

(** X22: However the first calls of several threads are interleaved, every
    construction uses up one thread that had not yet passed it: the number
    of engines constructed never exceeds the number of calls that started
    before the global was seen set. *)
Theorem constructions_bounded_by_threads (sched : list nat) :
  forall st : list pc * process document chunk,
  let st' := run_schedule index_nodes sched st in
  (created (snd st') + pending_all (fst st')
   <= created (snd st) + pending_all (fst st))%nat
  /\ (created (snd st') <= created (snd st) + length (fst st))%nat.
Proof.
  assert (Hlen : forall ts : list pc, (pending_all ts <= length ts)%nat).
  { induction ts as [|t ts IH]; simpl; [lia|].
    destruct t; simpl; lia. }
  assert (Hinv : forall st : list pc * process document chunk,
            let st' := run_schedule index_nodes sched st in
            (created (snd st') + pending_all (fst st')
             <= created (snd st) + pending_all (fst st))%nat).
  { unfold run_schedule.
    induction sched as [|i sched IH]; intro st; simpl; [lia|].
    eapply Nat.le_trans; [apply IH|].
    unfold pool_step. destruct (nth_error (fst st) i) as [t|] eqn:Hn;
      [|lia].
    pose proof (thread_step_pending t (snd st)) as Hs.
    destruct (thread_step index_nodes t (snd st)) as [t' p'] eqn:Ht.
    simpl in *.
    pose proof (pending_set_nth i t t' (fst st) Hn). lia. }
  intro st. split; [apply Hinv|].
  specialize (Hinv st). specialize (Hlen (fst st)). simpl in Hinv. lia.
Qed.

End RaceFacts.

(** ** More on the retrieval engine *)

Section EngineMore.
Context {U : UnicodeData}.
Variables document chunk : Type.
Variable index_nodes : list document -> list chunk.
Variable run_query : list chunk -> text -> outcome text.

Lemma async_is_sync (query : text) (p : process document chunk) :
  get_rag_answer_async index_nodes run_query query p
  = get_rag_answer index_nodes run_query query p.
Proof.
  unfold get_rag_answer_async, get_rag_answer, bind, read_global.
  destruct (rag_engine_global p); reflexivity.
Qed.

Lemma answer_when_set (self : engine) (query : text)
  (p : process document chunk) :
  rag_engine_global p = Some self ->
  get_rag_answer index_nodes run_query query p
  = get_rag_answer_method run_query self query p.
Proof.
  intro H. unfold get_rag_answer, bind, read_global. now rewrite H.
Qed.

Lemma apology_is_presented (user_query : text) :
  knowledge_prompt user_query could_not_retrieve
  = direct_prompt user_query spoken_apology.
Proof.
  unfold knowledge_prompt.
  assert (Hc : clean_response_for_speech could_not_retrieve = spoken_apology)
    by (vm_compute; reflexivity).
  assert (Hr : rag_found_nothing could_not_retrieve = false)
    by (vm_compute; reflexivity).
  now rewrite Hr, Hc.
Qed.

(** X8: When the query engine fails with an error that derives from
    [Exception], the agent presents the apology of [get_rag_answer] to the
    language model as the information it found: the confidence test does
    not recognise it. *)
Theorem retrieval_failure_is_presented (p : process document chunk)
  (say : text -> option exn) (self : engine) (user_query : text) (e : exn) :
  rag_engine_global p = Some self ->
  is_casual user_query = false ->
  strip user_query <> [] ->
  run_query (collection (disk p)) user_query = Raise e ->
  is_Exception (exn_class e) = true ->
  rag_found_nothing could_not_retrieve = false
  /\ exists rest,
       fst (answer_with_rag (engine_backed document chunk index_nodes
                               run_query p say) user_query)
       = AskedRag user_query
         :: Replied (direct_prompt user_query spoken_apology) :: rest.
Proof.
  intros Hg Hc Hq Hr He.
  split; [vm_compute; reflexivity|].
  unfold answer_with_rag, answer_body, reply. rewrite Hc.
  cbn [rag_async engine_backed generate_reply].
  rewrite async_is_sync, (answer_when_set self _ _ Hg).
  rewrite (get_rag_answer_method_cases _ _ run_query self user_query p Hq).
  rewrite Hr, He. cbn [fst].
  rewrite apology_is_presented.
  destruct (say (direct_prompt user_query spoken_apology)) as [x|]; simpl.
  - destruct (is_Exception (exn_class x)); simpl.
    + destruct (say fallback_instructions); simpl; eexists; reflexivity.
    + eexists; reflexivity.
  - eexists; reflexivity.
Qed.

(** *** Construction *)

Lemma constructor_on_empty_store (p : process document chunk)
  (documents : list document) :
  collection (disk p) = [] -> embedding (disk p) = Ret tt ->
  data_dir (disk p) = Some (Ret documents) ->
  indexing (disk p) = None -> persisting (disk p) = None ->
  UniversityRAGEngine index_nodes p
  = (Ret {| engine_id := created p; engine_index := IndexFromDocuments |},
     {| disk := {| collection := index_nodes documents;
                   data_dir := data_dir (disk p);
                   embedding := embedding (disk p);
                   indexing := indexing (disk p);
                   persisting := persisting (disk p) |};
        trace := trace p ++ ingestion_log document chunk index_nodes documents;
        rag_engine_global := rag_engine_global p;
        created := S (created p) |}).
Proof.
  intros Hc He Hd Hi Hp.
  unfold UniversityRAGEngine, _ingest_documents, bind, logger, emit,
    read_disk, lift, ret, new_object, write_collection, ingestion_log; simpl.
  rewrite He, Hc; simpl. rewrite Hd; simpl. rewrite Hi; simpl.
  rewrite Hp; simpl. rewrite Hc; simpl.
  rewrite <- !app_assoc, ?Hd, ?He, ?Hi, ?Hp. reflexivity.
Qed.

(** X15: On an empty store with the data folder in place, when the
    indexing of the documents and [persist] go through, the constructor
    reads the folder once, stores exactly the nodes of the documents it
    loaded and persists them; if there is at least one node, constructing
    again on what it left behind ingests nothing. *)
Theorem empty_store_ingests_documents (p : process document chunk)
  (documents : list document) :
  collection (disk p) = [] -> embedding (disk p) = Ret tt ->
  data_dir (disk p) = Some (Ret documents) ->
  indexing (disk p) = None -> persisting (disk p) = None ->
  let r := UniversityRAGEngine index_nodes p in
  fst r = Ret {| engine_id := created p; engine_index := IndexFromDocuments |}
  /\ collection (disk (snd r)) = index_nodes documents
  /\ trace (snd r)
     = trace p ++ ingestion_log document chunk index_nodes documents
  /\ (index_nodes documents <> [] ->
      let r2 := UniversityRAGEngine index_nodes (snd r) in
      disk (snd r2) = disk (snd r)
      /\ fst r2 = Ret {| engine_id := S (created p);
                         engine_index := IndexFromVectorStore |}).
Proof.
  intros Hc He Hd Hi Hp r. subst r.
  rewrite (constructor_on_empty_store p documents Hc He Hd Hi Hp).
  cbn [fst snd].
  split; [reflexivity|]. split; [reflexivity|]. split; [reflexivity|].
  intro Hne. split.
  - rewrite (constructor_on_nonempty_store _ _ index_nodes); [|exact Hne].
    cbn [disk embedding]. rewrite He. reflexivity.
  - rewrite (constructor_on_nonempty_store _ _ index_nodes); [|exact Hne].
    cbn [disk embedding]. rewrite He. reflexivity.
Qed.



(** X17: The engine is constructed before the query is looked at, and outside
    the [try] of the method: when construction fails, [get_rag_answer] and
    [get_rag_answer_async] raise its error for every query, a blank one
    included, whatever the class of the error. *)
Theorem construction_error_escapes (p p' : process document chunk)
  (e : exn) (query : text) :
  rag_engine_global p = None ->
  UniversityRAGEngine index_nodes p = (Raise e, p') ->
  get_rag_answer index_nodes run_query query p = (Raise e, p')
  /\ get_rag_answer_async index_nodes run_query query p = (Raise e, p').
Proof.
  intros Hg Hu.
  assert (H : get_rag_answer index_nodes run_query query p = (Raise e, p')).
  { unfold get_rag_answer, initialize_rag_engine, bind, read_global.
    cbv beta iota. repeat (rewrite Hg; cbv beta iota). now rewrite Hu. }
  split; [exact H|]. rewrite <- H. apply async_is_sync.
Qed.

(** X18: A blank query to a process without an engine still constructs one,
    with whatever ingestion that takes, before it gets the fixed answer. *)
Theorem blank_query_still_constructs (p p' : process document chunk)
  (e : engine) (query : text) :
  rag_engine_global p = None ->
  UniversityRAGEngine index_nodes p = (Ret e, p') ->
  blank query ->
  let r := get_rag_answer index_nodes run_query query p in
  fst r = Ret invalid_question
  /\ rag_engine_global (snd r) = Some e
  /\ created (snd r) = S (created p)
  /\ disk (snd r) = disk p' /\ trace (snd r) = trace p'.
Proof.
  intros Hg Hu Hb r. subst r.
  pose proof (constructor_counts _ _ index_nodes p) as [_ Hc].
  rewrite Hu in Hc. simpl in Hc. destruct Hc as [Hc _].
  unfold get_rag_answer, initialize_rag_engine, bind, read_global,
    write_global, ret.
  cbv beta iota. repeat (rewrite Hg; cbv beta iota). rewrite Hu.
  cbv beta iota.
  unfold get_rag_answer_method. rewrite (strip_blank query Hb). simpl.
  repeat split. exact Hc.
Qed.

(** X21: The first query of a process with an empty store, when the
    indexing of the documents and [persist] go through, answers from the
    documents of the data folder: the query engine is run on exactly the
    nodes the constructor stored for them. *)
Theorem first_query_reads_ingested_documents (p : process document chunk)
  (documents : list document) (query : text) :
  rag_engine_global p = None ->
  collection (disk p) = [] -> embedding (disk p) = Ret tt ->
  data_dir (disk p) = Some (Ret documents) ->
  indexing (disk p) = None -> persisting (disk p) = None ->
  strip query <> [] ->
  let r := get_rag_answer index_nodes run_query query p in
  fst r = answer_of (run_query (index_nodes documents) query)
  /\ collection (disk (snd r)) = index_nodes documents
  /\ rag_engine_global (snd r)
     = Some {| engine_id := created p; engine_index := IndexFromDocuments |}.
Proof.
  intros Hg Hc He Hd Hi Hp Hq r. subst r.
  unfold get_rag_answer, initialize_rag_engine, bind, read_global,
    write_global, ret.
  cbv beta iota. repeat (rewrite Hg; cbv beta iota).
  rewrite (constructor_on_empty_store p documents Hc He Hd Hi Hp).
  cbv beta iota.
  rewrite (get_rag_answer_method_cases _ _ run_query _ query _ Hq). simpl.
  unfold answer_of.
  destruct (run_query (index_nodes documents) query) as [a|e]; simpl.
  - repeat split.
  - destruct (is_Exception (exn_class e)); simpl; repeat split.
Qed.

End EngineMore.

(** ** More on the start of the agent *)

Section StartMore.

Ltac open_entrypoint w groq cartesia :=
  unfold entrypoint, entrypoint_body, s_bind, plugin, required_key, s_ret,
    s_raise, startup_steps, logged_error, all_ready;
  unfold key_of;
  remember (getenv w (s2t "GROQ_API_KEY")) as groq;
  remember (getenv w (s2t "CARTESIA_API_KEY")) as cartesia.

Ltac prefix_found :=
  simpl;
  try match goal with
      | |- context [is_Exception ?c] =>
          let E := fresh "E" in
          destruct (is_Exception c) eqn:E; simpl; rewrite ?E
      end;
  first [ exists 1%nat; split; [reflexivity|lia]
        | exists 2%nat; split; [reflexivity|lia]
        | exists 3%nat; split; [reflexivity|lia]
        | exists 4%nat; split; [reflexivity|lia]
        | exists 5%nat; split; [reflexivity|lia]
        | exists 6%nat; split; [reflexivity|lia]
        | exists 7%nat; split; [reflexivity|lia]
        | exists 8%nat; split; [reflexivity|lia] ].

(** X12: Whatever fails, the steps of a start are taken in one order, each only
    after those before it went through, and the log line for the error
    comes last: the engine is initialised first, both models are created,
    each right after its own key was read, before the session starts, and
    the greeting is sent before the handler is registered. *)
Theorem startup_steps_in_order (w : startup) :
  exists n,
    snd (entrypoint w)
    = firstn n (startup_steps w) ++ logged_error (fst (entrypoint w))
    /\ (1 <= n <= 8)%nat.
Proof.
  open_entrypoint w groq cartesia.
  destruct (rag_engine_ready w) as [e|]; [prefix_found|].
  destruct (stt_ready w) as [e|]; [prefix_found|].
  destruct groq as [[|c g]|]; [prefix_found| |prefix_found].
  simpl. destruct (llm_ready w (c :: g)) as [e|]; [prefix_found|].
  destruct cartesia as [[|c' g']|]; [prefix_found| |prefix_found].
  simpl. destruct (tts_ready w (c' :: g')) as [e|]; [prefix_found|].
  destruct (vad_ready w) as [e|]; [prefix_found|].
  destruct (session_ready w) as [e|]; [prefix_found|].
  destruct (greeting_ready w) as [e|]; prefix_found.
Qed.

Ltac no_event :=
  simpl;
  try match goal with
      | |- context [is_Exception ?c] =>
          let E := fresh "E" in
          destruct (is_Exception c) eqn:E; simpl; rewrite ?E
      end;
  simpl;
  intuition (try discriminate; try congruence;
             try match goal with
                 | H : ?x = ?x -> False |- _ => elim (H eq_refl)
                 end).

(** X13: [entrypoint] returns normally exactly when both keys are set and no
    step fails, and exactly then the transcription handler is
    registered. *)
Theorem startup_succeeds_iff (w : startup) :
  (fst (entrypoint w) = Ret tt <-> all_ready w)
  /\ (In RegisteredHandler (snd (entrypoint w)) <-> all_ready w)
  /\ (all_ready w -> snd (entrypoint w) = startup_steps w).
Proof.
  open_entrypoint w groq cartesia.
  destruct (rag_engine_ready w) as [e|]; [no_event|].
  destruct (stt_ready w) as [e|]; [no_event|].
  destruct groq as [[|c g]|]; [no_event| |no_event].
  simpl. destruct (llm_ready w (c :: g)) as [e|]; [no_event|].
  destruct cartesia as [[|c' g']|]; [no_event| |no_event].
  simpl. destruct (tts_ready w (c' :: g')) as [e|]; [no_event|].
  destruct (vad_ready w) as [e|]; [no_event|].
  destruct (session_ready w) as [e|]; [no_event|].
  destruct (greeting_ready w) as [e|]; no_event.
Qed.

(** X14: With [CARTESIA_API_KEY] missing [entrypoint] ends by raising: the
    speech model is never created, the session is not started, nothing is
    said and the handler is not registered; when the steps before the test
    go through, the language model has been created and what is raised is
    the [ValueError] that names the key. *)
Theorem missing_cartesia_key_fails_at_startup (w : startup) :
  cartesia_key_missing w ->
  (exists e, fst (entrypoint w) = Raise e)
  /\ ~ In RegisteredHandler (snd (entrypoint w))
  /\ ~ In StartedSession (snd (entrypoint w))
  /\ (forall i, ~ In (SentGreeting i) (snd (entrypoint w)))
  /\ (forall k, ~ In (CreatedTTS k) (snd (entrypoint w)))
  /\ (rag_engine_ready w = None -> stt_ready w = None ->
      key_of w "GROQ_API_KEY" <> [] ->
      llm_ready w (key_of w "GROQ_API_KEY") = None ->
      entrypoint w
      = (Raise cartesia_key_error,
         [InitializedRag; CreatedSTT; CreatedLLM (key_of w "GROQ_API_KEY");
          LoggedStartupError cartesia_key_error])).
Proof.
  intro Hk. unfold cartesia_key_missing in Hk.
  open_entrypoint w groq cartesia.
  assert (Hc : cartesia = None \/ cartesia = Some []) by exact Hk.
  clear Hk Heqcartesia.
  destruct (rag_engine_ready w) as [e|];
    [simpl; destruct (is_Exception (exn_class e)) eqn:E; simpl; rewrite ?E;
     (split; [now eexists|]); intuition (try discriminate; try congruence)|].
  destruct (stt_ready w) as [e|];
    [simpl; destruct (is_Exception (exn_class e)) eqn:E; simpl; rewrite ?E;
     (split; [now eexists|]); intuition (try discriminate; try congruence)|].
  destruct groq as [[|c g]|];
    [simpl; (split; [now eexists|]);
     intuition (try discriminate; try congruence)|
    |simpl; (split; [now eexists|]);
     intuition (try discriminate; try congruence)].
  simpl. destruct (llm_ready w (c :: g)) as [e|];
    [simpl; destruct (is_Exception (exn_class e)) eqn:E; simpl; rewrite ?E;
     (split; [now eexists|]); intuition (try discriminate; try congruence)|].
  destruct Hc as [->| ->]; simpl; (split; [now eexists|]);
    intuition (try discriminate; try congruence).
Qed.

End StartMore.

(** ** The aiohttp patch *)

Section PatchFacts.
Variable original : nat -> list pyvalue -> kwargs -> outcome unit.

Lemma text_eqb_eq (a b : text) : text_eqb a b = true <-> a = b.
Proof.
  revert b. induction a as [|x a IH]; intros [|y b]; simpl;
    try (split; [discriminate|discriminate]); [split; reflexivity|].
  rewrite andb_true_iff, N.eqb_eq, IH. split.
  - intros [-> ->]. reflexivity.
  - intro H. injection H as -> ->. now split.
Qed.

Lemma text_eqb_refl (a : text) : text_eqb a a = true.
Proof.
  now apply text_eqb_eq.
Qed.

Lemma text_eqb_neq (a b : text) : a <> b -> text_eqb a b = false.
Proof.
  intro H. destruct (text_eqb a b) eqn:E; [|reflexivity].
  apply text_eqb_eq in E. contradiction.
Qed.

Lemma dict_get_absent (k : text) (d : kwargs) :
  ~ In k (keys d) -> dict_get k d = None.
Proof.
  induction d as [|[k' v] d IH]; simpl; [reflexivity|].
  intro H. rewrite text_eqb_neq; [apply IH|]; intuition.
Qed.

Lemma dict_get_present (k : text) (d : kwargs) :
  dict_get k d = None -> ~ In k (keys d).
Proof.
  induction d as [|[k' v] d IH]; simpl; [tauto|].
  destruct (text_eqb k' k) eqn:E; [discriminate|].
  intros H [->|Hin]; [now rewrite text_eqb_refl in E|now apply IH].
Qed.

(** [pop] gives what [get] gives, takes the key away and leaves the other
    keys as they are. *)
Lemma dict_pop_spec (k : text) (d : kwargs) :
  fst (dict_pop k d) = dict_get k d
  /\ (forall k', k' <> k ->
        dict_get k' (snd (dict_pop k d)) = dict_get k' d)
  /\ (forall k', In k' (keys (snd (dict_pop k d))) -> In k' (keys d))
  /\ (NoDup (keys d) ->
      NoDup (keys (snd (dict_pop k d)))
      /\ ~ In k (keys (snd (dict_pop k d)))).
Proof.
  induction d as [|[k0 v] d (IH1 & IH2 & IH3 & IH4)]; simpl.
  - repeat split; [intros k' []|constructor|intros []].
  - destruct (text_eqb k0 k) eqn:E.
    + apply text_eqb_eq in E. subst k0. simpl. repeat split.
      * intros k' Hk. now rewrite text_eqb_neq by congruence.
      * intros k' Hin. now right.
      * now inversion H.
      * now inversion H.
    + destruct (dict_pop k d) as [r d'] eqn:Hp. simpl in *.
      repeat split.
      * exact IH1.
      * intros k' Hk. destruct (text_eqb k0 k'); [reflexivity|].
        now apply IH2.
      * intros k' [->|Hin]; [now left|right; now apply IH3].
      * inversion H as [|a l Hnin Hnd]; subst.
        constructor; [|now apply IH4]. intro Hin. apply Hnin.
        now apply IH3.
      * inversion H as [|a l Hnin Hnd]; subst.
        intros [->|Hin]; [now rewrite text_eqb_refl in E|].
        now apply (proj2 (IH4 Hnd)).
Qed.

(** [d[k] = v] sets the key and leaves the other keys as they are. *)
Lemma dict_set_spec (k : text) (v : pyvalue) (d : kwargs) :
  dict_get k (dict_set k v d) = Some v
  /\ (forall k', k' <> k -> dict_get k' (dict_set k v d) = dict_get k' d)
  /\ (forall k', In k' (keys (dict_set k v d)) -> k' = k \/ In k' (keys d))
  /\ (NoDup (keys d) -> NoDup (keys (dict_set k v d))).
Proof.
  induction d as [|[k0 v0] d (IH1 & IH2 & IH3 & IH4)]; simpl.
  - rewrite text_eqb_refl. repeat split.
    + intros k' Hk. now rewrite text_eqb_neq by congruence.
    + intros k' [->|[]]. now left.
    + intros _. constructor; [intros []|constructor].
  - destruct (text_eqb k0 k) eqn:E; simpl.
    + rewrite text_eqb_refl. apply text_eqb_eq in E. subst k0.
      repeat split.
      * intros k' Hk. now rewrite text_eqb_neq by congruence.
      * intros k' [->|Hin]; [now left|right; now right].
      * intro H. exact H.
    + rewrite E. repeat split.
      * exact IH1.
      * intros k' Hk. destruct (text_eqb k0 k'); [reflexivity|].
        now apply IH2.
      * intros k' [->|Hin]; [right; now left|].
        destruct (IH3 k' Hin) as [->|H]; [now left|right; now right].
      * intro H. inversion H as [|a l Hnin Hnd]; subst.
        constructor; [|now apply IH4].
        intro Hin. destruct (IH3 k0 Hin) as [->|H'];
          [now rewrite text_eqb_refl in E|contradiction].
Qed.

(** X23: Whatever the caller passes, the original [__init__] gets no [proxy]
    argument; it gets [trust_env=True] exactly when a proxy other than
    [None] was passed, the caller's own [trust_env] otherwise; every other
    keyword argument arrives as it was passed. *)
Theorem patched_kwargs_drop_proxy (kw : kwargs) :
  NoDup (keys kw) ->
  dict_get (s2t "proxy") (patched_kwargs kw) = None
  /\ dict_get (s2t "trust_env") (patched_kwargs kw)
     = match dict_get (s2t "proxy") kw with
       | Some v => if is_given v then Some (PyBool true)
                   else dict_get (s2t "trust_env") kw
       | None => dict_get (s2t "trust_env") kw
       end
  /\ (forall k, k <> s2t "proxy" -> k <> s2t "trust_env" ->
        dict_get k (patched_kwargs kw) = dict_get k kw)
  /\ NoDup (keys (patched_kwargs kw)).
Proof.
  intro Hnd. unfold patched_kwargs.
  pose proof (dict_pop_spec (s2t "proxy") kw) as (Hf & Ho & Hk & Hn).
  destruct (Hn Hnd) as [Hnd' Hnin].
  destruct (dict_pop (s2t "proxy") kw) as [popped kw'] eqn:Hp.
  simpl in *. rewrite <- Hf.
  assert (Hte : dict_get (s2t "trust_env") kw'
                = dict_get (s2t "trust_env") kw)
    by (apply Ho; discriminate).
  assert (Hset : forall v,
            dict_get (s2t "proxy")
              (dict_set (s2t "trust_env") v kw') = None).
  { intro v.
    destruct (dict_set_spec (s2t "trust_env") v kw') as (_ & Hs & _).
    rewrite Hs by discriminate. now apply dict_get_absent. }
  destruct popped as [[|b|s|n]|]; simpl;
    try (split; [now apply dict_get_absent|];
         split; [exact Hte|]; split; [|exact Hnd'];
         intros k H1 H2; now apply Ho);
    (destruct (dict_set_spec (s2t "trust_env") (PyBool true) kw')
       as (Hg & Hs & _ & Hd);
     split; [apply Hset|]; split; [exact Hg|]; split; [|now apply Hd];
     intros k H1 H2; rewrite Hs by exact H2; now apply Ho).
Qed.

Lemma dict_pop_set (k : text) (v : pyvalue) (d : kwargs) :
  dict_get k d = None -> dict_pop k (dict_set k v d) = (Some v, d).
Proof.
  induction d as [|[k0 v0] d IH]; simpl.
  - now rewrite text_eqb_refl.
  - destruct (text_eqb k0 k) eqn:E; [discriminate|]. intro H.
    simpl. rewrite E, (IH H). reflexivity.
Qed.

Lemma dict_pop_absent (k : text) (d : kwargs) :
  dict_get k d = None -> dict_pop k d = (None, d).
Proof.
  induction d as [|[k0 v0] d IH]; simpl; [reflexivity|].
  destruct (text_eqb k0 k); [discriminate|]. intro H. now rewrite (IH H).
Qed.

(** X24: The address passed as [proxy] is dropped: adding [proxy=v] to keyword
    arguments without one has the effect of setting [trust_env=True],
    whatever [v] is, and no effect when [v] is [None]. *)
Theorem proxy_address_is_dropped (kw : kwargs) (v : pyvalue) :
  dict_get (s2t "proxy") kw = None ->
  patched_kwargs (dict_set (s2t "proxy") v kw)
  = if is_given v then dict_set (s2t "trust_env") (PyBool true) kw else kw.
Proof.
  intro H. unfold patched_kwargs. rewrite (dict_pop_set _ v _ H).
  destruct v; reflexivity.
Qed.

(** X25: With the patch applied a session made without a [proxy] argument
    reaches the original [__init__] with the arguments of the caller, and
    one made with a proxy reaches it without; once the patch is removed
    every call goes to the original [__init__] as it is, however often the
    patch had been applied. *)
Theorem patch_is_transparent_without_proxy (s : session_init) (self : nat)
  (args : list pyvalue) (kw : kwargs) :
  (dict_get (s2t "proxy") kw = None ->
   new_client_session original (fst (apply_livekit_patch s)) self args kw
   = original self args kw)
  /\ new_client_session original
       (fst (apply_livekit_patch (fst (apply_livekit_patch s)))) self args kw
     = original self args (patched_kwargs kw)
  /\ new_client_session original
       (fst (remove_livekit_patch
               (fst (apply_livekit_patch (fst (apply_livekit_patch s))))))
       self args kw
     = original self args kw.
Proof.
  split; [|split; reflexivity].
  intro H. simpl. unfold patched_client_session_init, patched_kwargs.
  now rewrite (dict_pop_absent _ _ H).
Qed.

End PatchFacts.

(** ** Concrete runs *)

Lemma blank_query_answer_witness :
  Forall (fun c => is_space c = true) [32; 9; 10]
  /\ get_rag_answer_method answering an_engine [32; 9; 10]
       (start_of bare_world)
     = (Ret invalid_question, start_of bare_world).
Proof.
  assert (H : Forall (fun c => is_space c = true) [32; 9; 10])
    by (repeat constructor).
  split; [exact H|].
  exact (blank_query_answer text text answering an_engine [32; 9; 10]
           (start_of bare_world) H).
Defined.

Lemma query_failure_recovered_witness :
  strip (s2t "fees") <> []
  /\ fst (get_rag_answer_method (fun _ _ => Raise unreachable) an_engine
            (s2t "fees") (start_of bare_world))
     = Ret could_not_retrieve
  /\ trace (snd (get_rag_answer_method (fun _ _ => Raise unreachable)
                   an_engine (s2t "fees") (start_of bare_world)))
     = [Logged INFO (MsgQuerying (s2t "fees")); Queried (s2t "fees");
        Logged ERROR (MsgQueryFailed unreachable)].
Proof.
  assert (H : strip (s2t "fees") <> [])
    by (vm_compute; discriminate).
  split; [exact H|].
  exact (query_failure_recovered text text (fun _ _ => Raise unreachable)
           an_engine (s2t "fees") (start_of bare_world) H).
Defined.

(** C7, counterexample: a [KeyboardInterrupt] raised by the query engine is
    not caught by [except Exception]; the call raises it instead of
    returning the apology. *)
Lemma keyboard_interrupt_propagates :
  strip (s2t "fees") <> []
  /\ fst (get_rag_answer_method (fun _ _ => Raise interrupted) an_engine
            (s2t "fees") (start_of bare_world))
     = Raise interrupted
  /\ fst (get_rag_answer_method (fun _ _ => Raise interrupted) an_engine
            (s2t "fees") (start_of bare_world))
     <> Ret could_not_retrieve.
Proof.
  split; [vm_compute; discriminate|].
  split; [reflexivity|discriminate].
Qed.

Lemma nonempty_store_skips_ingestion_witness :
  collection (disk (start_of stocked_world)) <> []
  /\ disk (snd (UniversityRAGEngine one_node_each (start_of stocked_world)))
     = stocked_world.
Proof.
  assert (H : collection (disk (start_of stocked_world)) <> [])
    by discriminate.
  split; [exact H|].
  exact (proj1 (nonempty_store_skips_ingestion text text one_node_each
                  (start_of stocked_world) H)).
Defined.

Lemma missing_data_dir_witness :
  data_dir (disk (start_of bare_world)) = None
  /\ fst (_ingest_documents one_node_each (start_of bare_world))
     = Ret EmptyIndex.
Proof.
  assert (H : data_dir (disk (start_of bare_world)) = None) by reflexivity.
  split; [exact H|].
  exact (proj1 (proj1 (missing_data_dir_gives_empty_index text text
                         one_node_each answering (start_of bare_world) H))).
Defined.

(** C6, counterexample: with the data folder missing ingestion returns an
    empty index and [persist] is not called. *)
Lemma missing_data_dir_is_not_persisted :
  data_dir (disk (start_of bare_world)) = None
  /\ fst (_ingest_documents one_node_each (start_of bare_world))
     = Ret EmptyIndex
  /\ ~ In Persisted
         (trace (snd (_ingest_documents one_node_each (start_of bare_world))))
  /\ ~ In Persisted
         (trace (snd (UniversityRAGEngine one_node_each
                        (start_of bare_world)))).
Proof.
  split; [reflexivity|]. split; [reflexivity|].
  split; simpl; intuition discriminate.
Qed.





(** ** More concrete runs *)

Lemma blank_text_witness :
  blank [32; 10; 9]
  /\ clean_response_for_speech (U := ascii_tables) [32; 10; 9] = [].
Proof.
  assert (H : blank [32; 10; 9]) by (repeat constructor).
  split; [exact H|].
  exact (proj1 (blank_text_normalises_to_empty (U := ascii_tables)
                  [32; 10; 9] H)).
Defined.

Lemma casual_phrase_witness :
  In "hi" casual_phrases
  /\ lower (U := ascii_tables) (s2t "Hi what are the hostel fees")
     = [] ++ s2t "hi" ++ s2t " what are the hostel fees"
  /\ is_casual (U := ascii_tables) (s2t "Hi what are the hostel fees") = true
  /\ route (U := ascii_tables) (s2t "Hi what are the hostel fees")
     = Some Greeting.
Proof.
  assert (H1 : In "hi" casual_phrases) by (left; reflexivity).
  assert (H2 : lower (U := ascii_tables) (s2t "Hi what are the hostel fees")
               = [] ++ s2t "hi" ++ s2t " what are the hostel fees")
    by reflexivity.
  split; [exact H1|]. split; [exact H2|].
  pose proof (casual_phrase_skips_retrieval (U := ascii_tables)
                (s2t "Hi what are the hostel fees") []
                (s2t " what are the hostel fees") "hi" H1 H2
                eq_refl eq_refl) as (Hc & Hg & _).
  split; [exact Hc|]. apply Hg. left. reflexivity.
Defined.

Lemma one_reply_witness :
  (forall i, generate_reply cut_off i = None)
  /\ snd (answer_with_rag (U := ascii_tables) cut_off (s2t "hostel fees"))
     = Ret tt.
Proof.
  assert (H1 : forall i, generate_reply cut_off i = None)
    by (intro i; reflexivity).
  assert (H2 : forall e, rag_async cut_off (s2t "hostel fees") = Raise e ->
                         is_Exception (exn_class e) = true).
  { intros e H. injection H as <-. reflexivity. }
  split; [exact H1|].
  exact (proj1 (one_reply_per_query (U := ascii_tables) cut_off
                  (s2t "hostel fees") H1 H2)).
Defined.

Lemma blank_transcription_witness :
  blank [32; 10]
  /\ transcription_turn (U := ascii_tables) cut_off (fun _ => None)
       (Some [32; 10])
     = ([], [], Ret tt).
Proof.
  assert (H : blank [32; 10]) by (repeat constructor).
  split; [exact H|].
  apply (blank_transcription_starts_nothing (U := ascii_tables)).
  right. exists [32; 10]. split; [reflexivity|exact H].
Defined.

Lemma transcription_query_witness :
  In (CreatedTask (s2t "hostel fees"))
     (fst (on_transcription (fun _ => None) (Some (s2t "  hostel fees "))))
  /\ exists t, Some (s2t "  hostel fees ") = Some t
               /\ s2t "hostel fees" = strip t.
Proof.
  assert (H : In (CreatedTask (s2t "hostel fees"))
                 (fst (on_transcription (fun _ => None)
                         (Some (s2t "  hostel fees ")))))
    by (right; left; reflexivity).
  split; [exact H|].
  destruct (transcription_query_is_trimmed (U := ascii_tables) cut_off
              (fun _ => None) (Some (s2t "  hostel fees "))
              (s2t "hostel fees") H) as (t & Ht & Hq & _).
  exists t. split; [exact Ht|exact Hq].
Defined.

(** A turn in which everything fails: the engine is out of reach and the
    session is closed.  The fallback is still requested, and the error of
    the fallback is printed by the callback of the task. *)
Lemma closed_session_turn :
  strip (s2t "  hostel fees ") = s2t "hostel fees"
  /\ transcription_turn (U := ascii_tables) closed_session (fun _ => None)
       (Some (s2t "  hostel fees "))
     = ([PrintedUserSaid (s2t "hostel fees");
         CreatedTask (s2t "hostel fees");
         PrintedTaskError session_closed],
        [AskedRag (s2t "hostel fees"); Replied fallback_instructions],
        Ret tt).
Proof.
  assert (Hs : strip (s2t "  hostel fees ")
               = s2t "hostel fees") by reflexivity.
  split; [exact Hs|].
  destruct (turn_contains_exceptions (U := ascii_tables) closed_session
              (fun _ => None) (Some (s2t "  hostel fees ")))
    as (_ & _ & H).
  specialize (H (s2t "  hostel fees ") unreachable eq_refl).
  rewrite Hs in H.
  destruct (H ltac:(discriminate) eq_refl eq_refl eq_refl)
    as (Ht & Hp & Hr).
  destruct (transcription_turn (U := ascii_tables) closed_session
              (fun _ => None) (Some (s2t "  hostel fees ")))
    as [[printed tr] r].
  simpl in Ht, Hp, Hr. now rewrite Ht, Hp, Hr.
Defined.

Lemma retrieval_failure_witness :
  rag_found_nothing (U := ascii_tables) could_not_retrieve = false
  /\ exists rest,
       fst (answer_with_rag (U := ascii_tables)
              (engine_backed text text one_node_each
                 (fun _ _ => Raise unreachable)
                 (snd (initialize_rag_engine one_node_each
                         (start_of bare_world)))
                 (fun _ => None))
              (s2t "hostel fees"))
       = AskedRag (s2t "hostel fees")
         :: Replied (direct_prompt (s2t "hostel fees") spoken_apology)
         :: rest.
Proof.
  exact (retrieval_failure_is_presented (U := ascii_tables) text text
           one_node_each (fun _ _ => Raise unreachable)
           (snd (initialize_rag_engine one_node_each (start_of bare_world)))
           (fun _ => None)
           {| engine_id := 0; engine_index := EmptyIndex |}
           (s2t "hostel fees") unreachable
           eq_refl eq_refl
           (fun H : strip (s2t "hostel fees") = [] =>
              @eq_ind text (strip (s2t "hostel fees"))
                (fun t => match t with [] => False | _ :: _ => True end)
                I [] H)
           eq_refl eq_refl).
Defined.

Lemma empty_store_witness :
  collection (disk (start_of fresh_world)) = []
  /\ collection (disk (snd (UniversityRAGEngine one_node_each
                              (start_of fresh_world))))
     = [s2t "Minimum attendance required is 75 percent"].
Proof.
  split; [reflexivity|].
  exact (proj1 (proj2 (empty_store_ingests_documents text text one_node_each
                         (start_of fresh_world)
                         [s2t "Minimum attendance required is 75 percent"]
                         eq_refl eq_refl eq_refl eq_refl eq_refl))).
Defined.


Lemma construction_error_witness :
  rag_engine_global (start_of broken_world) = None
  /\ fst (get_rag_answer one_node_each answering (s2t "hostel fees")
            (start_of broken_world))
     = Raise unreachable.
Proof.
  split; [reflexivity|].
  exact (f_equal fst
           (proj1 (construction_error_escapes text text one_node_each
                     answering (start_of broken_world)
                     (logged (start_of broken_world)
                        [Logged INFO MsgInitializing])
                     unreachable (s2t "hostel fees") eq_refl eq_refl))).
Defined.

Lemma blank_query_constructs_witness :
  blank [32]
  /\ fst (get_rag_answer one_node_each answering [32]
            (start_of fresh_world))
     = Ret invalid_question
  /\ created (snd (get_rag_answer one_node_each answering [32]
                     (start_of fresh_world)))
     = 1%nat.
Proof.
  assert (H : blank [32]) by (repeat constructor).
  split; [exact H|].
  pose proof (blank_query_still_constructs text text one_node_each answering
                (start_of fresh_world)
                {| disk := {| collection :=
                                [s2t "Minimum attendance required is 75 percent"];
                              data_dir := data_dir fresh_world;
                              embedding := Ret tt;
                              indexing := None; persisting := None |};
                   trace := ingestion_log text text one_node_each
                              [s2t "Minimum attendance required is 75 percent"];
                   rag_engine_global := None;
                   created := 1 |}
                {| engine_id := 0; engine_index := IndexFromDocuments |}
                [32] eq_refl eq_refl H) as (H1 & _ & H2 & _).
  split; [exact H1|exact H2].
Defined.

Lemma first_query_witness :
  strip (s2t "attendance") <> []
  /\ fst (get_rag_answer one_node_each answering (s2t "attendance")
            (start_of fresh_world))
     = Ret (s2t "Minimum attendance required is 75 percent").
Proof.
  assert (H : strip (s2t "attendance") <> [])
    by (vm_compute; discriminate).
  split; [exact H|].
  exact (proj1 (first_query_reads_ingested_documents text text one_node_each
                  answering (start_of fresh_world)
                  [s2t "Minimum attendance required is 75 percent"]
                  (s2t "attendance") eq_refl eq_refl eq_refl eq_refl eq_refl
                  eq_refl H)).
Defined.

Lemma missing_cartesia_key_witness :
  cartesia_key_missing only_groq_key
  /\ entrypoint only_groq_key
     = (Raise cartesia_key_error,
        [InitializedRag; CreatedSTT; CreatedLLM (s2t "gsk");
         LoggedStartupError cartesia_key_error]).
Proof.
  assert (H : cartesia_key_missing only_groq_key) by (left; reflexivity).
  split; [exact H|].
  exact (proj2 (proj2 (proj2 (proj2 (proj2
           (missing_cartesia_key_fails_at_startup only_groq_key H)))))
           eq_refl eq_refl
           (fun E : key_of only_groq_key "GROQ_API_KEY" = [] =>
              @eq_ind text (key_of only_groq_key "GROQ_API_KEY")
                (fun t => match t with [] => False | _ :: _ => True end)
                I [] E)
           eq_refl).
Defined.

Lemma patched_kwargs_witness :
  NoDup (keys proxied_kwargs)
  /\ dict_get (s2t "proxy") (patched_kwargs proxied_kwargs) = None
  /\ dict_get (s2t "trust_env") (patched_kwargs proxied_kwargs)
     = Some (PyBool true).
Proof.
  assert (H : NoDup (keys proxied_kwargs)).
  { repeat constructor; simpl; intuition discriminate. }
  split; [exact H|].
  split.
  - exact (proj1 (patched_kwargs_drop_proxy proxied_kwargs H)).
  - exact (proj1 (proj2 (patched_kwargs_drop_proxy proxied_kwargs H))).
Defined.

Lemma proxy_address_witness :
  dict_get (s2t "proxy") [(s2t "timeout", PyObject 1)] = None
  /\ patched_kwargs
       (dict_set (s2t "proxy") (PyStr (s2t "http://10.0.0.1:3128"))
          [(s2t "timeout", PyObject 1)])
     = [(s2t "timeout", PyObject 1); (s2t "trust_env", PyBool true)].
Proof.
  split; [reflexivity|].
  exact (proxy_address_is_dropped [(s2t "timeout", PyObject 1)]
           (PyStr (s2t "http://10.0.0.1:3128")) eq_refl).
Defined.

Lemma markup_witness :
  lacks (is_char 42) (s2t "fees due")
  /\ clean_response_for_speech (U := ascii_tables)
       (wrapped "**" (s2t "fees due"))
     = clean_response_for_speech (U := ascii_tables) (s2t "fees due").
Proof.
  assert (H42 : lacks (is_char 42) (s2t "fees due")) by (repeat constructor).
  assert (H10 : lacks (is_char 10) (s2t "fees due")) by (repeat constructor).
  split; [exact H42|].
  exact (proj1 (markup_is_transparent (U := ascii_tables) (s2t "fees due")
                  H42 H10)).
Defined.
